(** * Verification of the tutoring application's service layer

    Shallow embedding of the retry loops, the structured-response parser
    (services/geminiService.ts) and the PDF paginator
    (services/exportService.ts), followed by the properties proved about
    them.

    Conventions of the embedding:
    - a JavaScript string is a [string] holding its UTF-8 bytes; substring
      tests on well-formed UTF-8 agree with the tests on UTF-16 code units;
    - a JavaScript number that counts (loop index, retries) is a [nat], a
      delay in milliseconds is a [Z], a length in millimetres is an exact
      rational [Q]; a draw of [Math.random] is the binary64 value it is,
      given by its significand and exponent, and its product with 1000 is
      rounded as binary64 arithmetic rounds it;
    - an awaited call to a collaborator (the generation API, the rasterizer,
      [Math.random]) is read from an oracle indexed by the number of earlier
      calls; what the code does to the outside (calls, timers, the saved file,
      the alert) is returned as data;
    - [console.warn] and [console.error] are not modelled. *)

From Stdlib Require Import String Ascii List ZArith QArith Qround Bool Lia Lqa Arith
  Permutation.
Import ListNotations.

Local Open Scope string_scope.

(** ** JavaScript strings *)

(** [s.startsWith(p)]. *)
Fixpoint startsWith (s p : string) : bool :=
  match p, s with
  | EmptyString, _ => true
  | String c p', String d s' => if Ascii.eqb c d then startsWith s' p' else false
  | String _ _, EmptyString => false
  end.

(** [s.includes(sub)]. *)
Fixpoint includes (s sub : string) : bool :=
  if startsWith s sub then true
  else match s with
       | EmptyString => false
       | String _ s' => includes s' sub
       end.

(** ** Thrown values *)

(** What a [catch] clause can receive: an [Error] object (with its [name] and
    [message]) or [undefined]. *)
Inductive JsValue : Type :=
| Undefined
| ErrorObj (name message : string).

(** [new Error(message)]. *)
Definition newError (message : string) : JsValue := ErrorObj "Error" message.

(** [Error.prototype.toString]: the name, the message, or both joined by a
    colon and a space. *)
Definition toString (name message : string) : string :=
  match name, message with
  | EmptyString, _ => message
  | _, EmptyString => name
  | _, _ => name ++ ": " ++ message
  end.

(** The settlement of a promise. *)
Inductive completion (A : Type) : Type :=
| Fulfilled (a : A)
| Rejected (e : JsValue).
Arguments Fulfilled {A} a.
Arguments Rejected {A} e.

(** ** The generation API boundary *)

(** A [GenerateContentResponse]: its [text] getter gives a string or
    [undefined]. *)
Record GenerateContentResponse : Type := { text : option string }.

(** [!response.text]: [undefined] and the empty string are falsy. *)
Definition noText (t : option string) : bool :=
  match t with
  | None => true
  | Some EmptyString => true
  | Some _ => false
  end.

(** One awaited call to the API: it resolves, possibly with no response
    object, or it throws. *)
Inductive ApiResult : Type :=
| Resolves (response : option GenerateContentResponse)
| Throws (name message : string).

(** What the executor does to the outside, in order. *)
Inductive Event : Type :=
| Call (i : nat)          (* the i-th call of the operation, from 0 *)
| SetTimeout (ms : Z).    (* [await new Promise(res => setTimeout(res, ms))] *)

(** ** The jitter *)

(** What [Math.random()] returns: a Number greater than or equal to 0 and
    less than 1.  The binary64 values of that range are the products
    [significand * 2 ^ exponent] of a significand of at most 53 bits and an
    exponent from -1074 to -1 that stay below 1. *)
Definition isRandomNumber (significand exponent : Z) : bool :=
  (0 <=? significand)%Z && (significand <? 2 ^ 53)%Z
  && (-1074 <=? exponent)%Z && (exponent <? 0)%Z
  && (significand <? 2 ^ (- exponent))%Z.

Record RandomNumber : Type :=
  { significand : Z; exponent : Z;
    inUnitInterval : isRandomNumber significand exponent = true }.

(** The real number a draw stands for. *)
Definition valueOf (u : RandomNumber) : Q :=
  inject_Z (significand u) / inject_Z (2 ^ (- exponent u)).

(** The binary64 value nearest to [n * 2 ^ e], for [0 <= n], as a
    significand and an exponent: a significand longer than 53 bits loses its
    low bits, and the rest goes up by one when they are more than half a unit
    of it, or exactly half with the rest odd (round to nearest, ties to
    even).  Neither underflow nor overflow is met below: the exponent is not
    lowered and the products stay below 1000. *)
Definition roundTiesToEven (n e : Z) : Z * Z :=
  let excess := (Z.log2 n + 1 - 53)%Z in
  if (excess <=? 0)%Z then (n, e)
  else
    let q := Z.shiftr n excess in
    let r := (n - Z.shiftl q excess)%Z in
    let half := Z.shiftl 1 (excess - 1) in
    if (r <? half)%Z || ((r =? half)%Z && Z.even q) then (q, (e + excess)%Z)
    else ((q + 1)%Z, (e + excess)%Z).

(** [Math.floor] of [n * 2 ^ e]. *)
Definition floorOf (n e : Z) : Z :=
  if (0 <=? e)%Z then (n * 2 ^ e)%Z else (n / 2 ^ (- e))%Z.

(** [Math.floor(Math.random() * 1000)] for a draw [u]: the product is the
    binary64 one, the exact product of the draw and 1000 (of significand
    1000 and exponent 0) rounded. *)
Definition jitterOf (u : RandomNumber) : Z :=
  let '(n, e) := roundTiesToEven (significand u * 1000) (exponent u) in
  floorOf n e.

(** [errorMessage.includes('500') || errorMessage.includes('503') ||
    errorMessage.includes('429') || errorMessage.includes('Rpc failed')]: the
    four markers of a transient server-side error, tested by both loops. *)
Definition isTransient (errorMessage : string) : bool :=
  includes errorMessage "500" || includes errorMessage "503"
  || includes errorMessage "429" || includes errorMessage "Rpc failed".

Definition emptyResponseMessage : string :=
  "AI returned an empty or invalid response.".

Section Executor.

(** [generateContent i]: the outcome of the i-th call of
    [ai.models.generateContent(params)]; [Math_random k]: the k-th draw of
    [Math.random()]. *)
Variable generateContent : nat -> ApiResult.
Variable Math_random : nat -> RandomNumber.

(** The [try] block of generateContentWithRetry: the awaited call and the
    check of the response.  [inl] is the returned response, [inr] the caught
    error. *)
Definition tryGenerateContent (i : nat) : GenerateContentResponse + (string * string) :=
  match generateContent i with
  | Resolves None => inr ("Error", emptyResponseMessage)
  | Resolves (Some response) =>
      if noText (text response) then inr ("Error", emptyResponseMessage)
      else inl response
  | Throws name message => inr (name, message)
  end.

(** The [for] loop of generateContentWithRetry from index [i], with
    [remaining = retries - i] iterations left.  The i-th iteration makes the
    i-th call and, when it goes round again, the i-th draw of [Math.random],
    since every earlier iteration made one of each. *)
Fixpoint generateContentWithRetry_from (retries : nat) (remaining i : nat)
    (delay : Z) (lastError : JsValue)
    : list Event * completion GenerateContentResponse :=
  match remaining with
  | O => ([], Rejected lastError)
  | S remaining' =>
      match tryGenerateContent i with
      | inl response => ([Call i], Fulfilled response)
      | inr (name, message) =>
          let lastError := ErrorObj name message in
          let errorMessage := toString name message in
          let isRetryable := isTransient errorMessage in
          if isRetryable && (i <? retries - 1)%nat then
            let jitter := jitterOf (Math_random i) in
            let nextDelay := (delay + jitter)%Z in
            let '(events, result) :=
              generateContentWithRetry_from retries remaining' (S i)
                (delay * 2)%Z lastError in
            (Call i :: SetTimeout nextDelay :: events, result)
          else ([Call i], Rejected lastError)
      end
  end.

Definition generateContentWithRetry (retries : nat) (delay : Z)
    : list Event * completion GenerateContentResponse :=
  generateContentWithRetry_from retries retries 0 delay Undefined.

End Executor.

(** The default values of [retries] and [delay], which every caller uses. *)
Definition default_retries : nat := 5.
Definition default_delay : Z := 3000.

(** ** User-facing error messages *)

Definition genericErrorMessage : string :=
  "從 AI 伺服器獲取資料時發生錯誤。請稍後再試。".
Definition serverErrorMessage : string :=
  "AI 伺服器目前無法連線或發生內部錯誤，請稍後再試。".
Definition badRequestMessage : string :=
  "向 AI 伺服器發送的請求格式有誤 (錯誤 400)，這可能是由於輸入內容包含不安全或不支援的字詞。".
Definition rateLimitMessage : string :=
  "您的請求頻率過高，請稍後再試。".
Definition apiKeyMessage : string :=
  "API 金鑰無效或未設置，請檢查您的環境設定。".

(** [handleApiError(error, context)] for an error object; the context only
    goes to the console. *)
Definition handleApiError (name message : string) : JsValue :=
  let errorMessage := toString name message in
  newError
    (if includes errorMessage "500" || includes errorMessage "503"
        || includes errorMessage "Rpc failed" then serverErrorMessage
     else if includes errorMessage "400" then badRequestMessage
     else if includes errorMessage "429" then rateLimitMessage
     else if includes errorMessage "API key not valid"
             || includes errorMessage "API_KEY" then apiKeyMessage
     else genericErrorMessage).

(** Reading a property of [undefined] raises a [TypeError]; none of the
    classifications below depends on its wording beyond the absence of the
    markers. *)
Definition typeErrorOfUndefined (property : string) : string * string :=
  ("TypeError", "Cannot read properties of undefined (reading '" ++ property ++ "')").

(** [throw handleApiError(lastError, ...)]: the value that ends up thrown. *)
Definition throwHandled (lastError : JsValue) : JsValue :=
  match lastError with
  | ErrorObj name message => handleApiError name message
  | Undefined =>
      let '(name, message) := typeErrorOfUndefined "toString" in
      ErrorObj name message
  end.

Definition socraticEmptyMessage : string := "AI 回應無效，未包含任何文字。".

Section Socratic.

(** [sendMessage i]: the outcome of the i-th run of [ai.chats.create] and
    [chat.sendMessage]. *)
Variable sendMessage : nat -> ApiResult.
Variable Math_random : nat -> RandomNumber.

(** The [try] block of getSocraticResponse. *)
Definition trySendMessage (i : nat) : string + (string * string) :=
  match sendMessage i with
  | Resolves None => inr (typeErrorOfUndefined "text")
  | Resolves (Some result) =>
      match text result with
      | Some responseText =>
          if noText (Some responseText) then inr ("Error", socraticEmptyMessage)
          else inl responseText
      | None => inr ("Error", socraticEmptyMessage)
      end
  | Throws name message => inr (name, message)
  end.

(** The [for] loop of getSocraticResponse from index [i], with
    [remaining = retries - i]. *)
Fixpoint getSocraticResponse_from (retries : nat) (remaining i : nat)
    (delay : Z) (lastError : JsValue) : list Event * completion string :=
  match remaining with
  | O => ([], Rejected (throwHandled lastError))
  | S remaining' =>
      match trySendMessage i with
      | inl responseText => ([Call i], Fulfilled responseText)
      | inr (name, message) =>
          let lastError := ErrorObj name message in
          let errorMessage := toString name message in
          let isRetryable :=
            isTransient errorMessage || includes errorMessage "AI 回應無效" in
          if isRetryable && (i <? retries - 1)%nat then
            let jitter := jitterOf (Math_random i) in
            let nextDelay := (delay + jitter)%Z in
            let '(events, result) :=
              getSocraticResponse_from retries remaining' (S i)
                (delay * 2)%Z lastError in
            (Call i :: SetTimeout nextDelay :: events, result)
          else ([Call i], Rejected (throwHandled lastError))
      end
  end.

(** getSocraticResponse: [retries = 5], [delay = 3000]. *)
Definition getSocraticResponse : list Event * completion string :=
  getSocraticResponse_from 5 5 0 3000 Undefined.

End Socratic.

(** The calls and the waits of a run. *)
Definition calls (events : list Event) : list nat :=
  flat_map (fun e => match e with Call i => [i] | SetTimeout _ => [] end) events.

Definition waits (events : list Event) : list Z :=
  flat_map (fun e => match e with Call _ => [] | SetTimeout ms => [ms] end) events.

(** The wait that follows the k-th attempt of a run, attempts being counted
    from 1; 0 for a run that has no such wait. *)
Definition waitAfter (k : nat) (events : list Event) : Z :=
  nth (k - 1) (waits events) 0%Z.

(** The mean, over a sample of runs, of the wait that follows the k-th
    attempt. *)
Definition meanWaitAfter (k : nat) (runs : list (list Event)) : Q :=
  inject_Z (fold_right Z.add 0%Z (map (waitAfter k) runs))
  / inject_Z (Z.of_nat (length runs)).

(** ** The PDF export *)

(** [a > b] on numbers. *)
Definition Qgtb (a b : Q) : bool := negb (Qle_bool a b).

(** The bitmap html2canvas returns, by its pixel size; it also stands for the
    PNG data URL made from it. *)
Record Canvas : Type := { width : Z; height : Z }.

(** One awaited call of html2canvas: a canvas, or a rejection. *)
Inductive Html2canvasResult : Type :=
| Rendered (canvas : Canvas)
| RenderFails (e : JsValue).

(** What exportToPdf leaves behind: the file written by [pdf.save], or the
    alert of the [catch] clause. *)
Inductive ExportOutcome (Pdf : Type) : Type :=
| Saved (filename : string) (pdf : Pdf)
| Alerted (message : string).
Arguments Saved {Pdf} filename pdf.
Arguments Alerted {Pdf} message.

Definition exportFailedMessage : string := "無法導出為 PDF。請稍後再試。".

(** services/exportService.ts *)
Module ExportService.

(** [pdf.addImage(imgData, 'PNG', x, y, w, h)] on page [page]. *)
Record AddedImage : Type :=
  { imgData : Canvas; page : nat; x : Q; y : Q; w : Q; h : Q }.

(** The jsPDF document: its number of pages (the last one is the current
    page) and the images added, in order. *)
Record Pdf : Type := { numberOfPages : nat; images : list AddedImage }.

Section Paginator.

(** [pdf.internal.pageSize.getWidth()] and [getHeight()] of the A4 portrait
    document, in millimetres, as jsPDF reports them. *)
Variable pdfWidth pdfHeight : Q.

Definition margin : Q := 15.
Definition usableWidthMM : Q := pdfWidth - (margin * 2).
Definition usableHeightMM : Q := pdfHeight - (margin * 2).

(** [(canvas.height / canvas.width) * usableWidthMM]. *)
Definition elementHeightMM (canvas : Canvas) : Q :=
  (inject_Z (height canvas) / inject_Z (width canvas)) * usableWidthMM.

(** The [for (const block of contentBlocks)] loop, from a document whose
    current page is [page] and from the cursor [currentY].  A block is given
    by what html2canvas answers for it.  The result is the document built and
    the exception that left the loop, if any. *)
Fixpoint renderBlocks (contentBlocks : list Html2canvasResult) (page : nat)
    (currentY : Q) : Pdf * option JsValue :=
  match contentBlocks with
  | [] => ({| numberOfPages := page; images := [] |}, None)
  | RenderFails e :: _ => ({| numberOfPages := page; images := [] |}, Some e)
  | Rendered canvas :: rest =>
      let elementHeightMM := elementHeightMM canvas in
      let '(page, currentY) :=
        if Qgtb currentY margin
           && Qgtb (currentY + elementHeightMM) (usableHeightMM + margin)
        then (S page, margin)            (* pdf.addPage(); currentY = margin *)
        else (page, currentY) in
      let image :=
        {| imgData := canvas; page := page; x := margin; y := currentY;
           w := usableWidthMM; h := elementHeightMM |} in
      let '(pdf, thrown) :=
        renderBlocks rest page (currentY + elementHeightMM + 2) in
      ({| numberOfPages := numberOfPages pdf; images := image :: images pdf |},
       thrown)
  end.

(** [if (contentBlocks.length === 0) contentBlocks.push(sourceContainer)]. *)
Definition contentBlocksOf (found : list Html2canvasResult)
    (whole : Html2canvasResult) : list Html2canvasResult :=
  match found with
  | [] => [whole]
  | _ :: _ => found
  end.

(** exportToPdf: [found] are the blocks selected by [querySelectorAll],
    [whole] is the source container, rendered when nothing was selected. *)
Definition exportToPdf (found : list Html2canvasResult)
    (whole : Html2canvasResult) (filename : string) : ExportOutcome Pdf :=
  let contentBlocks := contentBlocksOf found whole in
  match renderBlocks contentBlocks 1 margin with
  | (pdf, None) => Saved (filename ++ ".pdf") pdf
  | (_, Some _) => Alerted exportFailedMessage
  end.

End Paginator.

End ExportService.

(** The later revision of the export service, which draws [<hr>] separators
    as lines ([pdf.setDrawColor] is left out: it places nothing). *)
Module ExportServiceHr.

(** A selected element: an [<hr>], or anything else with what html2canvas
    answers for it. *)
Inductive Block : Type :=
| Hr
| Element (rendered : Html2canvasResult).

(** What is drawn on a page: [pdf.addImage(imgData, 'PNG', x, y, w, h)] or
    [pdf.line(x1, y1, x2, y2)]. *)
Inductive Drawn : Type :=
| Image (imgData : Canvas) (x y w h : Q)
| Line (x1 y1 x2 y2 : Q).

(** The jsPDF document: its number of pages and what was drawn, each with the
    page it went to, in order. *)
Record Pdf : Type := { numberOfPages : nat; drawn : list (nat * Drawn) }.

Section Paginator.

Variable pdfWidth pdfHeight : Q.

Definition margin : Q := 15.
Definition usableWidthMM : Q := pdfWidth - (margin * 2).
Definition usableHeightMM : Q := pdfHeight - (margin * 2).

Definition elementHeightMM (canvas : Canvas) : Q :=
  (inject_Z (height canvas) / inject_Z (width canvas)) * usableWidthMM.

Fixpoint renderBlocks (contentBlocks : list Block) (page : nat) (currentY : Q)
    : Pdf * option JsValue :=
  match contentBlocks with
  | [] => ({| numberOfPages := page; drawn := [] |}, None)
  | Hr :: rest =>
      let '(page, currentY) :=
        if Qgtb (currentY + 10) (usableHeightMM + margin)
        then (S page, margin)
        else (page, currentY) in
      let line := Line margin currentY (pdfWidth - margin) currentY in
      let '(pdf, thrown) := renderBlocks rest page (currentY + 6) in
      ({| numberOfPages := numberOfPages pdf; drawn := (page, line) :: drawn pdf |},
       thrown)
  | Element (RenderFails e) :: _ =>
      ({| numberOfPages := page; drawn := [] |}, Some e)
  | Element (Rendered canvas) :: rest =>
      let elementHeightMM := elementHeightMM canvas in
      let '(page, currentY) :=
        if Qgtb currentY margin
           && Qgtb (currentY + elementHeightMM) (usableHeightMM + margin)
        then (S page, margin)
        else (page, currentY) in
      let image := Image canvas margin currentY usableWidthMM elementHeightMM in
      let '(pdf, thrown) :=
        renderBlocks rest page (currentY + elementHeightMM + 2) in
      ({| numberOfPages := numberOfPages pdf; drawn := (page, image) :: drawn pdf |},
       thrown)
  end.

(** [if (contentBlocks.length === 0) { ...; contentBlocks.push(wrapper) }]. *)
Definition contentBlocksOf (found : list Block) (wrapper : Html2canvasResult)
    : list Block :=
  match found with
  | [] => [Element wrapper]
  | _ :: _ => found
  end.

(** exportToPdf: when nothing is selected, a wrapper [div] around the whole
    content is the only block. *)
Definition exportToPdf (found : list Block) (wrapper : Html2canvasResult)
    (filename : string) : ExportOutcome Pdf :=
  let contentBlocks := contentBlocksOf found wrapper in
  match renderBlocks contentBlocks 1 margin with
  | (pdf, None) => Saved (filename ++ ".pdf") pdf
  | (_, Some _) => Alerted exportFailedMessage
  end.

End Paginator.

End ExportServiceHr.

(** ** JSON.parse

    The platform's [JSON.parse], after ECMA-404.  A number keeps the exact
    value of its literal, [mantissa * 10 ^ exponent], where JavaScript rounds
    it to a double (and keeps the sign of a zero); an object is the list of
    its members in the order of their first occurrence, a repeated key taking
    its last value.  Characters are named by their codes: 34 is the double
    quote, 92 the backslash, 123 and 125 the braces, 91 and 93 the brackets,
    44 the comma, 58 the colon, 45 the minus sign, 46 the point. *)

#[warnings="-register-all"]
Inductive json : Type :=
| JNull
| JBool (b : bool)
| JNumber (mantissa exponent : Z)
| JString (s : string)
| JArray (elements : list json)
| JObject (members : list (string * json)).

(** The outcome of a parsing function: a value with the input left, a syntax
    error, or a recursion budget that ran out. *)
Inductive parsed (A : Type) : Type :=
| Ok (a : A) (rest : string)
| SyntaxError
| OutOfFuel.
Arguments Ok {A} a rest.
Arguments SyntaxError {A}.
Arguments OutOfFuel {A}.

Definition code (c : ascii) : N := N_of_ascii c.

Definition isJsonWs (c : ascii) : bool :=
  match code c with
  | 32%N | 9%N | 10%N | 13%N => true
  | _ => false
  end.

Fixpoint skipWs (s : string) : string :=
  match s with
  | String c s' => if isJsonWs c then skipWs s' else s
  | EmptyString => EmptyString
  end.

Definition isDigit (c : ascii) : bool := ((48 <=? code c) && (code c <=? 57))%N.

(** The longest run of digits at the start of [s], read on top of [acc]:
    the number read, how many digits it had, and the input left. *)
Fixpoint takeDigits (s : string) (acc : Z) (count : nat) : Z * nat * string :=
  match s with
  | String c s' =>
      if isDigit c
      then takeDigits s' (acc * 10 + Z.of_N (code c - 48))%Z (S count)
      else (acc, count, s)
  | EmptyString => (acc, count, s)
  end.

(** The integer part: a single zero, or a run of digits. *)
Definition parseInt (s : string) : parsed Z :=
  match s with
  | String c s' =>
      if (code c =? 48)%N then Ok 0%Z s'
      else match takeDigits s 0%Z 0 with
           | (_, O, _) => SyntaxError
           | (n, _, rest) => Ok n rest
           end
  | EmptyString => SyntaxError
  end.

(** The optional fraction: the digits are appended to the mantissa. *)
Definition parseFrac (mantissa : Z) (s : string) : parsed (Z * nat) :=
  match s with
  | String c s' =>
      if (code c =? 46)%N then
        match takeDigits s' mantissa 0 with
        | (_, O, _) => SyntaxError
        | (m, count, rest) => Ok (m, count) rest
        end
      else Ok (mantissa, O) s
  | EmptyString => Ok (mantissa, O) s
  end.

(** The optional exponent. *)
Definition parseExp (s : string) : parsed Z :=
  match s with
  | String c s' =>
      if ((code c =? 101) || (code c =? 69))%N then
        let '(negative, s'') :=
          match s' with
          | String d t =>
              if (code d =? 45)%N then (true, t)
              else if (code d =? 43)%N then (false, t)
              else (false, s')
          | EmptyString => (false, s')
          end in
        match takeDigits s'' 0%Z 0 with
        | (_, O, _) => SyntaxError
        | (e, _, rest) => Ok (if negative then (- e)%Z else e) rest
        end
      else Ok 0%Z s
  | EmptyString => Ok 0%Z s
  end.

Definition parseNumber (s : string) : parsed json :=
  let '(negative, s1) :=
    match s with
    | String c s' => if (code c =? 45)%N then (true, s') else (false, s)
    | EmptyString => (false, s)
    end in
  match parseInt s1 with
  | Ok n s2 =>
      match parseFrac n s2 with
      | Ok (m, count) s3 =>
          match parseExp s3 with
          | Ok e s4 =>
              Ok (JNumber (if negative then (- m)%Z else m) (e - Z.of_nat count)) s4
          | SyntaxError => SyntaxError
          | OutOfFuel => OutOfFuel
          end
      | SyntaxError => SyntaxError
      | OutOfFuel => OutOfFuel
      end
  | SyntaxError => SyntaxError
  | OutOfFuel => OutOfFuel
  end.

Definition byte (n : N) : ascii := ascii_of_N n.

(** The UTF-8 bytes of a code point; a surrogate left alone is written like
    any other three-byte code point. *)
Definition utf8 (cp : N) : string :=
  (if cp <? 128 then String (byte cp) EmptyString
   else if cp <? 2048 then
     String (byte (192 + cp / 64)) (String (byte (128 + cp mod 64)) EmptyString)
   else if cp <? 65536 then
     String (byte (224 + cp / 4096))
       (String (byte (128 + (cp / 64) mod 64))
          (String (byte (128 + cp mod 64)) EmptyString))
   else
     String (byte (240 + cp / 262144))
       (String (byte (128 + (cp / 4096) mod 64))
          (String (byte (128 + (cp / 64) mod 64))
             (String (byte (128 + cp mod 64)) EmptyString))))%N.

Definition hexValue (c : ascii) : option N :=
  let n := code c in
  (if (48 <=? n) && (n <=? 57) then Some (n - 48)
   else if (97 <=? n) && (n <=? 102) then Some (n - 87)
   else if (65 <=? n) && (n <=? 70) then Some (n - 55)
   else None)%N.

Definition hex4 (a b c d : ascii) : option N :=
  match hexValue a, hexValue b, hexValue c, hexValue d with
  | Some x, Some y, Some z, Some t => Some (((x * 16 + y) * 16 + z) * 16 + t)%N
  | _, _, _, _ => None
  end.

Definition isHighSurrogate (cu : N) : bool := ((55296 <=? cu) && (cu <=? 56319))%N.
Definition isLowSurrogate (cu : N) : bool := ((56320 <=? cu) && (cu <=? 57343))%N.

(** The bytes owed for a high surrogate that found no low surrogate. *)
Definition flush (pending : option N) : string :=
  match pending with
  | Some high => utf8 high
  | None => EmptyString
  end.

(** The code unit of an escape [\uXXXX], after a possible pending high
    surrogate: the bytes to write and the new pending surrogate. *)
Definition unicodeEscape (pending : option N) (cu : N) : string * option N :=
  match pending with
  | Some high =>
      if isLowSurrogate cu
      then (utf8 (65536 + (high - 55296) * 1024 + (cu - 56320))%N, None)
      else if isHighSurrogate cu then (utf8 high, Some cu)
      else (utf8 high ++ utf8 cu, None)
  | None =>
      if isHighSurrogate cu then (EmptyString, Some cu) else (utf8 cu, None)
  end.

(** A single-character escape. *)
Definition simpleEscape (c : ascii) : option ascii :=
  match code c with
  | 34%N => Some (byte 34)
  | 92%N => Some (byte 92)
  | 47%N => Some (byte 47)
  | 98%N => Some (byte 8)
  | 102%N => Some (byte 12)
  | 110%N => Some (byte 10)
  | 114%N => Some (byte 13)
  | 116%N => Some (byte 9)
  | _ => None
  end.

Definition prepend (prefix : string) (r : parsed string) : parsed string :=
  match r with
  | Ok str rest => Ok (prefix ++ str) rest
  | SyntaxError => SyntaxError
  | OutOfFuel => OutOfFuel
  end.

(** The characters of a string after its opening quote, up to and including
    the closing quote. *)
Fixpoint parseChars (s : string) (pending : option N) : parsed string :=
  match s with
  | EmptyString => SyntaxError
  | String c s1 =>
      if (code c =? 34)%N then Ok (flush pending) s1
      else if (code c =? 92)%N then
        match s1 with
        | String e s2 =>
            if (code e =? 117)%N then
              match s2 with
              | String h1 (String h2 (String h3 (String h4 s6))) =>
                  match hex4 h1 h2 h3 h4 with
                  | Some cu =>
                      let '(bytes, pending') := unicodeEscape pending cu in
                      prepend bytes (parseChars s6 pending')
                  | None => SyntaxError
                  end
              | _ => SyntaxError
              end
            else
              match simpleEscape e with
              | Some b =>
                  prepend (flush pending ++ String b EmptyString) (parseChars s2 None)
              | None => SyntaxError
              end
        | EmptyString => SyntaxError
        end
      else if (code c <? 32)%N then SyntaxError
      else prepend (flush pending ++ String c EmptyString) (parseChars s1 None)
  end.

(** [s] without the literal [lit] at its start. *)
Fixpoint dropPrefix (lit s : string) : option string :=
  match lit, s with
  | EmptyString, _ => Some s
  | String c lit', String d s' => if Ascii.eqb c d then dropPrefix lit' s' else None
  | String _ _, EmptyString => None
  end.

Definition parseLiteral (lit : string) (v : json) (s : string) : parsed json :=
  match dropPrefix lit s with
  | Some rest => Ok v rest
  | None => SyntaxError
  end.

(** The member [key] set to [v]: in place when the key is there already. *)
Fixpoint setMember (members : list (string * json)) (key : string) (v : json)
    : list (string * json) :=
  match members with
  | [] => [(key, v)]
  | (k, old) :: members' =>
      if String.eqb k key then (k, v) :: members'
      else (k, old) :: setMember members' key v
  end.

(** A value, the elements of an array after its opening bracket and the
    members of an object after its opening brace.  [fuel] bounds the depth of
    the recursion. *)
Fixpoint parseValue (fuel : nat) (s : string) : parsed json :=
  match fuel with
  | O => OutOfFuel
  | S fuel' =>
      match skipWs s with
      | EmptyString => SyntaxError
      | String c rest =>
          if (code c =? 123)%N then
            match skipWs rest with
            | String c' rest' =>
                if (code c' =? 125)%N then Ok (JObject []) rest'
                else parseMembers fuel' (String c' rest') []
            | EmptyString => SyntaxError
            end
          else if (code c =? 91)%N then
            match skipWs rest with
            | String c' rest' =>
                if (code c' =? 93)%N then Ok (JArray []) rest'
                else parseElements fuel' (String c' rest') []
            | EmptyString => SyntaxError
            end
          else if (code c =? 34)%N then
            match parseChars rest None with
            | Ok str rest' => Ok (JString str) rest'
            | SyntaxError => SyntaxError
            | OutOfFuel => OutOfFuel
            end
          else if (code c =? 116)%N then parseLiteral "true" (JBool true) (String c rest)
          else if (code c =? 102)%N then parseLiteral "false" (JBool false) (String c rest)
          else if (code c =? 110)%N then parseLiteral "null" JNull (String c rest)
          else if (code c =? 45)%N || isDigit c then parseNumber (String c rest)
          else SyntaxError
      end
  end

with parseElements (fuel : nat) (s : string) (acc : list json) : parsed json :=
  match fuel with
  | O => OutOfFuel
  | S fuel' =>
      match parseValue fuel' s with
      | Ok v rest =>
          match skipWs rest with
          | String c rest' =>
              if (code c =? 44)%N then parseElements fuel' rest' (acc ++ [v])
              else if (code c =? 93)%N then Ok (JArray (acc ++ [v])) rest'
              else SyntaxError
          | EmptyString => SyntaxError
          end
      | SyntaxError => SyntaxError
      | OutOfFuel => OutOfFuel
      end
  end

with parseMembers (fuel : nat) (s : string) (acc : list (string * json))
    : parsed json :=
  match fuel with
  | O => OutOfFuel
  | S fuel' =>
      match skipWs s with
      | String q s1 =>
          if (code q =? 34)%N then
            match parseChars s1 None with
            | Ok key s2 =>
                match skipWs s2 with
                | String colon s3 =>
                    if (code colon =? 58)%N then
                      match parseValue fuel' s3 with
                      | Ok v s4 =>
                          match skipWs s4 with
                          | String c s5 =>
                              if (code c =? 44)%N
                              then parseMembers fuel' s5 (setMember acc key v)
                              else if (code c =? 125)%N
                              then Ok (JObject (setMember acc key v)) s5
                              else SyntaxError
                          | EmptyString => SyntaxError
                          end
                      | SyntaxError => SyntaxError
                      | OutOfFuel => OutOfFuel
                      end
                    else SyntaxError
                | EmptyString => SyntaxError
                end
            | SyntaxError => SyntaxError
            | OutOfFuel => OutOfFuel
            end
          else SyntaxError
      | EmptyString => SyntaxError
      end
  end.

(** The budget given to a text: two steps for each of its characters, and
    one. *)
Definition fuelFor (text : string) : nat := 2 * String.length text + 1.

(** [JSON.parse(text)]: one value, with nothing but white space after it. *)
Definition JSON_parse (text : string) : parsed json :=
  match parseValue (fuelFor text) text with
  | Ok v rest =>
      match skipWs rest with
      | EmptyString => Ok v EmptyString
      | String _ _ => SyntaxError
      end
  | SyntaxError => SyntaxError
  | OutOfFuel => OutOfFuel
  end.

(** ** The structured-response parser *)

(** White space and line terminators of one byte. *)
Definition isWs1 (c : ascii) : bool :=
  match code c with
  | 9%N | 10%N | 11%N | 12%N | 13%N | 32%N => true
  | _ => false
  end.

(** U+00A0, in UTF-8. *)
Definition isWs2 (c1 c2 : ascii) : bool := ((code c1 =? 194) && (code c2 =? 160))%N.

(** U+1680, U+2000 to U+200A, U+2028, U+2029, U+202F, U+205F, U+3000 and
    U+FEFF, in UTF-8. *)
Definition isWs3 (c1 c2 c3 : ascii) : bool :=
  let '(a, b, c) := (code c1, code c2, code c3) in
  ((a =? 225) && (b =? 154) && (c =? 128)
   || (a =? 226) && (b =? 128)
      && ((128 <=? c) && (c <=? 138) || (c =? 168) || (c =? 169) || (c =? 175))
   || (a =? 226) && (b =? 129) && (c =? 159)
   || (a =? 227) && (b =? 128) && (c =? 128)
   || (a =? 239) && (b =? 187) && (c =? 191))%N.

(** The text without the white space at its start; with [backwards], the
    text is read from its end and so are the bytes of a code point. *)
Fixpoint stripWs (backwards : bool) (s : string) : string :=
  match s with
  | EmptyString => EmptyString
  | String c1 s1 =>
      if isWs1 c1 then stripWs backwards s1
      else
        match s1 with
        | EmptyString => s
        | String c2 s2 =>
            if (if backwards then isWs2 c2 c1 else isWs2 c1 c2)
            then stripWs backwards s2
            else
              match s2 with
              | EmptyString => s
              | String c3 s3 =>
                  if (if backwards then isWs3 c3 c2 c1 else isWs3 c1 c2 c3)
                  then stripWs backwards s3
                  else s
              end
        end
  end.

Fixpoint reverse (s acc : string) : string :=
  match s with
  | EmptyString => acc
  | String c s' => reverse s' (String c acc)
  end.

(** [text.trim()]. *)
Definition trim (text : string) : string :=
  reverse (stripWs true (reverse (stripWs false text) EmptyString)) EmptyString.

Definition LF : string := String (byte 10) EmptyString.

(** [s.replace(/^```json\n?/, '')]: the fence with its language tag at the
    start of the text, and one line feed after it when there is one. *)
Definition replaceLeadingFence (s : string) : string :=
  match dropPrefix "```json" s with
  | Some rest =>
      match dropPrefix LF rest with
      | Some rest' => rest'
      | None => rest
      end
  | None => s
  end.

(** [s.replace(/```$/, '')]: the only place where three backquotes are
    followed by the end of the text is its last three characters. *)
Fixpoint replaceTrailingFence (s : string) : string :=
  match s with
  | EmptyString => EmptyString
  | String c s' =>
      if String.eqb s "```" then EmptyString
      else String c (replaceTrailingFence s')
  end.

Definition cleanText (text : string) : string :=
  replaceTrailingFence (replaceLeadingFence (trim text)).

Definition malformedMessage : string := "AI 返回的資料格式不正確，無法解析。".

(** parseJsonFromResponse: the decoded value, or the error of the [catch]
    clause.  [None] is kept for a budget of [JSON_parse] that ran out, which
    [parseJsonFromResponse_total] shows does not happen. *)
Definition parseJsonFromResponse (text : string) : option (completion json) :=
  let cleanedText := cleanText text in
  match JSON_parse cleanedText with
  | Ok v _ => Some (Fulfilled v)
  | SyntaxError => Some (Rejected (newError malformedMessage))
  | OutOfFuel => None
  end.

(** ** What the properties are stated with *)

Local Open Scope list_scope.

(** The rounds [i], ..., [m - 1] of a backoff that starts from the delay
    [initialDelay]: round [j] makes the call [j] and then waits
    [initialDelay * 2 ^ j] plus the jitter of the j-th draw. *)
Definition backoff (initialDelay : Z) (Math_random : nat -> RandomNumber) (i m : nat)
    : list Event :=
  flat_map
    (fun j => [Call j;
               SetTimeout (initialDelay * 2 ^ Z.of_nat j + jitterOf (Math_random j))])
    (seq i (m - i)).

(** The round that follows the k-th attempt of the run [events], attempts
    being counted from 1, in a backoff that starts from [initialDelay], on
    the draw [u] of [Math.random]: after the calls 0, ..., k - 1 the run waits
    [initialDelay * 2 ^ (k - 1)] plus a jitter and then makes the call k; the
    jitter is [Math.floor(u * 1000)], an integer from 0 to 999, and it is
    [j] on the draws from [j / 1000] to [(j + 1) / 1000], up to the rounding
    of the product at the two ends, which is below [2 ^ -44]. *)
Definition waitsWithJitter (initialDelay : Z) (u : RandomNumber) (k : nat)
    (events : list Event) : Prop :=
  exists jitter : Z,
    (exists pre post,
       events = pre ++ Call (k - 1)
                    :: SetTimeout (initialDelay * 2 ^ Z.of_nat (k - 1) + jitter)
                    :: Call k :: post
       /\ calls pre = seq 0 (k - 1))
    /\ waitAfter k events = (initialDelay * 2 ^ Z.of_nat (k - 1) + jitter)%Z
    /\ jitter = jitterOf u
    /\ (0 <= jitter < 1000)%Z
    /\ (forall j : Z,
          inject_Z j <= valueOf u * 1000 ->
          valueOf u * 1000 < inject_Z j + 1 - (1 # 17592186044416) ->
          jitter = j)
    /\ inject_Z jitter - (1 # 17592186044416) <= valueOf u * 1000
    /\ valueOf u * 1000 < inject_Z jitter + 1.

(** The classification of getSocraticResponse. *)
Definition isRetryableSocratic (errorMessage : string) : bool :=
  isTransient errorMessage || includes errorMessage "AI 回應無效".

(** Attempt [j] ends in the [catch] clause with an error that the loop
    classifies as retryable. *)
Definition retryableAt {A : Type} (attempt : nat -> A + (string * string))
    (classify : string -> bool) (j : nat) : Prop :=
  exists name message,
    attempt j = inr (name, message) /\ classify (toString name message) = true.

(** How a run of either loop ends: at the call [m], after [m] rounds of
    backoff, every earlier attempt having failed with a retryable error, and
    [m] being the last attempt allowed or one that did not. *)
Definition stopsAt {A : Type} (attempt : nat -> A + (string * string))
    (classify : string -> bool) (retries : nat) (initialDelay : Z)
    (Math_random : nat -> RandomNumber) (i : nat) (events : list Event) (m : nat) : Prop :=
  (i <= m < retries)%nat
  /\ events = backoff initialDelay Math_random i m ++ [Call m]
  /\ (forall j, (i <= j < m)%nat -> retryableAt attempt classify j)
  /\ (m = (retries - 1)%nat \/ ~ retryableAt attempt classify m).

(** What generateContentWithRetry answers when its run stops at call [m]. *)
Definition settledAt (generateContent : nat -> ApiResult) (m : nat) : completion GenerateContentResponse :=
  match tryGenerateContent generateContent m with
  | inl response => Fulfilled response
  | inr (name, message) => Rejected (ErrorObj name message)
  end.

(** What getSocraticResponse answers when its run stops at call [m]. *)
Definition settledSocratic (sendMessage : nat -> ApiResult) (m : nat)
    : completion string :=
  match trySendMessage sendMessage m with
  | inl responseText => Fulfilled responseText
  | inr (name, message) => Rejected (throwHandled (ErrorObj name message))
  end.

(** A generation API that always answers with a response without text. *)
Definition emptyResponses (_ : nat) : ApiResult :=
  Resolves (Some {| text := None |}).

(** A generation API that is overloaded on every call. *)
Definition alwaysOverloaded (_ : nat) : ApiResult :=
  Throws "ApiError" "got status: 503 Service Unavailable. The model is overloaded.".

(** A generation API that rejects the request. *)
Definition alwaysBadRequest (_ : nat) : ApiResult :=
  Throws "ApiError" "got status: 400 Bad Request.".

(** A generation API that is overloaded once and then resolves without a
    response. *)
Definition overloadedThenMissing (i : nat) : ApiResult :=
  if (i <? 1)%nat then alwaysOverloaded i else Resolves None.

(** The draws 0.5, 0.25 and 0.75. *)
Definition oneHalf : RandomNumber :=
  {| significand := 1; exponent := -1; inUnitInterval := eq_refl |}.
Definition oneQuarter : RandomNumber :=
  {| significand := 1; exponent := -2; inUnitInterval := eq_refl |}.
Definition threeQuarters : RandomNumber :=
  {| significand := 3; exponent := -2; inUnitInterval := eq_refl |}.

(** The binary64 value nearest to 0.29, which is below 0.29. *)
Definition nearest029 : RandomNumber :=
  {| significand := 5224175567749775; exponent := -54; inUnitInterval := eq_refl |}.

Definition halfRandom (_ : nat) : RandomNumber := oneHalf.

(** [Math.random] drawing the value nearest to 0.29 every time. *)
Definition alwaysNearest029 (_ : nat) : RandomNumber := nearest029.

(** Two sequences of draws that hold the same draws in every pair of rounds,
    in opposite order. *)
Definition lowThenHigh (k : nat) : RandomNumber :=
  if Nat.even k then oneQuarter else threeQuarters.
Definition highThenLow (k : nat) : RandomNumber :=
  if Nat.even k then threeQuarters else oneQuarter.


(** A placement as the pagination rule sees it: the page it went to, its
    top, the height that had to fit and the amount the cursor moved on. *)
Record Placement : Type :=
  { onPage : nat; top : Q; reserved : Q; advance : Q }.

Section Rule.

(** The top margin and the lowest point a block may reach,
    [pageHeight - margin]. *)
Variable margin limit : Q.

(** [p] is placed after a cursor [cursor] on page [page0]: on that page at
    the cursor, the page being empty or the block fitting; or at the top of
    the next page, the block not fitting. *)
Definition follows (page0 : nat) (cursor : Q) (p : Placement) : Prop :=
  (onPage p = page0 /\ top p == cursor
   /\ (cursor <= margin \/ cursor + reserved p <= limit))
  \/ (onPage p = S page0 /\ top p == margin /\ limit < cursor + reserved p).

(** Each placement follows the one before it. *)
Fixpoint chain (page0 : nat) (cursor : Q) (ps : list Placement) : Prop :=
  match ps with
  | [] => True
  | p :: rest =>
      follows page0 cursor p /\ 0 <= reserved p /\ 0 < advance p
      /\ chain (onPage p) (top p + advance p) rest
  end.

End Rule.

(** A block that html2canvas renders, to a canvas of positive width. *)
Definition renders (block : Html2canvasResult) : Prop :=
  exists canvas,
    block = Rendered canvas /\ (0 < width canvas)%Z /\ (0 <= height canvas)%Z.

(** One image for one block: the whole canvas, at the left margin, scaled to
    the usable width. *)
Definition imageOf (pdfWidth : Q) (block : Html2canvasResult)
    (image : ExportService.AddedImage) : Prop :=
  block = Rendered (ExportService.imgData image)
  /\ ExportService.x image = ExportService.margin
  /\ ExportService.w image = ExportService.usableWidthMM pdfWidth
  /\ ExportService.h image
     = ExportService.elementHeightMM pdfWidth (ExportService.imgData image).

Definition placementOfImage (image : ExportService.AddedImage) : Placement :=
  {| onPage := ExportService.page image; top := ExportService.y image;
     reserved := ExportService.h image; advance := ExportService.h image + 2 |}.

(** The later revision checks an [<hr>] against 10 mm and moves on by 6. *)
Definition placementOfDrawn (d : nat * ExportServiceHr.Drawn) : Placement :=
  match d with
  | (page, ExportServiceHr.Image _ _ y _ h) =>
      {| onPage := page; top := y; reserved := h; advance := h + 2 |}
  | (page, ExportServiceHr.Line _ y _ _) =>
      {| onPage := page; top := y; reserved := 10; advance := 6 |}
  end.

Definition rendersBlock (block : ExportServiceHr.Block) : Prop :=
  match block with
  | ExportServiceHr.Hr => True
  | ExportServiceHr.Element rendered => renders rendered
  end.

(** No earlier placement of the list is on the page of the k-th one. *)
Definition firstOnPage (ps : list Placement) (k : nat) (p : Placement) : Prop :=
  forall j q, (j < k)%nat -> nth_error ps j = Some q -> onPage q <> onPage p.

(** Three canvases that scale to 100 mm on a width of 180 mm. *)
Definition canvas100 : Canvas := {| width := 1800; height := 1000 |}.

(** A canvas that scales to 300 mm on a width of 180 mm. *)
Definition canvas300 : Canvas := {| width := 1800; height := 3000 |}.

(** The invariant of the cursor at the k-th placement [p] of [ps]: the page
    is empty and [p] is at the top margin, or the page is not empty and [p]
    fits above [limit]; and after a placement [prev] the cursor is below the
    top margin, [p] going to the top of a new page when it would pass
    [limit] at the cursor, and to the cursor otherwise. *)
Definition cursorInvariant (margin limit : Q) (ps : list Placement) (k : nat)
    (p : Placement) : Prop :=
  ((firstOnPage ps k p /\ top p == margin)
   \/ (~ firstOnPage ps k p /\ margin < top p /\ top p + reserved p <= limit))
  /\ (forall prev, nth_error ps (k - 1) = Some prev -> (1 <= k)%nat ->
      margin < top prev + advance prev
      /\ (limit < top prev + advance prev + reserved p ->
          onPage p = S (onPage prev) /\ top p == margin)
      /\ (top prev + advance prev + reserved p <= limit ->
          onPage p = onPage prev /\ top p == top prev + advance prev)).

(** Some tail of [s] is [suffix]. *)
Fixpoint endsWith (s suffix : string) : bool :=
  if String.eqb s suffix then true
  else match s with
       | EmptyString => false
       | String _ s' => endsWith s' suffix
       end.

(** The double quote. *)
Definition DQ : string := String (byte 34) EmptyString.

(** The text of the object with the one member [a], of value 1. *)
Definition objectA1 : string := ("{" ++ DQ ++ "a" ++ DQ ++ ":1}")%string.

(** The same text between a fence tagged [json] and a bare fence. *)
Definition fencedJson : string := ("```json" ++ LF ++ objectA1 ++ LF ++ "```")%string.

(** The same text between two bare fences. *)
Definition fencedBare : string := ("```" ++ LF ++ objectA1 ++ LF ++ "```")%string.

(** A successful parse leaves less input than it was given. *)
Definition consumes {A : Type} (r : parsed A) (s : string) : Prop :=
  match r with
  | Ok _ rest => (String.length rest < String.length s)%nat
  | SyntaxError | OutOfFuel => True
  end.

(** A successful parse leaves no more input than it was given. *)
Definition keeps {A : Type} (r : parsed A) (s : string) : Prop :=
  match r with
  | Ok _ rest => (String.length rest <= String.length s)%nat
  | SyntaxError | OutOfFuel => True
  end.

(** ** More of the code: what the further properties are stated with *)

(** The time a run spends waiting, in milliseconds. *)
Definition totalWait (events : list Event) : Z := fold_right Z.add 0%Z (waits events).

(** The five errors handleApiError can return. *)
Definition userFacing (e : JsValue) : Prop :=
  e = newError serverErrorMessage
  \/ e = newError badRequestMessage
  \/ e = newError rateLimitMessage
  \/ e = newError apiKeyMessage
  \/ e = newError genericErrorMessage.

(** A response with the text of the object [objectA1]. *)
Definition responseA1 : GenerateContentResponse := {| text := Some objectA1 |}.

(** A generation API that is overloaded twice and then answers. *)
Definition overloadedTwice (i : nat) : ApiResult :=
  if (i <? 2)%nat then alwaysOverloaded i else Resolves (Some responseA1).

(** The body shared by generateTopicSummary and generatePracticeProblem,
    which differ by the prompt and the schema they send, both hidden in the
    oracle: the call through generateContentWithRetry with its default
    arguments, the decoding of [response.text], and the [catch] clause that
    throws [handleApiError(error, ...)].  A text that is [undefined] makes
    [text.trim()] raise a [TypeError], caught like any other error.  [None]
    is kept for a budget of [JSON_parse] that ran out. *)
Definition generateStructured (generateContent : nat -> ApiResult)
    (Math_random : nat -> RandomNumber) : list Event * option (completion json) :=
  let '(events, settled) :=
    generateContentWithRetry generateContent Math_random default_retries default_delay in
  match settled with
  | Fulfilled response =>
      match text response with
      | Some responseText =>
          match parseJsonFromResponse responseText with
          | Some (Fulfilled data) => (events, Some (Fulfilled data))
          | Some (Rejected error) => (events, Some (Rejected (throwHandled error)))
          | None => (events, None)
          end
      | None =>
          let '(name, message) := typeErrorOfUndefined "trim" in
          (events, Some (Rejected (handleApiError name message)))
      end
  | Rejected error => (events, Some (Rejected (throwHandled error)))
  end.

Definition generateTopicSummary := generateStructured.
Definition generatePracticeProblem := generateStructured.

(** analyzeDiagram, once the image part is read: the text of the response,
    or the handled error. *)
Definition analyzeDiagram (generateContent : nat -> ApiResult)
    (Math_random : nat -> RandomNumber) : list Event * completion (option string) :=
  let '(events, settled) :=
    generateContentWithRetry generateContent Math_random default_retries default_delay in
  match settled with
  | Fulfilled response => (events, Fulfilled (text response))
  | Rejected error => (events, Rejected (throwHandled error))
  end.

(** [s.replace(/^```html\n?/, '')]. *)
Definition replaceLeadingHtmlFence (s : string) : string :=
  match dropPrefix "```html" s with
  | Some rest =>
      match dropPrefix LF rest with
      | Some rest' => rest'
      | None => rest
      end
  | None => s
  end.

(** [responseText.trim().replace(/^```html\n?/, '').replace(/```$/, '')]. *)
Definition cleanedResponse (responseText : string) : string :=
  replaceTrailingFence (replaceLeadingHtmlFence (trim responseText)).

(** generateSimulationCode: the cleaned text of the response, or the handled
    error. *)
Definition generateSimulationCode (generateContent : nat -> ApiResult)
    (Math_random : nat -> RandomNumber) : list Event * completion string :=
  let '(events, settled) :=
    generateContentWithRetry generateContent Math_random default_retries default_delay in
  match settled with
  | Fulfilled response =>
      match text response with
      | Some responseText => (events, Fulfilled (cleanedResponse responseText))
      | None =>
          let '(name, message) := typeErrorOfUndefined "trim" in
          (events, Rejected (handleApiError name message))
      end
  | Rejected error => (events, Rejected (throwHandled error))
  end.

(** A generation API that answers with a text that is not JSON. *)
Definition answersProse (_ : nat) : ApiResult :=
  Resolves (Some {| text := Some "Momentum is conserved." |}).

(** [s.split(sep)] for a separator of one character. *)
Fixpoint split (sep : ascii) (s : string) : list string :=
  match s with
  | EmptyString => [EmptyString]
  | String c s' =>
      if Ascii.eqb c sep then EmptyString :: split sep s'
      else match split sep s' with
           | piece :: pieces => String c piece :: pieces
           | [] => [String c EmptyString]
           end
  end.

(** fileToGenerativePart: [(reader.result as string).split(',')[1]], the
    [data] of the inline part, [None] standing for [undefined]. *)
Definition inlineDataOf (readerResult : string) : option string :=
  nth_error (split ","%char readerResult) 1.

(** ** The practice problems (components/ProblemGenerator.tsx) *)

(** The two records of the component's state, indexed by the number of a
    problem: the option selected ([undefined] when none) and whether the
    solution is shown ([undefined] counting as [false]). *)
Record QuizState : Type :=
  { selectedOptions : nat -> option string; showSolutions : nat -> bool }.

(** [{ ...prev, [index]: value }]. *)
Definition setAt {A : Type} (prev : nat -> A) (index : nat) (value : A) : nat -> A :=
  fun j => if Nat.eqb j index then value else prev j.

(** The state after [setSelectedOptions({})] and [setShowSolutions({})]. *)
Definition emptyQuiz : QuizState :=
  {| selectedOptions := fun _ => None; showSolutions := fun _ => false |}.

Definition handleOptionSelect (problemIndex : nat) (option : string)
    (state : QuizState) : QuizState :=
  if showSolutions state problemIndex then state
  else {| selectedOptions := setAt (selectedOptions state) problemIndex (Some option);
          showSolutions := showSolutions state |}.

Definition handleShowSolution (problemIndex : nat) (state : QuizState) : QuizState :=
  {| selectedOptions := selectedOptions state;
     showSolutions := setAt (showSolutions state) problemIndex true |}.

(** [disabled={!selectedOptions[index] || showSolutions[index]}] of the
    button that shows the solution. *)
Definition solutionButtonDisabled (index : nat) (state : QuizState) : bool :=
  noText (selectedOptions state index) || showSolutions state index.

(** What the user does: a click on an option, a click on the button of a
    solution (without effect on a disabled button), and the generation of a
    new study pack, which handleGenerateStudyPack refuses for a blank topic
    and starts by emptying both records. *)
Inductive UserAction : Type :=
| ClickOption (index : nat) (key : string)
| ClickShowSolution (index : nat)
| GenerateStudyPack (topic : string).

Definition act (state : QuizState) (action : UserAction) : QuizState :=
  match action with
  | ClickOption index key => handleOptionSelect index key state
  | ClickShowSolution index =>
      if solutionButtonDisabled index state then state
      else handleShowSolution index state
  | GenerateStudyPack topic =>
      if noText (Some (trim topic)) then state else emptyQuiz
  end.

(** The state after a sequence of actions on a fresh component. *)
Definition play (actions : list UserAction) : QuizState :=
  fold_left act actions emptyQuiz.

(** An image of [canvas100] on a page 180 mm wide between its margins. *)
Definition image100 (page : nat) (y : Q) : ExportService.AddedImage :=
  {| ExportService.imgData := canvas100; ExportService.page := page;
     ExportService.x := 15; ExportService.y := y;
     ExportService.w := 180; ExportService.h := 180000 # 1800 |}.

(** The document of three such blocks on A4. *)
Definition pdf100x3 : ExportService.Pdf :=
  {| ExportService.numberOfPages := 2;
     ExportService.images :=
       [image100 1 15; image100 1 (15 + (180000 # 1800) + 2); image100 2 15] |}.

(** What the later revision draws for a block: for an [<hr>] a horizontal
    line from the left margin to the right margin, for another element the
    image of its canvas at the left margin, scaled to the usable width. *)
Definition drawnOf (pdfWidth : Q) (block : ExportServiceHr.Block)
    (d : nat * ExportServiceHr.Drawn) : Prop :=
  match block, snd d with
  | ExportServiceHr.Hr, ExportServiceHr.Line x1 y1 x2 y2 =>
      x1 = ExportServiceHr.margin /\ x2 = pdfWidth - ExportServiceHr.margin /\ y1 = y2
  | ExportServiceHr.Element rendered, ExportServiceHr.Image canvas x _ w h =>
      rendered = Rendered canvas
      /\ x = ExportServiceHr.margin
      /\ w = ExportServiceHr.usableWidthMM pdfWidth
      /\ h = ExportServiceHr.elementHeightMM pdfWidth canvas
  | _, _ => False
  end.

(** A selection of the later revision: a heading, a rule, a block. *)
Definition headingRuleBlock : list ExportServiceHr.Block :=
  [ExportServiceHr.Element (Rendered canvas100); ExportServiceHr.Hr;
   ExportServiceHr.Element (Rendered canvas100)].

(** A generation API that is overloaded twice and then answers with the
    fenced object. *)
Definition overloadedThenFenced (i : nat) : ApiResult :=
  if (i <? 2)%nat then alwaysOverloaded i
  else Resolves (Some {| text := Some fencedJson |}).

(** ** The earlier service (services/geminiService.ts) *)

(** The service that the components import.  Its handleApiError is the one
    above, test for test and message for message; its getSocraticResponse
    makes one call of [chat.sendMessage], without retry, and returns
    [result.text] as it is, [undefined] included; whatever the [try] block
    throws is replaced by the error of handleApiError. *)
Module GeminiService.

Definition getSocraticResponse (sendMessage : ApiResult) : completion (option string) :=
  match sendMessage with
  | Resolves (Some result) => Fulfilled (text result)
  | Resolves None =>
      let '(name, message) := typeErrorOfUndefined "text" in
      Rejected (handleApiError name message)
  | Throws name message => Rejected (handleApiError name message)
  end.

End GeminiService.

(** ** The conversation (components/SocraticTutor.tsx) *)

Module SocraticTutor.

Inductive Role : Type := user | model.

(** A message of the conversation; the text of a message of the model is
    what getSocraticResponse returned, which can be [undefined]. *)
Record ChatMessage : Type := { role : Role; text : option string }.

Definition initialMessage : ChatMessage :=
  {| role := model;
     text := Some "你好！我是蘇格拉底導師。有什麼物理問題我可以引導你思考的嗎？" |}.

Definition fallbackText : string := "抱歉，我現在無法回答。請稍後再試。".

(** The state of the component, and the number of calls of
    getSocraticResponse that have not settled yet. *)
Record State : Type :=
  { messages : list ChatMessage; input : string; isLoading : bool; inFlight : nat }.

Definition initialState : State :=
  {| messages := [initialMessage]; input := EmptyString; isLoading := false;
     inFlight := 0 |}.

(** handleSubmit up to its [await]: nothing for a blank input or while
    loading; otherwise the user's message is appended, the input emptied,
    the loading flag set, and getSocraticResponse called. *)
Definition handleSubmit (state : State) : State :=
  if noText (Some (trim (input state))) || isLoading state then state
  else
    let userMessage := {| role := user; text := Some (trim (input state)) |} in
    {| messages := messages state ++ [userMessage]; input := EmptyString;
       isLoading := true; inFlight := S (inFlight state) |}.

(** [(error as Error).message || fallback]; reading [message] of
    [undefined] raises, and then no message is appended. *)
Definition errorText (error : JsValue) : option string :=
  match error with
  | ErrorObj _ EmptyString => Some fallbackText
  | ErrorObj _ message => Some message
  | Undefined => None
  end.

(** handleSubmit after its [await]: the message of the model, with the text
    returned, or with the message of the error, is appended, and the loading
    flag is cleared in any case. *)
Definition settle (outcome : completion (option string)) (state : State) : State :=
  match inFlight state with
  | O => state
  | S others =>
      let appended :=
        match outcome with
        | Fulfilled responseText => [{| role := model; text := responseText |}]
        | Rejected error =>
            match errorText error with
            | Some message => [{| role := model; text := Some message |}]
            | None => []
            end
        end in
      {| messages := messages state ++ appended; input := input state;
         isLoading := false; inFlight := others |}
  end.

(** handleClearChat, once confirmed. *)
Definition handleClearChat (state : State) : State :=
  {| messages := [initialMessage]; input := input state; isLoading := false;
     inFlight := inFlight state |}.

(** What happens to the component: the user types, submits or clears the
    conversation, or the call of getSocraticResponse settles, on some answer
    of the API. *)
Inductive Action : Type :=
| SetInput (value : string)
| Submit
| Settle (sendMessage : ApiResult)
| ClearChat.

Definition act (state : State) (action : Action) : State :=
  match action with
  | SetInput value =>
      {| messages := messages state; input := value; isLoading := isLoading state;
         inFlight := inFlight state |}
  | Submit => handleSubmit state
  | Settle sendMessage => settle (GeminiService.getSocraticResponse sendMessage) state
  | ClearChat => handleClearChat state
  end.

(** The conversation is never cleared while a response is awaited. *)
Fixpoint calm (state : State) (actions : list Action) : Prop :=
  match actions with
  | [] => True
  | action :: rest =>
      (action = ClearChat -> isLoading state = false) /\ calm (act state action) rest
  end.

(** The roles of the conversation from its last message back: they take
    turns. *)
Fixpoint takeTurns (latestFirst : list Role) : Prop :=
  match latestFirst with
  | a :: (b :: _) as earlier => a <> b /\ takeTurns earlier
  | _ => True
  end.

End SocraticTutor.

(** What the conversation keeps: the roles take turns, the greeting stays
    first, no message of the user is empty, and a call is in flight exactly
    while the loading flag is set, which is exactly when the last message is
    the user's. *)
Definition chatInvariant (state : SocraticTutor.State) : Prop :=
  SocraticTutor.takeTurns (rev (map SocraticTutor.role (SocraticTutor.messages state)))
  /\ hd_error (SocraticTutor.messages state) = Some SocraticTutor.initialMessage
  /\ Forall (fun m => SocraticTutor.role m = SocraticTutor.user ->
                      exists c t, SocraticTutor.text m = Some (String c t))
       (SocraticTutor.messages state)
  /\ SocraticTutor.inFlight state
     = (if SocraticTutor.isLoading state then 1%nat else 0%nat)
  /\ hd_error (rev (map SocraticTutor.role (SocraticTutor.messages state)))
     = Some (if SocraticTutor.isLoading state
             then SocraticTutor.user else SocraticTutor.model).

(** A question typed with spaces around it, submitted twice, answered by a
    response without text; then the conversation is cleared. *)
Definition questionWithoutAnswer : list SocraticTutor.Action :=
  [SocraticTutor.SetInput " Why does it slow down? "; SocraticTutor.Submit;
   SocraticTutor.Submit; SocraticTutor.Settle (Resolves (Some {| text := None |}));
   SocraticTutor.ClearChat].

(** A text of spaces, tabs and line breaks only. *)
Fixpoint blank (s : string) : bool :=
  match s with
  | EmptyString => true
  | String c s' => isWs1 c && blank s'
  end.

(** The document of a 100 mm, a 300 mm and a 100 mm block on A4: the oversized
    block takes page 2 alone, so each block is on a page of its own. *)
Definition pdf100x300x100 : ExportService.Pdf :=
  {| ExportService.numberOfPages := 3;
     ExportService.images :=
       [ {| ExportService.imgData := canvas100; ExportService.page := 1;
            ExportService.x := 15; ExportService.y := 15;
            ExportService.w := 180; ExportService.h := 180000 # 1800 |};
         {| ExportService.imgData := canvas300; ExportService.page := 2;
            ExportService.x := 15; ExportService.y := 15;
            ExportService.w := 180; ExportService.h := 540000 # 1800 |};
         {| ExportService.imgData := canvas100; ExportService.page := 3;
            ExportService.x := 15; ExportService.y := 15;
            ExportService.w := 180; ExportService.h := 180000 # 1800 |} ] |}.
(** * Properties *)

(** ** The retry loops *)

Lemma backoff_nil (d : Z) (rnd : nat -> RandomNumber) (i : nat) : backoff d rnd i i = [].
Proof. unfold backoff. now rewrite Nat.sub_diag. Qed.

Lemma backoff_cons (d : Z) (rnd : nat -> RandomNumber) (i m : nat) :
  (i < m)%nat ->
  backoff d rnd i m =
  Call i :: SetTimeout (d * 2 ^ Z.of_nat i + jitterOf (rnd i)) :: backoff d rnd (S i) m.
Proof.
  intros Him. unfold backoff.
  replace (m - i)%nat with (S (m - S i)) by lia. reflexivity.
Qed.

Lemma backoff_split (d : Z) (rnd : nat -> RandomNumber) (i k m : nat) :
  (i <= k)%nat -> (k <= m)%nat ->
  backoff d rnd i m = backoff d rnd i k ++ backoff d rnd k m.
Proof.
  intros Hik Hkm. unfold backoff.
  replace (m - i)%nat with ((k - i) + (m - k))%nat by lia.
  rewrite seq_app, flat_map_app.
  now replace (i + (k - i))%nat with k by lia.
Qed.

Lemma calls_backoff (d : Z) (rnd : nat -> RandomNumber) (i m : nat) :
  calls (backoff d rnd i m) = seq i (m - i).
Proof.
  unfold backoff, calls. induction (seq i (m - i)) as [|j l IH]; simpl; congruence.
Qed.

Lemma waits_backoff (d : Z) (rnd : nat -> RandomNumber) (i m : nat) :
  waits (backoff d rnd i m) =
  map (fun j => (d * 2 ^ Z.of_nat j + jitterOf (rnd j))%Z) (seq i (m - i)).
Proof.
  unfold backoff, waits. induction (seq i (m - i)) as [|j l IH]; simpl; congruence.
Qed.

Lemma calls_app (l l' : list Event) : calls (l ++ l') = calls l ++ calls l'.
Proof. apply flat_map_app. Qed.

Lemma waits_app (l l' : list Event) : waits (l ++ l') = waits l ++ waits l'.
Proof. apply flat_map_app. Qed.

Lemma pow2_succ (d : Z) (i : nat) :
  (d * 2 ^ Z.of_nat i * 2 = d * 2 ^ Z.of_nat (S i))%Z.
Proof. rewrite Nat2Z.inj_succ, Z.pow_succ_r by lia. ring. Qed.

(** The run stops at the current call [i]: what is left to show is why. *)
Ltac stops_here :=
  split; [lia|]; split; [now rewrite backoff_nil|];
  split; [intros ? ?; lia|].

Section ExecutorFacts.

Variable generateContent : nat -> ApiResult.
Variable Math_random : nat -> RandomNumber.

Lemma generateContentWithRetry_from_shape (retries : nat) (d : Z) :
  forall remaining i lastError,
    (1 <= remaining)%nat -> (i + remaining = retries)%nat ->
    exists m,
      stopsAt (tryGenerateContent generateContent) isTransient retries d Math_random i
        (fst (generateContentWithRetry_from generateContent Math_random retries
                remaining i (d * 2 ^ Z.of_nat i) lastError)) m
      /\ snd (generateContentWithRetry_from generateContent Math_random retries
                remaining i (d * 2 ^ Z.of_nat i) lastError) = settledAt generateContent m.
Proof.
  induction remaining as [|r IH]; intros i lastError Hr Hi; [lia|].
  cbn [generateContentWithRetry_from]. unfold settledAt.
  destruct (tryGenerateContent generateContent i) as [response|[name message]] eqn:Etry.
  - exists i. rewrite Etry. split; [|reflexivity].
    stops_here. right. intros (n & msg & Hn & _). congruence.
  - destruct (isTransient (toString name message)) eqn:Eretry;
      [destruct (i <? retries - 1)%nat eqn:Elast|]; cbn [andb].
    + apply Nat.ltb_lt in Elast.
      destruct (IH (S i) (ErrorObj name message)) as (m & (Hm & Hev & Hbefore & Hstop) & Hres);
        [lia|lia|].
      rewrite pow2_succ.
      destruct (generateContentWithRetry_from generateContent Math_random retries r
                  (S i) (d * 2 ^ Z.of_nat (S i)) (ErrorObj name message))
        as [events result].
      cbn [fst snd] in *. exists m. split; [|exact Hres].
      split; [lia|]. split; [|split; [|exact Hstop]].
      * rewrite (backoff_cons d Math_random i m) by lia. cbn. now rewrite Hev.
      * intros j Hj. destruct (Nat.eq_dec j i) as [->|Hne].
        -- exists name, message. split; [exact Etry|exact Eretry].
        -- apply Hbefore. lia.
    + apply Nat.ltb_ge in Elast. exists i. cbn [fst snd]. rewrite Etry.
      split; [|reflexivity]. stops_here. left; lia.
    + exists i. cbn [fst snd]. rewrite Etry. split; [|reflexivity].
      stops_here. right. intros (n & msg & Hn & Hc).
      rewrite Etry in Hn. injection Hn as <- <-. congruence.
Qed.

Lemma generateContentWithRetry_shape (retries : nat) (delay : Z) :
  (1 <= retries)%nat ->
  exists m,
    stopsAt (tryGenerateContent generateContent) isTransient retries delay Math_random 0
      (fst (generateContentWithRetry generateContent Math_random retries delay)) m
    /\ snd (generateContentWithRetry generateContent Math_random retries delay)
       = settledAt generateContent m.
Proof.
  intros Hr. unfold generateContentWithRetry.
  destruct (generateContentWithRetry_from_shape retries delay retries 0 Undefined)
    as (m & H); [lia|lia|].
  change (Z.of_nat 0) with 0%Z in H. rewrite Z.pow_0_r, Z.mul_1_r in H.
  now exists m.
Qed.

End ExecutorFacts.

Section SocraticFacts.

Variable sendMessage : nat -> ApiResult.
Variable Math_random : nat -> RandomNumber.

Lemma getSocraticResponse_from_shape (retries : nat) (d : Z) :
  forall remaining i lastError,
    (1 <= remaining)%nat -> (i + remaining = retries)%nat ->
    exists m,
      stopsAt (trySendMessage sendMessage) isRetryableSocratic retries d Math_random i
        (fst (getSocraticResponse_from sendMessage Math_random retries
                remaining i (d * 2 ^ Z.of_nat i) lastError)) m
      /\ snd (getSocraticResponse_from sendMessage Math_random retries
                remaining i (d * 2 ^ Z.of_nat i) lastError)
         = settledSocratic sendMessage m.
Proof.
  induction remaining as [|r IH]; intros i lastError Hr Hi; [lia|].
  cbn [getSocraticResponse_from]. unfold settledSocratic.
  fold (isRetryableSocratic).
  destruct (trySendMessage sendMessage i) as [responseText|[name message]] eqn:Etry.
  - exists i. rewrite Etry. split; [|reflexivity].
    stops_here. right. intros (n & msg & Hn & _). congruence.
  - change (isTransient (toString name message)
            || includes (toString name message) "AI 回應無效")
      with (isRetryableSocratic (toString name message)).
    destruct (isRetryableSocratic (toString name message)) eqn:Eretry;
      [destruct (i <? retries - 1)%nat eqn:Elast|]; cbn [andb].
    + apply Nat.ltb_lt in Elast.
      destruct (IH (S i) (ErrorObj name message)) as (m & (Hm & Hev & Hbefore & Hstop) & Hres);
        [lia|lia|].
      rewrite pow2_succ.
      destruct (getSocraticResponse_from sendMessage Math_random retries r
                  (S i) (d * 2 ^ Z.of_nat (S i)) (ErrorObj name message))
        as [events result].
      cbn [fst snd] in *. exists m. split; [|exact Hres].
      split; [lia|]. split; [|split; [|exact Hstop]].
      * rewrite (backoff_cons d Math_random i m) by lia. cbn. now rewrite Hev.
      * intros j Hj. destruct (Nat.eq_dec j i) as [->|Hne].
        -- exists name, message. split; [exact Etry|exact Eretry].
        -- apply Hbefore. lia.
    + apply Nat.ltb_ge in Elast. exists i. cbn [fst snd]. rewrite Etry.
      split; [|reflexivity]. stops_here. left; lia.
    + exists i. cbn [fst snd]. rewrite Etry. split; [|reflexivity].
      stops_here. right. intros (n & msg & Hn & Hc).
      rewrite Etry in Hn. injection Hn as <- <-. congruence.
Qed.

Lemma getSocraticResponse_shape :
  exists m,
    stopsAt (trySendMessage sendMessage) isRetryableSocratic 5 3000 Math_random 0
      (fst (getSocraticResponse sendMessage Math_random)) m
    /\ snd (getSocraticResponse sendMessage Math_random) = settledSocratic sendMessage m.
Proof.
  unfold getSocraticResponse.
  destruct (getSocraticResponse_from_shape 5 3000 5 0 Undefined) as (m & H); [lia|lia|].
  now exists m.
Qed.

End SocraticFacts.

(** After the rounds up to [i], a run that goes on past the call [i] shows
    that call, its wait and the next call. *)
Lemma backoff_round (d : Z) (rnd : nat -> RandomNumber) (i m : nat) :
  (i < m)%nat ->
  exists post,
    backoff d rnd 0 m ++ [Call m] =
    backoff d rnd 0 i
    ++ Call i :: SetTimeout (d * 2 ^ Z.of_nat i + jitterOf (rnd i)) :: Call (S i) :: post.
Proof.
  intros Him.
  rewrite (backoff_split d rnd 0 i m) by lia.
  rewrite (backoff_cons d rnd i m) by lia.
  destruct (Nat.eq_dec (S i) m) as [<-|Hne].
  - exists []. rewrite backoff_nil, <- app_assoc. reflexivity.
  - rewrite (backoff_cons d rnd (S i) m) by lia.
    eexists. rewrite <- app_assoc. cbn. reflexivity.
Qed.

Lemma transient_retryable_socratic (msg : string) :
  isTransient msg = true -> isRetryableSocratic msg = true.
Proof. unfold isRetryableSocratic. now intros ->. Qed.

(** A failing API call is caught as it is by both [try] blocks. *)
Lemma throws_caught (api : nat -> ApiResult) (j : nat) (name message : string) :
  api j = Throws name message ->
  tryGenerateContent api j = inr (name, message)
  /\ trySendMessage api j = inr (name, message).
Proof. intros H. unfold tryGenerateContent, trySendMessage. now rewrite H. Qed.

(** A response without text ends both [try] blocks in the [catch] clause,
    each with its own error. *)
Lemma noText_caught (api : nat -> ApiResult) (i : nat) (r : GenerateContentResponse) :
  api i = Resolves (Some r) -> noText (text r) = true ->
  tryGenerateContent api i = inr ("Error", emptyResponseMessage)
  /\ trySendMessage api i = inr ("Error", socraticEmptyMessage).
Proof.
  intros H Hno. unfold tryGenerateContent, trySendMessage. rewrite H, Hno.
  split; [reflexivity|]. destruct (text r) as [t|]; [|reflexivity].
  now rewrite Hno.
Qed.

(** C1, as stated, fails on generateContentWithRetry: with five attempts
    allowed and an API whose every response carries no text, the executor
    makes one call, sets no timer and throws the error of that call. *)
Lemma empty_response_not_retried_by_generateContentWithRetry :
  generateContentWithRetry emptyResponses halfRandom 5 3000
  = ([Call 0], Rejected (newError emptyResponseMessage))
  /\ ~ (exists ms events result,
          generateContentWithRetry emptyResponses halfRandom 5 3000
          = (Call 0 :: SetTimeout ms :: events, result)).
Proof.
  split; [reflexivity|].
  intros (ms & events & result & H). vm_compute in H. discriminate H.
Qed.

(** C1 (amended): in getSocraticResponse a response that carries no text
    is a retryable failure: when it is the answer to the call [i], every
    earlier attempt having failed with an error that loop retries (an empty
    response among them), and attempts remain, the loop waits and makes the
    call [i + 1].  In generateContentWithRetry a missing response, or a
    response without text, becomes an error that is not retryable: when it
    is the answer to the call [i'], the run ends at that call, with no wait
    after it, and throws that error. *)
Theorem empty_response_retried_by_getSocraticResponse_only
    (sendMessage generateContent : nat -> ApiResult) (rnd : nat -> RandomNumber)
    (i i' retries : nat) (delay : Z) (result : GenerateContentResponse) :
  (forall j, (j < i)%nat ->
     retryableAt (trySendMessage sendMessage) isRetryableSocratic j) ->
  sendMessage i = Resolves (Some result) ->
  noText (text result) = true ->
  (i < 4)%nat ->
  (forall j, (j < i')%nat ->
     retryableAt (tryGenerateContent generateContent) isTransient j) ->
  (generateContent i' = Resolves None
   \/ exists response,
        generateContent i' = Resolves (Some response)
        /\ noText (text response) = true) ->
  (i' < retries)%nat ->
  (exists post,
     fst (getSocraticResponse sendMessage rnd)
     = backoff 3000 rnd 0 i
       ++ Call i :: SetTimeout (3000 * 2 ^ Z.of_nat i + jitterOf (rnd i))
          :: Call (S i) :: post)
  /\ generateContentWithRetry generateContent rnd retries delay
     = (backoff delay rnd 0 i' ++ [Call i'], Rejected (newError emptyResponseMessage)).
Proof.
  intros Hbefore Hi Hno Hlt Hbefore' Hi' Hlt'.
  split.
  - destruct (noText_caught sendMessage i result Hi Hno) as [_ Hsoc].
    destruct (getSocraticResponse_shape sendMessage rnd)
      as (m & (Hm & Hev & Hretry & Hstop) & _).
    assert (Him : (i < m)%nat).
    { destruct (Nat.lt_ge_cases i m) as [|Hge]; [assumption|exfalso].
      destruct Hstop as [->|Hstop]; [lia|]. apply Hstop.
      destruct (Nat.eq_dec m i) as [->|Hne].
      - exists "Error"%string, socraticEmptyMessage. split; [exact Hsoc|reflexivity].
      - apply Hbefore. lia. }
    rewrite Hev. now apply backoff_round.
  - assert (Hgen : tryGenerateContent generateContent i'
                   = inr ("Error"%string, emptyResponseMessage)).
    { destruct Hi' as [Hmissing|(response & Hresponse & Hempty)].
      - unfold tryGenerateContent. now rewrite Hmissing.
      - apply (noText_caught generateContent i' response Hresponse Hempty). }
    destruct (generateContentWithRetry_shape generateContent rnd retries delay)
      as (m & (Hm & Hev & Hretry & Hstop) & Hres); [lia|].
    assert (Him : m = i').
    { destruct (Nat.lt_trichotomy m i') as [Hlo|[Heq|Hhi]]; [exfalso|exact Heq|exfalso].
      - destruct Hstop as [->|Hstop]; [lia|]. apply Hstop, Hbefore', Hlo.
      - destruct (Hretry i') as (name & message & Htry & Htr); [lia|].
        rewrite Hgen in Htry. injection Htry as <- <-. discriminate Htr. }
    subst m. unfold settledAt in Hres. rewrite Hgen in Hres.
    rewrite (surjective_pairing (generateContentWithRetry generateContent rnd retries delay)).
    now rewrite Hev, Hres.
Qed.

Lemma empty_response_retried_by_getSocraticResponse_only_witness :
  (exists post,
     fst (getSocraticResponse emptyResponses halfRandom)
     = backoff 3000 halfRandom 0 3
       ++ Call 3 :: SetTimeout (3000 * 2 ^ Z.of_nat 3 + jitterOf (halfRandom 3%nat))
          :: Call 4 :: post)
  /\ generateContentWithRetry overloadedThenMissing halfRandom 5 3000
     = (backoff 3000 halfRandom 0 1 ++ [Call 1], Rejected (newError emptyResponseMessage)).
Proof.
  apply (empty_response_retried_by_getSocraticResponse_only
           emptyResponses overloadedThenMissing halfRandom 3 1 5 3000 {| text := None |}).
  - intros j _. exists "Error"%string, socraticEmptyMessage. split; reflexivity.
  - reflexivity.
  - reflexivity.
  - lia.
  - intros j Hj. assert (j = 0%nat) as -> by lia.
    eexists; eexists. split; reflexivity.
  - left. reflexivity.
  - lia.
Defined.



(** C3: whatever the number [n >= 1] of attempts allowed, when the first
    attempt fails with an error that is not classified as retryable,
    generateContentWithRetry makes that one call, sets no timer and throws
    the error. *)
Theorem non_retryable_failure_is_not_retried
    (api : nat -> ApiResult) (rnd : nat -> RandomNumber) (n : nat) (delay : Z)
    (name message : string) :
  (1 <= n)%nat ->
  tryGenerateContent api 0 = inr (name, message) ->
  isTransient (toString name message) = false ->
  generateContentWithRetry api rnd n delay
  = ([Call 0], Rejected (ErrorObj name message)).
Proof.
  intros Hn Htry Hclass. destruct n as [|n]; [lia|].
  unfold generateContentWithRetry. cbn [generateContentWithRetry_from].
  now rewrite Htry, Hclass.
Qed.

Lemma non_retryable_failure_is_not_retried_witness :
  generateContentWithRetry alwaysBadRequest halfRandom 5 3000
  = ([Call 0], Rejected (ErrorObj "ApiError" "got status: 400 Bad Request.")).
Proof.
  apply (non_retryable_failure_is_not_retried alwaysBadRequest halfRandom 5 3000).
  - lia.
  - reflexivity.
  - reflexivity.
Defined.

(** *** The jitter *)

Section Rounding.

Local Open Scope Z_scope.

(** What the rounding does: nothing below 2^53; otherwise the [s] low bits
    [r] are dropped and the rest [q] goes up by one when [r] is above the
    half, down when it is below. *)
Lemma roundTiesToEven_cases (n e : Z) :
  0 <= n ->
  (n < 2 ^ 53 /\ roundTiesToEven n e = (n, e))
  \/ exists s q r,
       0 < s /\ 2 ^ (s + 52) <= n < 2 ^ (s + 53)
       /\ n = q * 2 ^ s + r /\ 0 <= r < 2 ^ s
       /\ ((roundTiesToEven n e = (q, e + s) /\ 2 * r <= 2 ^ s)
           \/ (roundTiesToEven n e = (q + 1, e + s) /\ 2 ^ s <= 2 * r)).
Proof.
  intros Hn. unfold roundTiesToEven.
  destruct (Z.log2 n + 1 - 53 <=? 0) eqn:Eexcess.
  - left. split; [|reflexivity]. apply Z.leb_le in Eexcess.
    destruct (Z.eq_dec n 0) as [->|Hne]; [reflexivity|].
    destruct (Z.log2_spec n) as [_ Hhi]; [lia|].
    eapply Z.lt_le_trans; [exact Hhi|]. apply Z.pow_le_mono_r; lia.
  - right. apply Z.leb_gt in Eexcess.
    set (s := Z.log2 n + 1 - 53) in *.
    assert (Hpos : 0 < n).
    { destruct (Z.eq_dec n 0) as [->|Hne]; [|lia]. cbn in s. lia. }
    destruct (Z.log2_spec n Hpos) as [Hlo Hhi].
    replace (Z.log2 n) with (s + 52) in Hlo by lia.
    replace (Z.succ (Z.log2 n)) with (s + 53) in Hhi by lia.
    rewrite Z.shiftr_div_pow2, !Z.shiftl_mul_pow2 by lia.
    rewrite Z.mul_1_l.
    assert (Hs : 0 < 2 ^ s) by (apply Z.pow_pos_nonneg; lia).
    assert (Hhalf : 2 ^ s = 2 * 2 ^ (s - 1)).
    { rewrite <- Z.pow_succ_r by lia. f_equal. lia. }
    pose proof (Z.div_mod n (2 ^ s) ltac:(lia)) as Hdiv.
    pose proof (Z.mod_pos_bound n (2 ^ s) Hs) as Hmod.
    exists s, (n / 2 ^ s), (n mod 2 ^ s).
    split; [exact Eexcess|]. split; [split; assumption|].
    split; [lia|]. split; [exact Hmod|].
    replace (n - n / 2 ^ s * 2 ^ s) with (n mod 2 ^ s) by lia.
    destruct ((n mod 2 ^ s <? 2 ^ (s - 1))
              || ((n mod 2 ^ s =? 2 ^ (s - 1)) && Z.even (n / 2 ^ s))) eqn:Edown.
    + left. split; [reflexivity|].
      apply orb_true_iff in Edown. destruct Edown as [E|E].
      * apply Z.ltb_lt in E. lia.
      * apply andb_true_iff in E. destruct E as [E _]. apply Z.eqb_eq in E. lia.
    + right. split; [reflexivity|].
      apply orb_false_iff in Edown. destruct Edown as [E _].
      apply Z.ltb_ge in E. lia.
Qed.

(** The jitter against the exact product [m * 1000 / 2 ^ E] of a draw
    [m / 2 ^ E]: it is below 1000, and it is the floor of the exact product
    unless the product is within [2 ^ -44] of the next integer. *)
Lemma jitter_cases (m E : Z) :
  0 <= m < 2 ^ 53 -> 0 < E -> m < 2 ^ E ->
  let '(n, e) := roundTiesToEven (m * 1000) (- E) in
  0 <= floorOf n e < 1000
  /\ (floorOf n e = m * 1000 / 2 ^ E
      \/ (floorOf n e = m * 1000 / 2 ^ E + 1
          /\ (floorOf n e * 2 ^ E - m * 1000) * 2 ^ 44 <= 2 ^ E)).
Proof.
  intros Hm HE HmE.
  assert (HP : 0 < 2 ^ E) by (apply Z.pow_pos_nonneg; lia).
  destruct (roundTiesToEven_cases (m * 1000) (- E)) as
    [(Hsmall & ->)|(s & q & r & Hs & Hn & Hqr & Hr & Hround)]; [lia| |].
  - unfold floorOf. replace (0 <=? - E) with false by (symmetry; apply Z.leb_gt; lia).
    rewrite Z.opp_involutive. split; [|now left]. split.
    + apply Z.div_pos; lia.
    + apply Z.div_lt_upper_bound; lia.
  - (* the excess is at most 10 bits, and the rounded product keeps at
       least 43 bits after the point *)
    assert (Hs10 : s <= 10).
    { assert (H : 2 ^ (s + 52) < 2 ^ 63) by (change (2 ^ 63) with (1024 * 2 ^ 53); lia).
      apply Z.pow_lt_mono_r_iff in H; lia. }
    assert (HsE : s + 43 <= E).
    { assert (H : 2 ^ (s + 52) < 2 ^ (E + 10)).
      { rewrite (Z.pow_add_r 2 E 10) by lia. change (2 ^ 10) with 1024. lia. }
      apply Z.pow_lt_mono_r_iff in H; lia. }
    set (D := 2 ^ (E - s)).
    assert (HD : 2 ^ E = D * 2 ^ s).
    { unfold D. rewrite <- Z.pow_add_r by lia. f_equal. lia. }
    assert (HD43 : 2 ^ 43 <= D) by (apply Z.pow_le_mono_r; lia).
    assert (H2s : 0 < 2 ^ s) by (apply Z.pow_pos_nonneg; lia).
    assert (H2s10 : 2 ^ s <= 1024) by (change 1024 with (2 ^ 10); apply Z.pow_le_mono_r; lia).
    assert (Hfloor : m * 1000 / 2 ^ E = q / D).
    { rewrite HD. replace (D * 2 ^ s) with (2 ^ s * D) by lia.
      rewrite <- Z.div_div by lia. f_equal.
      symmetry. apply Z.div_unique with r; [left; exact Hr|lia]. }
    assert (Hq : 0 <= q).
    { destruct (Z.lt_ge_cases q 0) as [Hneg|]; [exfalso|assumption].
      assert (q * 2 ^ s <= - 2 ^ s) by nia. lia. }
    assert (Hfl : forall n', 0 <= n' ->
              floorOf n' (- E + s) = n' / D).
    { intros n' _. unfold floorOf.
      replace (0 <=? - E + s) with false by (symmetry; apply Z.leb_gt; lia).
      unfold D. f_equal. f_equal. lia. }
    change (2 ^ 43) with 8796093022208 in HD43.
    change (2 ^ 44) with 17592186044416.
    change (2 ^ 53) with 9007199254740992 in Hm.
    destruct Hround as [(-> & Hdown)|(-> & Hup)]; rewrite Hfl by lia; rewrite Hfloor.
    + split; [|now left]. split; [apply Z.div_pos; lia|].
      apply Z.div_lt_upper_bound; [lia|]. nia.
    + pose proof (Z.div_mod q D ltac:(lia)) as Hdiv.
      pose proof (Z.mod_pos_bound q D ltac:(lia)) as Hmod.
      assert (Hlim : q + 1 < D * 1000).
      { (* the product is at least 1000 * 2^-E below 1000 *)
        assert (m * 1000 <= (D * 1000 - 1) * 2 ^ s + (2 ^ s - 1000)) by nia.
        assert (2 * (2 ^ s - 1000) < 2 ^ s) by lia.
        nia. }
      split; [split; [apply Z.div_pos; lia|apply Z.div_lt_upper_bound; lia]|].
      destruct (Z.eq_dec (q mod D) (D - 1)) as [Hlast|Hnot].
      * right.
        assert (Hnext : (q + 1) / D = q / D + 1).
        { symmetry. apply Z.div_unique with 0; lia. }
        split; [exact Hnext|]. rewrite Hnext. nia.
      * left. symmetry. apply Z.div_unique with (q mod D + 1); lia.
Qed.

End Rounding.

Lemma randomNumber_bounds (u : RandomNumber) :
  (0 <= significand u < 2 ^ 53)%Z
  /\ (0 < - exponent u <= 1074)%Z
  /\ (significand u < 2 ^ (- exponent u))%Z.
Proof.
  pose proof (inUnitInterval u) as H. unfold isRandomNumber in H.
  repeat (apply andb_true_iff in H; destruct H as [H ?]).
  repeat match goal with
         | E : (_ <=? _)%Z = true |- _ => apply Z.leb_le in E
         | E : (_ <? _)%Z = true |- _ => apply Z.ltb_lt in E
         end.
  lia.
Qed.

(** The exact product of a draw and 1000, and its floor. *)
Lemma exact_product (u : RandomNumber) :
  valueOf u * 1000
  == inject_Z (significand u * 1000) / inject_Z (2 ^ (- exponent u))
  /\ Qfloor (valueOf u * 1000) = (significand u * 1000 / 2 ^ (- exponent u))%Z.
Proof.
  destruct (randomNumber_bounds u) as (_ & HE & _).
  assert (HP : (0 < 2 ^ (- exponent u))%Z) by (apply Z.pow_pos_nonneg; lia).
  assert (Heq : valueOf u * 1000
                == inject_Z (significand u * 1000) / inject_Z (2 ^ (- exponent u))).
  { unfold valueOf. rewrite inject_Z_mult. change (inject_Z 1000) with 1000.
    field. intros H0. apply (Qlt_irrefl 0). rewrite <- H0 at 2.
    change 0 with (inject_Z 0). now rewrite <- Zlt_Qlt. }
  split; [exact Heq|]. rewrite (Qfloor_comp _ _ Heq). symmetry. apply Zdiv_Qdiv.
Qed.

Lemma jitterOf_range (u : RandomNumber) : (0 <= jitterOf u < 1000)%Z.
Proof.
  destruct (randomNumber_bounds u) as (Hm & HE & HmE).
  pose proof (jitter_cases (significand u) (- exponent u) Hm ltac:(lia) HmE) as H.
  rewrite Z.opp_involutive in H. unfold jitterOf.
  destruct (roundTiesToEven (significand u * 1000) (exponent u)) as [n e].
  exact (proj1 H).
Qed.

(** The jitter is the floor of the exact product, or, for a product within
    [2 ^ -44] of the next integer, that integer. *)
Lemma jitterOf_floor (u : RandomNumber) :
  jitterOf u = Qfloor (valueOf u * 1000)
  \/ (jitterOf u = (Qfloor (valueOf u * 1000) + 1)%Z
      /\ inject_Z (jitterOf u) - valueOf u * 1000 <= 1 # 17592186044416).
Proof.
  destruct (randomNumber_bounds u) as (Hm & HE & HmE).
  destruct (exact_product u) as [Heq Hfloor].
  pose proof (jitter_cases (significand u) (- exponent u) Hm ltac:(lia) HmE) as H.
  rewrite Z.opp_involutive in H. unfold jitterOf.
  destruct (roundTiesToEven (significand u * 1000) (exponent u)) as [n e].
  destruct H as (_ & [H|(H & Hnear)]); rewrite Hfloor; [now left|right].
  split; [exact H|]. rewrite Heq.
  assert (HP : (0 < 2 ^ (- exponent u))%Z) by (apply Z.pow_pos_nonneg; lia).
  set (P := (2 ^ (- exponent u))%Z) in *.
  set (N := (significand u * 1000)%Z) in *.
  set (j := floorOf n e) in *.
  assert (HPq : 0 < inject_Z P) by (change 0 with (inject_Z 0); now rewrite <- Zlt_Qlt).
  assert (Hdiff : inject_Z j - inject_Z N / inject_Z P
                  == inject_Z (j * P - N) / inject_Z P).
  { unfold Zminus. rewrite inject_Z_plus, inject_Z_mult, inject_Z_opp. field. lra. }
  rewrite Hdiff. apply Qle_shift_div_r; [exact HPq|].
  rewrite Zle_Qle, inject_Z_mult in Hnear.
  change (inject_Z (2 ^ 44)) with 17592186044416 in Hnear. lra.
Qed.

(** The draws of a jitter [j] are those of the interval from [j / 1000] to
    [(j + 1) / 1000], up to the rounding of the product at its ends. *)
Lemma jitterOf_interval (u : RandomNumber) (j : Z) :
  (inject_Z j <= valueOf u * 1000
   /\ valueOf u * 1000 < inject_Z j + 1 - (1 # 17592186044416) ->
   jitterOf u = j)
  /\ (jitterOf u = j ->
      inject_Z j - (1 # 17592186044416) <= valueOf u * 1000
      /\ valueOf u * 1000 < inject_Z j + 1).
Proof.
  pose proof (Qfloor_le (valueOf u * 1000)) as Hlo.
  pose proof (Qlt_floor (valueOf u * 1000)) as Hhi.
  rewrite inject_Z_plus in Hhi. change (inject_Z 1) with 1 in Hhi.
  split.
  - intros [Hj Hj'].
    assert (Hfloor : Qfloor (valueOf u * 1000) = j).
    { assert (j <= Qfloor (valueOf u * 1000))%Z
        by (rewrite <- (Qfloor_Z j); now apply Qfloor_resp_le).
      assert (Qfloor (valueOf u * 1000) < j + 1)%Z.
      { rewrite Zlt_Qlt, inject_Z_plus. change (inject_Z 1) with 1. lra. }
      lia. }
    destruct (jitterOf_floor u) as [H|(H & Hnear)]; [congruence|exfalso].
    rewrite H, Hfloor, inject_Z_plus in Hnear. change (inject_Z 1) with 1 in Hnear.
    lra.
  - intros <-.
    destruct (jitterOf_floor u) as [H|(H & Hnear)].
    + rewrite H. split; lra.
    + split; [lra|]. rewrite H, inject_Z_plus. change (inject_Z 1) with 1. lra.
Qed.

(** *** The waits of a run *)

(** The k-th wait of a run of [m >= k] rounds. *)
Lemma wait_of_round (d : Z) (rnd : nat -> RandomNumber) (m k : nat) :
  (1 <= k <= m)%nat ->
  (exists pre post,
     backoff d rnd 0 m ++ [Call m]
     = pre ++ Call (k - 1)
           :: SetTimeout (d * 2 ^ Z.of_nat (k - 1) + jitterOf (rnd (k - 1)%nat))
           :: Call k :: post
     /\ calls pre = seq 0 (k - 1))
  /\ waitAfter k (backoff d rnd 0 m ++ [Call m])
     = (d * 2 ^ Z.of_nat (k - 1) + jitterOf (rnd (k - 1)%nat))%Z.
Proof.
  intros Hk. split.
  - destruct (backoff_round d rnd (k - 1) m) as (post & Hpost); [lia|].
    exists (backoff d rnd 0 (k - 1)), post.
    replace (S (k - 1)) with k in Hpost by lia.
    split; [exact Hpost|]. now rewrite calls_backoff, Nat.sub_0_r.
  - unfold waitAfter. rewrite waits_app, waits_backoff, Nat.sub_0_r.
    cbn [waits flat_map app]. rewrite app_nil_r.
    rewrite nth_indep with (d' := (d * 2 ^ Z.of_nat 0 + jitterOf (rnd 0%nat))%Z)
      by (rewrite length_map, length_seq; lia).
    rewrite (map_nth (fun j => (d * 2 ^ Z.of_nat j + jitterOf (rnd j))%Z)).
    rewrite seq_nth by lia. reflexivity.
Qed.

(** A run goes as far as the attempts that fail with retryable errors
    take it. *)
Lemma generateContentWithRetry_reaches (api : nat -> ApiResult)
    (rnd : nat -> RandomNumber) (retries : nat) (delay : Z) (n : nat) :
  (n < retries)%nat ->
  (forall j, (j < n)%nat -> retryableAt (tryGenerateContent api) isTransient j) ->
  exists m, (n <= m)%nat
    /\ fst (generateContentWithRetry api rnd retries delay)
       = backoff delay rnd 0 m ++ [Call m].
Proof.
  intros Hn Hfail.
  destruct (generateContentWithRetry_shape api rnd retries delay)
    as (m & (Hm & Hev & _ & Hstop) & _); [lia|].
  exists m. split; [|exact Hev].
  destruct (Nat.lt_ge_cases m n) as [Hlt|]; [exfalso|assumption].
  destruct Hstop as [->|Hstop]; [lia|]. apply Hstop, Hfail, Hlt.
Qed.

Lemma getSocraticResponse_reaches (api : nat -> ApiResult)
    (rnd : nat -> RandomNumber) (n : nat) :
  (n < 5)%nat ->
  (forall j, (j < n)%nat -> retryableAt (trySendMessage api) isRetryableSocratic j) ->
  exists m, (n <= m)%nat
    /\ fst (getSocraticResponse api rnd) = backoff 3000 rnd 0 m ++ [Call m].
Proof.
  intros Hn Hfail.
  destruct (getSocraticResponse_shape api rnd) as (m & (Hm & Hev & _ & Hstop) & _).
  exists m. split; [|exact Hev].
  destruct (Nat.lt_ge_cases m n) as [Hlt|]; [exfalso|assumption].
  destruct Hstop as [->|Hstop]; [lia|]. apply Hstop, Hfail, Hlt.
Qed.

Lemma sum_permutation (l l' : list Z) :
  Permutation l l' -> fold_right Z.add 0%Z l = fold_right Z.add 0%Z l'.
Proof. induction 1; cbn; lia. Qed.

(** Over a sample of runs whose k-th wait is [base] plus the jitter of a
    draw and whose next wait is [base'] plus the jitter of another, the two
    draws having the same distribution over the sample, the means of the two
    waits differ by [base' - base]. *)
Lemma mean_of_next_wait (run : (nat -> RandomNumber) -> list Event)
    (draw draw' : (nat -> RandomNumber) -> RandomNumber) (base base' : Z)
    (k : nat) (samples : list (nat -> RandomNumber)) :
  samples <> [] ->
  (forall rnd, waitAfter k (run rnd) = (base + jitterOf (draw rnd))%Z) ->
  (forall rnd, waitAfter (S k) (run rnd) = (base' + jitterOf (draw' rnd))%Z) ->
  Permutation (map draw samples) (map draw' samples) ->
  meanWaitAfter (S k) (map run samples)
  == meanWaitAfter k (map run samples) + inject_Z (base' - base).
Proof.
  intros Hne Hk Hk' Hperm.
  assert (Hsum : forall j b (d : (nat -> RandomNumber) -> RandomNumber),
            (forall rnd, waitAfter j (run rnd) = (b + jitterOf (d rnd))%Z) ->
            forall l : list (nat -> RandomNumber),
            fold_right Z.add 0%Z (map (waitAfter j) (map run l))
            = (Z.of_nat (length l) * b
               + fold_right Z.add 0%Z (map jitterOf (map d l)))%Z).
  { intros j b d Hj l. induction l as [|rnd rest IH]; [cbn; lia|].
    cbn [map fold_right length]. rewrite Hj, IH, Nat2Z.inj_succ. lia. }
  unfold meanWaitAfter.
  rewrite (Hsum k base draw Hk samples), (Hsum (S k) base' draw' Hk' samples).
  rewrite (sum_permutation _ _ (Permutation_map jitterOf Hperm)).
  rewrite !length_map.
  assert (Hlen : ~ inject_Z (Z.of_nat (length samples)) == 0).
  { destruct samples; [congruence|]. cbn [length]. rewrite Nat2Z.inj_succ.
    intros H0. apply (Qlt_irrefl 0). rewrite <- H0 at 2.
    change 0 with (inject_Z 0). rewrite <- Zlt_Qlt. lia. }
  unfold Zminus. rewrite !inject_Z_plus, !inject_Z_mult, inject_Z_opp.
  field. exact Hlen.
Qed.

(** The k-th round of a run of [m >= k] rounds. *)
Lemma backoff_waitsWithJitter (d : Z) (rnd : nat -> RandomNumber) (m k : nat) :
  (1 <= k <= m)%nat ->
  waitsWithJitter d (rnd (k - 1)%nat) k (backoff d rnd 0 m ++ [Call m]).
Proof.
  intros Hk. destruct (wait_of_round d rnd m k Hk) as [Hevents Hwait].
  exists (jitterOf (rnd (k - 1)%nat)).
  split; [exact Hevents|]. split; [exact Hwait|]. split; [reflexivity|].
  split; [apply jitterOf_range|].
  destruct (jitterOf_interval (rnd (k - 1)%nat) (jitterOf (rnd (k - 1)%nat)))
    as [_ Hin].
  split; [|exact (Hin eq_refl)].
  intros j Hlo Hhi. now apply (jitterOf_interval (rnd (k - 1)%nat) j).
Qed.

Lemma waitsWithJitter_wait (d : Z) (u : RandomNumber) (k : nat) (events : list Event) :
  waitsWithJitter d u k events ->
  waitAfter k events = (d * 2 ^ Z.of_nat (k - 1) + jitterOf u)%Z.
Proof. now intros (jitter & _ & Hwait & -> & _). Qed.

(** C4: in both loops, when the first [n] attempts fail with errors the
    loop retries and attempts remain, the run waits, between the k-th
    attempt and attempt [k + 1], [initialDelay * 2 ^ (k - 1)] plus that
    round's jitter, [Math.floor(Math.random() * 1000)] on a draw of its own
    (3000 stands for [initialDelay] in getSocraticResponse); the jitter is
    an integer from 0 to 999, each value [j] being the jitter of the draws
    from [j / 1000] to [(j + 1) / 1000], up to the rounding of the binary64
    product at the two ends, so that the values share the unit interval in
    equal parts; and over any sample of runs in which the draws of two
    successive rounds have the same distribution, the mean of the wait grows
    by [initialDelay * 2 ^ (k - 1)] from the k-th wait to the next, and so
    does not decrease for an [initialDelay] that is not negative. *)
Theorem backoff_delay_doubles_with_jitter
    (generateContent sendMessage : nat -> ApiResult) (retries : nat)
    (initialDelay : Z) (n n' : nat) :
  (n < retries)%nat ->
  (forall j, (j < n)%nat ->
     retryableAt (tryGenerateContent generateContent) isTransient j) ->
  (n' < 5)%nat ->
  (forall j, (j < n')%nat ->
     retryableAt (trySendMessage sendMessage) isRetryableSocratic j) ->
  (forall rnd k, (1 <= k <= n)%nat ->
     waitsWithJitter initialDelay (rnd (k - 1)%nat) k
       (fst (generateContentWithRetry generateContent rnd retries initialDelay)))
  /\ (forall rnd k, (1 <= k <= n')%nat ->
        waitsWithJitter 3000 (rnd (k - 1)%nat) k
          (fst (getSocraticResponse sendMessage rnd)))
  /\ (forall samples k,
        samples <> [] -> (1 <= k < n)%nat ->
        Permutation (map (fun rnd : nat -> RandomNumber => rnd (k - 1)%nat) samples)
          (map (fun rnd : nat -> RandomNumber => rnd k) samples) ->
        meanWaitAfter (S k)
          (map (fun rnd =>
                  fst (generateContentWithRetry generateContent rnd retries initialDelay))
             samples)
        == meanWaitAfter k
             (map (fun rnd =>
                     fst (generateContentWithRetry generateContent rnd retries
                            initialDelay))
                samples)
           + inject_Z (initialDelay * 2 ^ Z.of_nat (k - 1))
        /\ ((0 <= initialDelay)%Z ->
            meanWaitAfter k
              (map (fun rnd =>
                      fst (generateContentWithRetry generateContent rnd retries
                             initialDelay))
                 samples)
            <= meanWaitAfter (S k)
                 (map (fun rnd =>
                         fst (generateContentWithRetry generateContent rnd retries
                                initialDelay))
                    samples)))
  /\ (forall samples k,
        samples <> [] -> (1 <= k < n')%nat ->
        Permutation (map (fun rnd : nat -> RandomNumber => rnd (k - 1)%nat) samples)
          (map (fun rnd : nat -> RandomNumber => rnd k) samples) ->
        meanWaitAfter (S k)
          (map (fun rnd => fst (getSocraticResponse sendMessage rnd)) samples)
        == meanWaitAfter k
             (map (fun rnd => fst (getSocraticResponse sendMessage rnd)) samples)
           + inject_Z (3000 * 2 ^ Z.of_nat (k - 1))
        /\ meanWaitAfter k
             (map (fun rnd => fst (getSocraticResponse sendMessage rnd)) samples)
           <= meanWaitAfter (S k)
                (map (fun rnd => fst (getSocraticResponse sendMessage rnd)) samples)).
Proof.
  intros Hn Hfail Hn' Hfail'.
  assert (Hgen : forall rnd k, (1 <= k <= n)%nat ->
            waitsWithJitter initialDelay (rnd (k - 1)%nat) k
              (fst (generateContentWithRetry generateContent rnd retries initialDelay))).
  { intros rnd k Hk.
    destruct (generateContentWithRetry_reaches generateContent rnd retries initialDelay
                n Hn Hfail) as (m & Hm & ->).
    apply backoff_waitsWithJitter. lia. }
  assert (Hsoc : forall rnd k, (1 <= k <= n')%nat ->
            waitsWithJitter 3000 (rnd (k - 1)%nat) k
              (fst (getSocraticResponse sendMessage rnd))).
  { intros rnd k Hk.
    destruct (getSocraticResponse_reaches sendMessage rnd n' Hn' Hfail')
      as (m & Hm & ->).
    apply backoff_waitsWithJitter. lia. }
  assert (Hstep : forall d k, (1 <= k)%nat ->
            (d * 2 ^ Z.of_nat (S k - 1) - d * 2 ^ Z.of_nat (k - 1)
             = d * 2 ^ Z.of_nat (k - 1))%Z).
  { intros d k Hk. replace (S k - 1)%nat with (S (k - 1)) by lia.
    rewrite Nat2Z.inj_succ, Z.pow_succ_r by lia. ring. }
  split; [exact Hgen|]. split; [exact Hsoc|]. split.
  - intros samples k Hne Hk Hperm.
    assert (Hmean :
      meanWaitAfter (S k)
        (map (fun rnd =>
                fst (generateContentWithRetry generateContent rnd retries initialDelay))
           samples)
      == meanWaitAfter k
           (map (fun rnd =>
                   fst (generateContentWithRetry generateContent rnd retries
                          initialDelay))
              samples)
         + inject_Z (initialDelay * 2 ^ Z.of_nat (k - 1))).
    { rewrite <- (Hstep initialDelay k) by lia.
      apply (mean_of_next_wait _ (fun rnd => rnd (k - 1)%nat) (fun rnd => rnd k)).
      - exact Hne.
      - intros rnd. apply waitsWithJitter_wait, Hgen. lia.
      - intros rnd. replace (rnd k) with (rnd (S k - 1)%nat) by (f_equal; lia).
        apply waitsWithJitter_wait, Hgen. lia.
      - exact Hperm. }
    split; [exact Hmean|]. intros Hdelay. rewrite Hmean.
    assert (0 <= inject_Z (initialDelay * 2 ^ Z.of_nat (k - 1))); [|lra].
    change 0 with (inject_Z 0). rewrite <- Zle_Qle.
    apply Z.mul_nonneg_nonneg; [exact Hdelay|]. apply Z.pow_nonneg. lia.
  - intros samples k Hne Hk Hperm.
    assert (Hmean :
      meanWaitAfter (S k)
        (map (fun rnd => fst (getSocraticResponse sendMessage rnd)) samples)
      == meanWaitAfter k
           (map (fun rnd => fst (getSocraticResponse sendMessage rnd)) samples)
         + inject_Z (3000 * 2 ^ Z.of_nat (k - 1))).
    { rewrite <- (Hstep 3000%Z k) by lia.
      apply (mean_of_next_wait _ (fun rnd => rnd (k - 1)%nat) (fun rnd => rnd k)).
      - exact Hne.
      - intros rnd. apply waitsWithJitter_wait, Hsoc. lia.
      - intros rnd. replace (rnd k) with (rnd (S k - 1)%nat) by (f_equal; lia).
        apply waitsWithJitter_wait, Hsoc. lia.
      - exact Hperm. }
    split; [exact Hmean|]. rewrite Hmean.
    assert (0 <= inject_Z (3000 * 2 ^ Z.of_nat (k - 1))); [|lra].
    change 0 with (inject_Z 0). rewrite <- Zle_Qle.
    apply Z.mul_nonneg_nonneg; [lia|]. apply Z.pow_nonneg. lia.
Qed.

Lemma backoff_delay_doubles_with_jitter_witness :
  waits (fst (generateContentWithRetry alwaysOverloaded lowThenHigh 5 3000))
  = [3250; 6750; 12250; 24750]%Z
  /\ waits (fst (getSocraticResponse emptyResponses alwaysNearest029))
     = [3290; 6290; 12290; 24290]%Z
  /\ valueOf nearest029 * 1000 < 290
  /\ waitsWithJitter 3000 (lowThenHigh (3 - 1)%nat) 3
       (fst (generateContentWithRetry alwaysOverloaded lowThenHigh 5 3000))
  /\ waitsWithJitter 3000 (alwaysNearest029 (4 - 1)%nat) 4
       (fst (getSocraticResponse emptyResponses alwaysNearest029))
  /\ meanWaitAfter 3
       (map (fun rnd => fst (generateContentWithRetry alwaysOverloaded rnd 5 3000))
          [lowThenHigh; highThenLow])
     <= meanWaitAfter 4
          (map (fun rnd => fst (generateContentWithRetry alwaysOverloaded rnd 5 3000))
             [lowThenHigh; highThenLow])
  /\ meanWaitAfter 3
       (map (fun rnd => fst (getSocraticResponse emptyResponses rnd))
          [lowThenHigh; highThenLow])
     <= meanWaitAfter 4
          (map (fun rnd => fst (getSocraticResponse emptyResponses rnd))
             [lowThenHigh; highThenLow]).
Proof.
  destruct (backoff_delay_doubles_with_jitter alwaysOverloaded emptyResponses 5 3000 4 4)
    as (Hgen & Hsoc & Hmean & Hmean').
  - lia.
  - intros j _. eexists; eexists. split; reflexivity.
  - lia.
  - intros j _. exists "Error"%string, socraticEmptyMessage. split; reflexivity.
  - split; [reflexivity|]. split; [reflexivity|]. split; [reflexivity|].
    split; [apply (Hgen lowThenHigh 3%nat); lia|].
    split; [apply (Hsoc alwaysNearest029 4%nat); lia|].
    split.
    + apply (Hmean [lowThenHigh; highThenLow] 3%nat);
        [discriminate|lia|apply perm_swap|lia].
    + apply (Hmean' [lowThenHigh; highThenLow] 3%nat);
        [discriminate|lia|apply perm_swap].
Defined.

(** ** The paginator *)

Lemma Qgtb_true (a b : Q) : Qgtb a b = true <-> b < a.
Proof.
  unfold Qgtb. rewrite negb_true_iff, <- not_true_iff_false, Qle_bool_iff.
  split; [apply Qnot_le_lt|apply Qlt_not_le].
Qed.

Lemma Qgtb_false (a b : Q) : Qgtb a b = false <-> a <= b.
Proof. unfold Qgtb. now rewrite negb_false_iff, Qle_bool_iff. Qed.

Section RuleFacts.

Variable margin limit : Q.

Lemma follows_top (page0 : nat) (cursor : Q) (p : Placement) :
  margin <= cursor -> follows margin limit page0 cursor p -> margin <= top p.
Proof. intros Hc [(_ & Ht & _)|(_ & Ht & _)]; lra. Qed.

Lemma follows_page (page0 : nat) (cursor : Q) (p : Placement) :
  follows margin limit page0 cursor p -> (page0 <= onPage p)%nat.
Proof. intros [(Hp & _)|(Hp & _)]; lia. Qed.

Lemma chain_cursor (ps : list Placement) (page0 : nat) (cursor cursor' : Q) :
  cursor == cursor' ->
  chain margin limit page0 cursor ps -> chain margin limit page0 cursor' ps.
Proof.
  intros Heq. destruct ps as [|p rest]; [trivial|].
  intros (Hf & Hrest). split; [|exact Hrest].
  destruct Hf as [(Hp & Ht & Hfit)|(Hp & Ht & Hover)].
  - left. split; [exact Hp|]. split; [lra|]. destruct Hfit; [left|right]; lra.
  - right. split; [exact Hp|]. split; [exact Ht|lra].
Qed.

Lemma chain_pages_grow (ps : list Placement) :
  forall page0 cursor, chain margin limit page0 cursor ps ->
  forall k p, nth_error ps k = Some p -> (page0 <= onPage p)%nat.
Proof.
  induction ps as [|q rest IH]; intros page0 cursor Hchain k p Hk.
  - destruct k; discriminate.
  - destruct Hchain as (Hf & _ & _ & Hrest). apply follows_page in Hf.
    destruct k as [|k]; cbn in Hk.
    + injection Hk as <-. exact Hf.
    + specialize (IH _ _ Hrest k p Hk). lia.
Qed.

(** Past the limit, everything goes to a later page. *)
Lemma chain_beyond (ps : list Placement) (page0 : nat) (cursor : Q) :
  margin < cursor -> limit < cursor ->
  chain margin limit page0 cursor ps ->
  forall k p, nth_error ps k = Some p -> (page0 < onPage p)%nat.
Proof.
  intros Hm Hl Hchain k p Hk. destruct ps as [|q rest]; [destruct k; discriminate|].
  destruct Hchain as (Hf & Hq & _ & Hrest).
  assert (Hpage : onPage q = S page0).
  { destruct Hf as [(_ & _ & [H|H])|(H & _)]; [lra|lra|exact H]. }
  destruct k as [|k]; cbn in Hk.
  - injection Hk as <-. lia.
  - pose proof (chain_pages_grow rest _ _ Hrest k p Hk). lia.
Qed.

(** Where a placement stands: at the top of a page that held nothing of the
    list before it, or lower down, fitting above the limit, on a page that
    was not empty. *)
Lemma chain_placement (ps : list Placement) :
  forall page0 cursor, margin <= cursor -> chain margin limit page0 cursor ps ->
  forall k p, nth_error ps k = Some p ->
    (top p == margin
     /\ (forall j q, (j < k)%nat -> nth_error ps j = Some q -> (onPage q < onPage p)%nat)
     /\ (margin < cursor -> (page0 < onPage p)%nat))
    \/ (margin < top p /\ top p + reserved p <= limit
        /\ ((margin < cursor /\ onPage p = page0)
            \/ exists j q, (j < k)%nat /\ nth_error ps j = Some q /\ onPage q = onPage p)).
Proof.
  induction ps as [|hd rest IH]; intros page0 cursor Hc Hchain k p Hk.
  - destruct k; discriminate.
  - destruct Hchain as (Hf & Hres & Hadv & Hrest).
    pose proof (follows_top _ _ _ Hc Hf) as Htop.
    pose proof (follows_page _ _ _ Hf) as Hpage.
    destruct k as [|k]; cbn in Hk.
    + injection Hk as <-.
      destruct Hf as [(Hp & Ht & Hfit)|(Hp & Ht & Hover)].
      * destruct (Qlt_le_dec margin cursor) as [Hlt|Hle].
        -- right. split; [lra|]. split; [destruct Hfit; lra|]. left. now split.
        -- left. split; [lra|]. split; [intros j q Hj; lia|]. intros Hlt. lra.
      * left. split; [exact Ht|]. split; [intros j q Hj; lia|]. intros _. lia.
    + assert (Hc' : margin < top hd + advance hd) by lra.
      destruct (IH (onPage hd) (top hd + advance hd) (Qlt_le_weak _ _ Hc') Hrest k p Hk)
        as [(Ht & Hearlier & Hgrow)|(Ht & Hfit & Hsame)].
      * left. split; [exact Ht|]. specialize (Hgrow Hc'). split; [|intros _; lia].
        intros [|j] q Hj Hq; cbn in Hq.
        -- injection Hq as <-. exact Hgrow.
        -- apply (Hearlier j q); [lia|exact Hq].
      * right. split; [exact Ht|]. split; [exact Hfit|]. right.
        destruct Hsame as [(_ & Hp)|(j & q & Hj & Hq & Hp)].
        -- exists O, hd. split; [lia|]. split; [reflexivity|]. now rewrite Hp.
        -- exists (S j), q. split; [lia|]. split; [exact Hq|exact Hp].
Qed.

(** Each placement follows its predecessor in the list, whose page is not
    empty any more. *)
Lemma chain_consecutive (ps : list Placement) :
  forall page0 cursor, margin <= cursor -> chain margin limit page0 cursor ps ->
  forall k prev p, nth_error ps k = Some prev -> nth_error ps (S k) = Some p ->
    follows margin limit (onPage prev) (top prev + advance prev) p
    /\ margin < top prev + advance prev.
Proof.
  induction ps as [|hd rest IH]; intros page0 cursor Hc Hchain k prev p Hprev Hp.
  - destruct k; discriminate.
  - destruct Hchain as (Hf & Hres & Hadv & Hrest).
    pose proof (follows_top _ _ _ Hc Hf) as Htop.
    destruct k as [|k]; cbn in Hprev, Hp.
    + injection Hprev as <-. destruct rest as [|p' rest']; [discriminate|].
      cbn in Hp. injection Hp as <-. destruct Hrest as (Hf' & _). split; [exact Hf'|].
      lra.
    + apply (IH (onPage hd) (top hd + advance hd)) with (k := k);
        [lra|exact Hrest|exact Hprev|exact Hp].
Qed.

End RuleFacts.

Lemma scaled_height_nonneg (usableWidth : Q) (canvas : Canvas) :
  0 <= usableWidth -> (0 < width canvas)%Z -> (0 <= height canvas)%Z ->
  0 <= (inject_Z (height canvas) / inject_Z (width canvas)) * usableWidth.
Proof.
  intros Hu Hw Hh. apply Qmult_le_0_compat; [|exact Hu].
  apply Qle_shift_div_l.
  - change 0 with (inject_Z 0). now rewrite <- Zlt_Qlt.
  - rewrite Qmult_0_l. change 0 with (inject_Z 0). now rewrite <- Zle_Qle.
Qed.

Section ExportServiceFacts.

Import ExportService.

Variable pdfWidth pdfHeight : Q.
Hypothesis wide : 30 <= pdfWidth.

Lemma renderBlocks_chain (contentBlocks : list Html2canvasResult) :
  Forall renders contentBlocks ->
  forall page currentY, margin <= currentY ->
    snd (renderBlocks pdfWidth pdfHeight contentBlocks page currentY) = None
    /\ chain margin (usableHeightMM pdfHeight + margin) page currentY
         (map placementOfImage
            (images (fst (renderBlocks pdfWidth pdfHeight contentBlocks page currentY))))
    /\ Forall2 (imageOf pdfWidth) contentBlocks
         (images (fst (renderBlocks pdfWidth pdfHeight contentBlocks page currentY))).
Proof.
  induction 1 as [|block rest (canvas & -> & Hw & Hh) _ IH]; intros page currentY Hc.
  - cbn. repeat split. constructor.
  - cbn [renderBlocks].
    assert (Hheight : 0 <= elementHeightMM pdfWidth canvas).
    { apply scaled_height_nonneg; [|exact Hw|exact Hh].
      unfold usableWidthMM, margin. lra. }
    destruct (Qgtb currentY margin
              && Qgtb (currentY + elementHeightMM pdfWidth canvas)
                   (usableHeightMM pdfHeight + margin)) eqn:Ebreak.
    + apply andb_true_iff in Ebreak. destruct Ebreak as [E1 E2].
      apply Qgtb_true in E1, E2.
      destruct (IH (S page) (margin + elementHeightMM pdfWidth canvas + 2))
        as (Hnone & Hchain & Hall); [lra|].
      destruct (renderBlocks pdfWidth pdfHeight rest (S page)
                  (margin + elementHeightMM pdfWidth canvas + 2)) as [pdf thrown].
      cbn [fst snd images map chain] in *. split; [exact Hnone|]. split.
      * split; [|split; [exact Hheight|split; [cbn; lra|]]].
        -- right. cbn. split; [reflexivity|split; [reflexivity|exact E2]].
        -- cbn. eapply chain_cursor; [|exact Hchain]. lra.
      * constructor; [|exact Hall]. unfold imageOf. cbn. auto.
    + apply andb_false_iff in Ebreak.
      destruct (IH page (currentY + elementHeightMM pdfWidth canvas + 2))
        as (Hnone & Hchain & Hall); [lra|].
      destruct (renderBlocks pdfWidth pdfHeight rest page
                  (currentY + elementHeightMM pdfWidth canvas + 2)) as [pdf thrown].
      cbn [fst snd images map chain] in *. split; [exact Hnone|]. split.
      * split; [|split; [exact Hheight|split; [cbn; lra|]]].
        -- left. cbn. split; [reflexivity|split; [reflexivity|]].
           destruct Ebreak as [E|E]; apply Qgtb_false in E; [now left|now right].
        -- cbn. eapply chain_cursor; [|exact Hchain]. lra.
      * constructor; [|exact Hall]. unfold imageOf. cbn. auto.
Qed.

Lemma renderBlocks_fails (contentBlocks : list Html2canvasResult) (e : JsValue) :
  In (RenderFails e) contentBlocks ->
  forall page currentY,
    snd (renderBlocks pdfWidth pdfHeight contentBlocks page currentY) <> None.
Proof.
  induction contentBlocks as [|block rest IH]; intros Hin page currentY; [destruct Hin|].
  destruct block as [canvas|e']; cbn [renderBlocks]; [|discriminate].
  destruct Hin as [Heq|Hin]; [discriminate|].
  destruct (Qgtb currentY margin && _).
  - specialize (IH Hin (S page) (margin + elementHeightMM pdfWidth canvas + 2)).
    now destruct (renderBlocks pdfWidth pdfHeight rest (S page) _).
  - specialize (IH Hin page (currentY + elementHeightMM pdfWidth canvas + 2)).
    now destruct (renderBlocks pdfWidth pdfHeight rest page _).
Qed.

End ExportServiceFacts.

Section ExportServiceHrFacts.

Import ExportServiceHr.

Variable pdfWidth pdfHeight : Q.
Hypothesis wide : 30 <= pdfWidth.

Lemma renderBlocks_chain_hr (contentBlocks : list Block) :
  Forall rendersBlock contentBlocks ->
  forall page currentY, margin <= currentY ->
    snd (renderBlocks pdfWidth pdfHeight contentBlocks page currentY) = None
    /\ chain margin (usableHeightMM pdfHeight + margin) page currentY
         (map placementOfDrawn
            (drawn (fst (renderBlocks pdfWidth pdfHeight contentBlocks page currentY))))
    /\ length (drawn (fst (renderBlocks pdfWidth pdfHeight contentBlocks page currentY)))
       = length contentBlocks.
Proof.
  induction 1 as [|block rest Hblock _ IH]; intros page currentY Hc.
  - cbn. repeat split.
  - destruct block as [|[canvas|e]]; cbn [renderBlocks].
    + destruct (Qgtb (currentY + 10) (usableHeightMM pdfHeight + margin)) eqn:Ebreak.
      * apply Qgtb_true in Ebreak.
        destruct (IH (S page) (margin + 6)) as (Hnone & Hchain & Hlen); [lra|].
        destruct (renderBlocks pdfWidth pdfHeight rest (S page) (margin + 6))
          as [pdf thrown].
        cbn [fst snd drawn map chain length] in *.
        split; [exact Hnone|]. split; [|now rewrite Hlen].
        split; [|split; [cbn; lra|split; [cbn; lra|exact Hchain]]].
        right. cbn. split; [reflexivity|split; [reflexivity|exact Ebreak]].
      * apply Qgtb_false in Ebreak.
        destruct (IH page (currentY + 6)) as (Hnone & Hchain & Hlen); [lra|].
        destruct (renderBlocks pdfWidth pdfHeight rest page (currentY + 6))
          as [pdf thrown].
        cbn [fst snd drawn map chain length] in *.
        split; [exact Hnone|]. split; [|now rewrite Hlen].
        split; [|split; [cbn; lra|split; [cbn; lra|exact Hchain]]].
        left. cbn. split; [reflexivity|split; [reflexivity|now right]].
    + destruct Hblock as (c & Hc' & Hw & Hh). injection Hc' as <-.
      assert (Hheight : 0 <= elementHeightMM pdfWidth canvas).
      { apply scaled_height_nonneg; [|exact Hw|exact Hh].
        unfold usableWidthMM, margin. lra. }
      destruct (Qgtb currentY margin
                && Qgtb (currentY + elementHeightMM pdfWidth canvas)
                     (usableHeightMM pdfHeight + margin)) eqn:Ebreak.
      * apply andb_true_iff in Ebreak. destruct Ebreak as [E1 E2].
        apply Qgtb_true in E1, E2.
        destruct (IH (S page) (margin + elementHeightMM pdfWidth canvas + 2))
          as (Hnone & Hchain & Hlen); [lra|].
        destruct (renderBlocks pdfWidth pdfHeight rest (S page)
                    (margin + elementHeightMM pdfWidth canvas + 2)) as [pdf thrown].
        cbn [fst snd drawn map chain length] in *.
        split; [exact Hnone|]. split; [|now rewrite Hlen].
        split; [|split; [exact Hheight|split; [cbn; lra|]]].
        -- right. cbn. split; [reflexivity|split; [reflexivity|exact E2]].
        -- cbn. eapply chain_cursor; [|exact Hchain]. lra.
      * apply andb_false_iff in Ebreak.
        destruct (IH page (currentY + elementHeightMM pdfWidth canvas + 2))
          as (Hnone & Hchain & Hlen); [lra|].
        destruct (renderBlocks pdfWidth pdfHeight rest page
                    (currentY + elementHeightMM pdfWidth canvas + 2)) as [pdf thrown].
        cbn [fst snd drawn map chain length] in *.
        split; [exact Hnone|]. split; [|now rewrite Hlen].
        split; [|split; [exact Hheight|split; [cbn; lra|]]].
        -- left. cbn. split; [reflexivity|split; [reflexivity|]].
           destruct Ebreak as [E|E]; apply Qgtb_false in E; [now left|now right].
        -- cbn. eapply chain_cursor; [|exact Hchain]. lra.
    + destruct Hblock as (c & Hc' & _). discriminate Hc'.
Qed.

End ExportServiceHrFacts.

(** What the rule gives for the k-th placement of a chain that starts on an
    empty page. *)
Lemma chain_invariant (margin limit : Q) (ps : list Placement) (page0 : nat) :
  chain margin limit page0 margin ps ->
  forall k p, nth_error ps k = Some p -> cursorInvariant margin limit ps k p.
Proof.
  intros Hchain k p Hk. split.
  - destruct (chain_placement margin limit ps page0 margin (Qle_refl _) Hchain k p Hk)
      as [(Ht & Hearlier & _)|(Ht & Hfit & [(Hlt & _)|(j & q & Hj & Hq & Hp)])].
    + left. split; [|exact Ht]. intros j q Hj Hq. specialize (Hearlier j q Hj Hq). lia.
    + lra.
    + right. split; [|split; [exact Ht|exact Hfit]].
      intros Hfirst. now apply (Hfirst j q Hj Hq).
  - intros prev Hprev Hk1.
    destruct k as [|k]; [lia|]. cbn in Hprev. rewrite Nat.sub_0_r in Hprev.
    destruct (chain_consecutive margin limit ps page0 margin (Qle_refl _) Hchain
                k prev p Hprev Hk) as [Hf Hcur].
    split; [exact Hcur|].
    destruct Hf as [(Hp & Ht & [Hfit|Hfit])|(Hp & Ht & Hover)].
    + lra.
    + split; [intros Hover; lra|]. intros _. now split.
    + split; [intros _; now split|]. intros Hfit. lra.
Qed.

Lemma chain_limit (margin limit limit' : Q) (ps : list Placement) :
  limit == limit' ->
  forall page0 cursor,
    chain margin limit page0 cursor ps -> chain margin limit' page0 cursor ps.
Proof.
  intros Heq. induction ps as [|p rest IH]; intros page0 cursor; [trivial|].
  intros (Hf & Hres & Hadv & Hrest).
  split; [|split; [exact Hres|split; [exact Hadv|now apply IH]]].
  destruct Hf as [(Hp & Ht & Hfit)|(Hp & Ht & Hover)].
  - left. split; [exact Hp|]. split; [exact Ht|]. destruct Hfit; [left|right]; lra.
  - right. split; [exact Hp|]. split; [exact Ht|lra].
Qed.

(** After a placement that leaves the cursor past the limit, everything
    goes to later pages. *)
Lemma chain_later (margin limit : Q) (ps : list Placement) :
  forall page0 cursor, margin <= cursor -> chain margin limit page0 cursor ps ->
  forall k p, nth_error ps k = Some p -> limit < top p + advance p ->
  forall j q, (k < j)%nat -> nth_error ps j = Some q -> (onPage p < onPage q)%nat.
Proof.
  induction ps as [|hd rest IH]; intros page0 cursor Hc Hchain k p Hk Hpast j q Hj Hq.
  - destruct k; discriminate.
  - destruct Hchain as (Hf & Hres & Hadv & Hrest).
    pose proof (follows_top _ _ _ _ _ Hc Hf) as Htop.
    destruct j as [|j]; [lia|]. cbn in Hq.
    destruct k as [|k]; cbn in Hk.
    + injection Hk as <-.
      apply (chain_beyond margin limit rest (onPage hd) (top hd + advance hd))
        with (k := j); [lra|exact Hpast|exact Hrest|exact Hq].
    + apply (IH (onPage hd) (top hd + advance hd)) with (k := k) (j := j);
        [lra|exact Hrest|exact Hk|exact Hpast|lia|exact Hq].
Qed.

Lemma Forall2_nth_error_r {A B : Type} (R : A -> B -> Prop) (l : list A) (l' : list B) :
  Forall2 R l l' ->
  forall k b, nth_error l' k = Some b -> exists a, nth_error l k = Some a /\ R a b.
Proof.
  induction 1 as [|a b' l l' Hab _ IH]; intros k b Hk.
  - destruct k; discriminate.
  - destruct k as [|k]; cbn in Hk.
    + injection Hk as <-. now exists a.
    + apply (IH k b Hk).
Qed.

Lemma exportToPdf_saves (pdfWidth pdfHeight : Q)
    (found : list Html2canvasResult) (whole : Html2canvasResult) (filename : string) :
  30 <= pdfWidth ->
  Forall renders (ExportService.contentBlocksOf found whole) ->
  exists pdf,
    ExportService.exportToPdf pdfWidth pdfHeight found whole filename
    = Saved (filename ++ ".pdf")%string pdf
    /\ chain ExportService.margin
         (ExportService.usableHeightMM pdfHeight + ExportService.margin)
         1 ExportService.margin (map placementOfImage (ExportService.images pdf))
    /\ Forall2 (imageOf pdfWidth) (ExportService.contentBlocksOf found whole)
         (ExportService.images pdf).
Proof.
  intros Hwide Hall. unfold ExportService.exportToPdf.
  destruct (renderBlocks_chain pdfWidth pdfHeight Hwide _ Hall 1 ExportService.margin)
    as (Hnone & Hchain & Himages); [apply Qle_refl|].
  destruct (ExportService.renderBlocks pdfWidth pdfHeight
              (ExportService.contentBlocksOf found whole) 1 ExportService.margin)
    as [pdf thrown].
  cbn [fst snd] in *. subst thrown. now exists pdf.
Qed.

Lemma exportToPdf_hr_saves (pdfWidth pdfHeight : Q)
    (found : list ExportServiceHr.Block) (wrapper : Html2canvasResult)
    (filename : string) :
  30 <= pdfWidth ->
  Forall rendersBlock (ExportServiceHr.contentBlocksOf found wrapper) ->
  exists pdf,
    ExportServiceHr.exportToPdf pdfWidth pdfHeight found wrapper filename
    = Saved (filename ++ ".pdf")%string pdf
    /\ chain ExportServiceHr.margin
         (ExportServiceHr.usableHeightMM pdfHeight + ExportServiceHr.margin)
         1 ExportServiceHr.margin (map placementOfDrawn (ExportServiceHr.drawn pdf)).
Proof.
  intros Hwide Hall. unfold ExportServiceHr.exportToPdf.
  destruct (renderBlocks_chain_hr pdfWidth pdfHeight Hwide _ Hall 1 ExportServiceHr.margin)
    as (Hnone & Hchain & _); [apply Qle_refl|].
  destruct (ExportServiceHr.renderBlocks pdfWidth pdfHeight
              (ExportServiceHr.contentBlocksOf found wrapper) 1 ExportServiceHr.margin)
    as [pdf thrown].
  cbn [fst snd] in *. subst thrown. now exists pdf.
Qed.

(** C6: on a page of usable height 267 mm, three blocks that scale to
    100 mm each give a document of exactly two pages: the first two blocks
    on page 1, at 15 mm and 117 mm, and the third alone on page 2, at
    15 mm. *)
Theorem three_blocks_of_100mm_make_two_pages
    (pdfWidth pdfHeight : Q) (c1 c2 c3 : Canvas) (whole : Html2canvasResult)
    (filename : string) :
  pdfHeight == 297 ->
  ExportService.elementHeightMM pdfWidth c1 == 100 ->
  ExportService.elementHeightMM pdfWidth c2 == 100 ->
  ExportService.elementHeightMM pdfWidth c3 == 100 ->
  ExportService.usableHeightMM pdfHeight == 267
  /\ ExportService.margin + ExportService.elementHeightMM pdfWidth c1 + 2 == 117
  /\ ExportService.exportToPdf pdfWidth pdfHeight
       [Rendered c1; Rendered c2; Rendered c3] whole filename
     = Saved (filename ++ ".pdf")%string
         {| ExportService.numberOfPages := 2;
            ExportService.images :=
              [ {| ExportService.imgData := c1; ExportService.page := 1;
                   ExportService.x := ExportService.margin;
                   ExportService.y := ExportService.margin;
                   ExportService.w := ExportService.usableWidthMM pdfWidth;
                   ExportService.h := ExportService.elementHeightMM pdfWidth c1 |};
                {| ExportService.imgData := c2; ExportService.page := 1;
                   ExportService.x := ExportService.margin;
                   ExportService.y :=
                     ExportService.margin
                     + ExportService.elementHeightMM pdfWidth c1 + 2;
                   ExportService.w := ExportService.usableWidthMM pdfWidth;
                   ExportService.h := ExportService.elementHeightMM pdfWidth c2 |};
                {| ExportService.imgData := c3; ExportService.page := 2;
                   ExportService.x := ExportService.margin;
                   ExportService.y := ExportService.margin;
                   ExportService.w := ExportService.usableWidthMM pdfWidth;
                   ExportService.h := ExportService.elementHeightMM pdfWidth c3 |} ] |}.
Proof.
  intros Hpage H1 H2 H3.
  assert (Husable : ExportService.usableHeightMM pdfHeight == 267)
    by (unfold ExportService.usableHeightMM, ExportService.margin; lra).
  split; [exact Husable|]. split; [unfold ExportService.margin; lra|].
  unfold ExportService.exportToPdf, ExportService.contentBlocksOf.
  cbn [ExportService.renderBlocks].
  assert (E1 : Qgtb ExportService.margin ExportService.margin = false)
    by (apply Qgtb_false, Qle_refl).
  assert (E2 : Qgtb (ExportService.margin + ExportService.elementHeightMM pdfWidth c1 + 2)
                 ExportService.margin = true)
    by (apply Qgtb_true; unfold ExportService.margin; lra).
  assert (E3 : Qgtb (ExportService.margin + ExportService.elementHeightMM pdfWidth c1 + 2
                     + ExportService.elementHeightMM pdfWidth c2)
                 (ExportService.usableHeightMM pdfHeight + ExportService.margin) = false)
    by (apply Qgtb_false; unfold ExportService.margin in *; lra).
  assert (E4 : Qgtb (ExportService.margin + ExportService.elementHeightMM pdfWidth c1 + 2
                     + ExportService.elementHeightMM pdfWidth c2 + 2)
                 ExportService.margin = true)
    by (apply Qgtb_true; unfold ExportService.margin; lra).
  assert (E5 : Qgtb (ExportService.margin + ExportService.elementHeightMM pdfWidth c1 + 2
                     + ExportService.elementHeightMM pdfWidth c2 + 2
                     + ExportService.elementHeightMM pdfWidth c3)
                 (ExportService.usableHeightMM pdfHeight + ExportService.margin) = true)
    by (apply Qgtb_true; unfold ExportService.margin in *; lra).
  rewrite E1. cbn [andb]. rewrite E2, E3. cbn [andb]. rewrite E4, E5. cbn [andb].
  reflexivity.
Qed.

Lemma three_blocks_of_100mm_make_two_pages_witness :
  exists pdf,
    ExportService.exportToPdf 210 297
      [Rendered canvas100; Rendered canvas100; Rendered canvas100]
      (Rendered canvas100) "notes"
    = Saved "notes.pdf" pdf
    /\ ExportService.numberOfPages pdf = 2%nat
    /\ map ExportService.page (ExportService.images pdf) = [1; 1; 2]%nat.
Proof.
  destruct (three_blocks_of_100mm_make_two_pages 210 297 canvas100 canvas100 canvas100
              (Rendered canvas100) "notes") as (_ & _ & Hsaved);
    try reflexivity.
  eexists. split; [exact Hsaved|]. split; reflexivity.
Defined.

(** C7: when every block is rendered, the export ends with a saved
    document in which each block is one image, in order, unsplit and at its
    full scaled height; an image taller than the usable height of the page
    is at (margin, margin), reaches below the bottom margin, and no other
    image is on its page. *)
Theorem oversized_block_alone_on_its_page
    (pdfWidth pdfHeight : Q) (found : list Html2canvasResult)
    (whole : Html2canvasResult) (filename : string) :
  30 <= pdfWidth ->
  Forall renders (ExportService.contentBlocksOf found whole) ->
  exists pdf,
    ExportService.exportToPdf pdfWidth pdfHeight found whole filename
    = Saved (filename ++ ".pdf")%string pdf
    /\ Forall2 (imageOf pdfWidth) (ExportService.contentBlocksOf found whole)
         (ExportService.images pdf)
    /\ forall k image,
         nth_error (ExportService.images pdf) k = Some image ->
         ExportService.usableHeightMM pdfHeight < ExportService.h image ->
         ExportService.x image = ExportService.margin
         /\ ExportService.y image == ExportService.margin
         /\ pdfHeight - ExportService.margin
            < ExportService.y image + ExportService.h image
         /\ forall j other,
              j <> k -> nth_error (ExportService.images pdf) j = Some other ->
              ExportService.page other <> ExportService.page image.
Proof.
  intros Hwide Hall.
  destruct (exportToPdf_saves pdfWidth pdfHeight found whole filename Hwide Hall)
    as (pdf & Hsaved & Hchain & Himages).
  exists pdf. split; [exact Hsaved|]. split; [exact Himages|].
  intros k image Hk Htall.
  assert (Hp : nth_error (map placementOfImage (ExportService.images pdf)) k
               = Some (placementOfImage image)) by now rewrite nth_error_map, Hk.
  destruct (Forall2_nth_error_r _ _ _ Himages k image Hk) as (block & _ & _ & Hx & _).
  split; [exact Hx|].
  destruct (chain_placement _ _ _ 1%nat ExportService.margin (Qle_refl _) Hchain
              k _ Hp) as [(Ht & Hearlier & _)|(Ht & Hfit & _)]; cbn in *; [|lra].
  split; [exact Ht|].
  split; [unfold ExportService.usableHeightMM, ExportService.margin in *; lra|].
  intros j other Hj Hother.
  assert (Hq : nth_error (map placementOfImage (ExportService.images pdf)) j
               = Some (placementOfImage other)) by now rewrite nth_error_map, Hother.
  destruct (Nat.lt_gt_cases j k) as [Hcases _]. destruct (Hcases Hj) as [Hlt|Hgt].
  - specialize (Hearlier j _ Hlt Hq). cbn in Hearlier. lia.
  - pose proof (chain_later _ _ _ 1%nat ExportService.margin (Qle_refl _) Hchain
                  k _ Hp) as Hlater.
    cbn in Hlater. specialize (Hlater ltac:(lra) j _ Hgt Hq). cbn in Hlater. lia.
Qed.

Lemma oversized_block_alone_on_its_page_witness :
  exists pdf,
    ExportService.exportToPdf 210 297
      [Rendered canvas100; Rendered canvas300; Rendered canvas100]
      (Rendered canvas100) "notes"
    = Saved "notes.pdf" pdf
    /\ map ExportService.page (ExportService.images pdf) = [1; 2; 3]%nat
    /\ forall k image,
         nth_error (ExportService.images pdf) k = Some image ->
         ExportService.usableHeightMM 297 < ExportService.h image ->
         ExportService.x image = ExportService.margin
         /\ ExportService.y image == ExportService.margin
         /\ 297 - ExportService.margin
            < ExportService.y image + ExportService.h image
         /\ forall j other,
              j <> k -> nth_error (ExportService.images pdf) j = Some other ->
              ExportService.page other <> ExportService.page image.
Proof.
  destruct (oversized_block_alone_on_its_page 210 297
              [Rendered canvas100; Rendered canvas300; Rendered canvas100]
              (Rendered canvas100) "notes") as (pdf & Hsaved & _ & Halone).
  - discriminate.
  - repeat constructor; eexists; (split; [reflexivity|split; [reflexivity|discriminate]]).
  - exists pdf. split; [exact Hsaved|]. split; [|exact Halone].
    vm_compute in Hsaved. injection Hsaved as <-. reflexivity.
Defined.

Lemma last_cons {A : Type} (l : list A) :
  forall a d, last (a :: l) d = last l a.
Proof.
  induction l as [|x l IH]; intros a d; [reflexivity|].
  change (last (a :: x :: l) d) with (last (x :: l) d). now rewrite !IH.
Qed.

(** The document has the pages of its placements: the current page after
    the loop is the page of the last block placed. *)
Lemma renderBlocks_last_page (pdfWidth pdfHeight : Q)
    (contentBlocks : list Html2canvasResult) :
  forall page currentY,
    snd (ExportService.renderBlocks pdfWidth pdfHeight contentBlocks page currentY) = None ->
    ExportService.numberOfPages
      (fst (ExportService.renderBlocks pdfWidth pdfHeight contentBlocks page currentY))
    = last (map ExportService.page
              (ExportService.images
                 (fst (ExportService.renderBlocks pdfWidth pdfHeight contentBlocks
                         page currentY))))
        page.
Proof.
  induction contentBlocks as [|block rest IH]; intros page currentY; [reflexivity|].
  destruct block as [canvas|e]; cbn [ExportService.renderBlocks]; [|discriminate].
  destruct (Qgtb currentY ExportService.margin && _).
  - specialize (IH (S page)
                  (ExportService.margin + ExportService.elementHeightMM pdfWidth canvas + 2)).
    destruct (ExportService.renderBlocks pdfWidth pdfHeight rest (S page) _)
      as [pdf thrown].
    cbn [fst snd ExportService.numberOfPages ExportService.images map] in *.
    intros Hnone. now rewrite (IH Hnone), last_cons.
  - specialize (IH page (currentY + ExportService.elementHeightMM pdfWidth canvas + 2)).
    destruct (ExportService.renderBlocks pdfWidth pdfHeight rest page _)
      as [pdf thrown].
    cbn [fst snd ExportService.numberOfPages ExportService.images map] in *.
    intros Hnone. now rewrite (IH Hnone), last_cons.
Qed.

Lemma renderBlocks_hr_last_page (pdfWidth pdfHeight : Q)
    (contentBlocks : list ExportServiceHr.Block) :
  forall page currentY,
    snd (ExportServiceHr.renderBlocks pdfWidth pdfHeight contentBlocks page currentY)
    = None ->
    ExportServiceHr.numberOfPages
      (fst (ExportServiceHr.renderBlocks pdfWidth pdfHeight contentBlocks page currentY))
    = last (map fst
              (ExportServiceHr.drawn
                 (fst (ExportServiceHr.renderBlocks pdfWidth pdfHeight contentBlocks
                         page currentY))))
        page.
Proof.
  induction contentBlocks as [|block rest IH]; intros page currentY; [reflexivity|].
  destruct block as [|[canvas|e]]; cbn [ExportServiceHr.renderBlocks]; [| |discriminate].
  - destruct (Qgtb (currentY + 10) _).
    + specialize (IH (S page) (ExportServiceHr.margin + 6)).
      destruct (ExportServiceHr.renderBlocks pdfWidth pdfHeight rest (S page) _)
        as [pdf thrown].
      cbn [fst snd ExportServiceHr.numberOfPages ExportServiceHr.drawn map] in *.
      intros Hnone. now rewrite (IH Hnone), last_cons.
    + specialize (IH page (currentY + 6)).
      destruct (ExportServiceHr.renderBlocks pdfWidth pdfHeight rest page _)
        as [pdf thrown].
      cbn [fst snd ExportServiceHr.numberOfPages ExportServiceHr.drawn map] in *.
      intros Hnone. now rewrite (IH Hnone), last_cons.
  - destruct (Qgtb currentY ExportServiceHr.margin && _).
    + specialize (IH (S page)
                    (ExportServiceHr.margin
                     + ExportServiceHr.elementHeightMM pdfWidth canvas + 2)).
      destruct (ExportServiceHr.renderBlocks pdfWidth pdfHeight rest (S page) _)
        as [pdf thrown].
      cbn [fst snd ExportServiceHr.numberOfPages ExportServiceHr.drawn map] in *.
      intros Hnone. now rewrite (IH Hnone), last_cons.
    + specialize (IH page
                    (currentY + ExportServiceHr.elementHeightMM pdfWidth canvas + 2)).
      destruct (ExportServiceHr.renderBlocks pdfWidth pdfHeight rest page _)
        as [pdf thrown].
      cbn [fst snd ExportServiceHr.numberOfPages ExportServiceHr.drawn map] in *.
      intros Hnone. now rewrite (IH Hnone), last_cons.
Qed.

(** The first block goes to the top margin of the first page: for an image
    the page is empty, and an [<hr>] fits when the page is 40 mm high. *)
Lemma renderBlocks_first_page (pdfWidth pdfHeight : Q)
    (contentBlocks : list Html2canvasResult) (page : nat) (p : Placement) :
  hd_error
    (map placementOfImage
       (ExportService.images
          (fst (ExportService.renderBlocks pdfWidth pdfHeight contentBlocks page
                  ExportService.margin))))
  = Some p ->
  onPage p = page /\ top p == ExportService.margin.
Proof.
  destruct contentBlocks as [|[canvas|e] rest]; cbn [ExportService.renderBlocks];
    [discriminate| |discriminate].
  replace (Qgtb ExportService.margin ExportService.margin) with false
    by (symmetry; apply Qgtb_false, Qle_refl).
  cbn [andb].
  destruct (ExportService.renderBlocks pdfWidth pdfHeight rest page _) as [pdf thrown].
  cbn. intros [= <-]. split; reflexivity.
Qed.

Lemma renderBlocks_hr_first_page (pdfWidth pdfHeight : Q)
    (contentBlocks : list ExportServiceHr.Block) (page : nat) (p : Placement) :
  40 <= pdfHeight ->
  hd_error
    (map placementOfDrawn
       (ExportServiceHr.drawn
          (fst (ExportServiceHr.renderBlocks pdfWidth pdfHeight contentBlocks page
                  ExportServiceHr.margin))))
  = Some p ->
  onPage p = page /\ top p == ExportServiceHr.margin.
Proof.
  intros Hhigh.
  destruct contentBlocks as [|[|[canvas|e]] rest]; cbn [ExportServiceHr.renderBlocks];
    [discriminate| | |discriminate].
  - replace (Qgtb (ExportServiceHr.margin + 10)
               (ExportServiceHr.usableHeightMM pdfHeight + ExportServiceHr.margin))
      with false.
    + destruct (ExportServiceHr.renderBlocks pdfWidth pdfHeight rest page _)
        as [pdf thrown].
      cbn. intros [= <-]. split; reflexivity.
    + symmetry. apply Qgtb_false.
      unfold ExportServiceHr.usableHeightMM, ExportServiceHr.margin. lra.
  - replace (Qgtb ExportServiceHr.margin ExportServiceHr.margin) with false
      by (symmetry; apply Qgtb_false, Qle_refl).
    cbn [andb].
    destruct (ExportServiceHr.renderBlocks pdfWidth pdfHeight rest page _)
      as [pdf thrown].
    cbn. intros [= <-]. split; reflexivity.
Qed.

(** What the later revision draws for the blocks, in order. *)
Lemma renderBlocks_hr_drawn (pdfWidth pdfHeight : Q)
    (contentBlocks : list ExportServiceHr.Block) :
  Forall rendersBlock contentBlocks ->
  forall page currentY,
    Forall2 (drawnOf pdfWidth) contentBlocks
      (ExportServiceHr.drawn
         (fst (ExportServiceHr.renderBlocks pdfWidth pdfHeight contentBlocks
                 page currentY))).
Proof.
  induction 1 as [|block rest Hblock _ IH]; intros page currentY; [constructor|].
  destruct block as [|[canvas|e]]; cbn [ExportServiceHr.renderBlocks].
  - destruct (Qgtb (currentY + 10) _).
    + specialize (IH (S page) (ExportServiceHr.margin + 6)).
      destruct (ExportServiceHr.renderBlocks pdfWidth pdfHeight rest (S page) _).
      constructor; [cbn; auto|exact IH].
    + specialize (IH page (currentY + 6)).
      destruct (ExportServiceHr.renderBlocks pdfWidth pdfHeight rest page _).
      constructor; [cbn; auto|exact IH].
  - destruct (Qgtb currentY ExportServiceHr.margin && _).
    + specialize (IH (S page)
                    (ExportServiceHr.margin
                     + ExportServiceHr.elementHeightMM pdfWidth canvas + 2)).
      destruct (ExportServiceHr.renderBlocks pdfWidth pdfHeight rest (S page) _).
      constructor; [cbn; auto|exact IH].
    + specialize (IH page
                    (currentY + ExportServiceHr.elementHeightMM pdfWidth canvas + 2)).
      destruct (ExportServiceHr.renderBlocks pdfWidth pdfHeight rest page _).
      constructor; [cbn; auto|exact IH].
  - destruct Hblock as (c & Hc & _). discriminate Hc.
Qed.

(** C8: in both revisions of the export, when every block is rendered the
    document is saved with one placement for each block, in order, at the
    height of the block (for an [<hr>], the line, checked against 10 mm); the
    first block is placed at the top margin of page 1 (in the later
    revision, on a page at least 40 mm high); at every placement either the
    page is empty and the cursor is at the top margin, or the page is not
    empty and the cursor plus the height to place is at most
    [pageHeight - margin]; a block that would pass that limit at the cursor
    of a page that is not empty is placed at the top margin of a new page,
    and another at the cursor on the same page; and the document has the
    pages so started, up to the page of the last placement. *)
Theorem pagination_cursor_invariant (pdfWidth pdfHeight : Q) :
  30 <= pdfWidth ->
  (forall found whole filename,
     Forall renders (ExportService.contentBlocksOf found whole) ->
     exists pdf,
       ExportService.exportToPdf pdfWidth pdfHeight found whole filename
       = Saved (filename ++ ".pdf")%string pdf
       /\ Forall2 (imageOf pdfWidth) (ExportService.contentBlocksOf found whole)
            (ExportService.images pdf)
       /\ (forall p,
             hd_error (map placementOfImage (ExportService.images pdf)) = Some p ->
             onPage p = 1%nat /\ top p == ExportService.margin)
       /\ (forall k p,
             nth_error (map placementOfImage (ExportService.images pdf)) k = Some p ->
             cursorInvariant ExportService.margin (pdfHeight - ExportService.margin)
               (map placementOfImage (ExportService.images pdf)) k p)
       /\ ExportService.numberOfPages pdf
          = last (map ExportService.page (ExportService.images pdf)) 1%nat)
  /\ (forall found wrapper filename,
        Forall rendersBlock (ExportServiceHr.contentBlocksOf found wrapper) ->
        exists pdf,
          ExportServiceHr.exportToPdf pdfWidth pdfHeight found wrapper filename
          = Saved (filename ++ ".pdf")%string pdf
          /\ Forall2 (drawnOf pdfWidth) (ExportServiceHr.contentBlocksOf found wrapper)
               (ExportServiceHr.drawn pdf)
          /\ (40 <= pdfHeight ->
              forall p,
                hd_error (map placementOfDrawn (ExportServiceHr.drawn pdf)) = Some p ->
                onPage p = 1%nat /\ top p == ExportServiceHr.margin)
          /\ (forall k p,
                nth_error (map placementOfDrawn (ExportServiceHr.drawn pdf)) k = Some p ->
                cursorInvariant ExportServiceHr.margin
                  (pdfHeight - ExportServiceHr.margin)
                  (map placementOfDrawn (ExportServiceHr.drawn pdf)) k p)
          /\ ExportServiceHr.numberOfPages pdf
             = last (map fst (ExportServiceHr.drawn pdf)) 1%nat).
Proof.
  intros Hwide. split.
  - intros found whole filename Hall.
    destruct (exportToPdf_saves pdfWidth pdfHeight found whole filename Hwide Hall)
      as (pdf & Hsaved & Hchain & Himages).
    exists pdf. split; [exact Hsaved|]. split; [exact Himages|].
    pose proof (renderBlocks_last_page pdfWidth pdfHeight
                  (ExportService.contentBlocksOf found whole) 1%nat
                  ExportService.margin) as Hlast.
    pose proof (renderBlocks_first_page pdfWidth pdfHeight
                  (ExportService.contentBlocksOf found whole) 1%nat) as Hfirst.
    unfold ExportService.exportToPdf in Hsaved.
    destruct (ExportService.renderBlocks pdfWidth pdfHeight
                (ExportService.contentBlocksOf found whole) 1 ExportService.margin)
      as [pdf' [thrown|]]; [discriminate Hsaved|].
    injection Hsaved as <-. cbn [fst snd] in *.
    split; [exact Hfirst|]. split; [|exact (Hlast eq_refl)].
    intros k p Hk. apply (chain_invariant _ _ _ 1%nat); [|exact Hk].
    eapply chain_limit; [|exact Hchain].
    unfold ExportService.usableHeightMM, ExportService.margin. lra.
  - intros found wrapper filename Hall.
    destruct (exportToPdf_hr_saves pdfWidth pdfHeight found wrapper filename Hwide Hall)
      as (pdf & Hsaved & Hchain).
    exists pdf. split; [exact Hsaved|].
    pose proof (renderBlocks_hr_drawn pdfWidth pdfHeight _ Hall 1%nat
                  ExportServiceHr.margin) as Hdrawn.
    pose proof (renderBlocks_hr_last_page pdfWidth pdfHeight
                  (ExportServiceHr.contentBlocksOf found wrapper) 1%nat
                  ExportServiceHr.margin) as Hlast.
    pose proof (renderBlocks_hr_first_page pdfWidth pdfHeight
                  (ExportServiceHr.contentBlocksOf found wrapper) 1%nat) as Hfirst.
    unfold ExportServiceHr.exportToPdf in Hsaved.
    destruct (ExportServiceHr.renderBlocks pdfWidth pdfHeight
                (ExportServiceHr.contentBlocksOf found wrapper) 1 ExportServiceHr.margin)
      as [pdf' [thrown|]]; [discriminate Hsaved|].
    injection Hsaved as <-. cbn [fst snd] in *.
    split; [exact Hdrawn|].
    split; [intros Hhigh p; now apply Hfirst|]. split; [|exact (Hlast eq_refl)].
    intros k p Hk. apply (chain_invariant _ _ _ 1%nat); [|exact Hk].
    eapply chain_limit; [|exact Hchain].
    unfold ExportServiceHr.usableHeightMM, ExportServiceHr.margin. lra.
Qed.

Lemma pagination_cursor_invariant_witness :
  (exists pdf,
     ExportService.exportToPdf 210 297
       [Rendered canvas100; Rendered canvas100; Rendered canvas100]
       (Rendered canvas100) "notes"
     = Saved "notes.pdf" pdf
     /\ map ExportService.page (ExportService.images pdf) = [1; 1; 2]%nat
     /\ Forall2 (imageOf 210)
          [Rendered canvas100; Rendered canvas100; Rendered canvas100]
          (ExportService.images pdf)
     /\ (forall k p,
           nth_error (map placementOfImage (ExportService.images pdf)) k = Some p ->
           cursorInvariant ExportService.margin (297 - ExportService.margin)
             (map placementOfImage (ExportService.images pdf)) k p)
     /\ ExportService.numberOfPages pdf = 2%nat)
  /\ (exists pdf,
        ExportServiceHr.exportToPdf 210 297 headingRuleBlock (Rendered canvas100) "notes"
        = Saved "notes.pdf" pdf
        /\ map fst (ExportServiceHr.drawn pdf) = [1; 1; 1]%nat
        /\ Forall2 (drawnOf 210) headingRuleBlock (ExportServiceHr.drawn pdf)
        /\ (forall k p,
              nth_error (map placementOfDrawn (ExportServiceHr.drawn pdf)) k = Some p ->
              cursorInvariant ExportServiceHr.margin (297 - ExportServiceHr.margin)
                (map placementOfDrawn (ExportServiceHr.drawn pdf)) k p)).
Proof.
  destruct (pagination_cursor_invariant 210 297) as [Himages Hdrawn]; [discriminate|].
  split.
  - destruct (Himages [Rendered canvas100; Rendered canvas100; Rendered canvas100]
                (Rendered canvas100) "notes"%string)
      as (pdf & Hsaved & Hall & _ & Hinv & Hpages).
    + repeat constructor; eexists; (split; [reflexivity|split; [reflexivity|discriminate]]).
    + exists pdf. split; [exact Hsaved|].
      assert (Hpage : map ExportService.page (ExportService.images pdf) = [1; 1; 2]%nat).
      { vm_compute in Hsaved. injection Hsaved as <-. reflexivity. }
      split; [exact Hpage|]. split; [exact Hall|]. split; [exact Hinv|].
      rewrite Hpages, Hpage. reflexivity.
  - destruct (Hdrawn headingRuleBlock (Rendered canvas100) "notes"%string)
      as (pdf & Hsaved & Hall & _ & Hinv & _).
    + repeat constructor; eexists; (split; [reflexivity|split; [reflexivity|discriminate]]).
    + exists pdf. split; [exact Hsaved|]. split; [|split; [exact Hall|exact Hinv]].
      vm_compute in Hsaved. injection Hsaved as <-. reflexivity.
Defined.

(** C9: when html2canvas rejects for one of the blocks, the export ends in
    the alert of the [catch] clause: [pdf.save] is not reached and nothing of
    the document built so far is written. *)
Theorem rasterization_failure_aborts_export
    (pdfWidth pdfHeight : Q) (found : list Html2canvasResult)
    (whole : Html2canvasResult) (filename : string) (e : JsValue) :
  In (RenderFails e) (ExportService.contentBlocksOf found whole) ->
  ExportService.exportToPdf pdfWidth pdfHeight found whole filename
  = Alerted exportFailedMessage
  /\ forall saved pdf,
       ExportService.exportToPdf pdfWidth pdfHeight found whole filename
       <> Saved saved pdf.
Proof.
  intros Hin. unfold ExportService.exportToPdf.
  pose proof (renderBlocks_fails pdfWidth pdfHeight _ e Hin 1%nat ExportService.margin)
    as Hfails.
  destruct (ExportService.renderBlocks pdfWidth pdfHeight
              (ExportService.contentBlocksOf found whole) 1 ExportService.margin)
    as [pdf [thrown|]]; cbn [snd] in Hfails; [|congruence].
  split; [reflexivity|]. intros saved pdf'. discriminate.
Qed.

Lemma rasterization_failure_aborts_export_witness :
  ExportService.exportToPdf 210 297
    [Rendered canvas100; RenderFails (newError "Unable to find element in cloned iframe");
     Rendered canvas100]
    (Rendered canvas100) "notes"
  = Alerted exportFailedMessage.
Proof.
  apply (rasterization_failure_aborts_export 210 297 _ _ _
           (newError "Unable to find element in cloned iframe")).
  right. left. reflexivity.
Defined.

(** ** The structured-response parser *)

Lemma handleApiError_messages (name message : string) :
  handleApiError name message = newError serverErrorMessage
  \/ handleApiError name message = newError badRequestMessage
  \/ handleApiError name message = newError rateLimitMessage
  \/ handleApiError name message = newError apiKeyMessage
  \/ handleApiError name message = newError genericErrorMessage.
Proof.
  unfold handleApiError.
  destruct (includes _ "500" || includes _ "503" || includes _ "Rpc failed"); [tauto|].
  destruct (includes _ "400"); [tauto|].
  destruct (includes _ "429"); [tauto|].
  destruct (includes _ "API key not valid" || includes _ "API_KEY"); tauto.
Qed.

(** C5: the three reference cases of parseJsonFromResponse, and the error of
    the third: an [Error] with the message of the unexpected format, which is
    none of the errors handleApiError makes for a failure of the API. *)
Theorem parseJsonFromResponse_reference_cases :
  parseJsonFromResponse fencedJson = Some (Fulfilled (JObject [("a"%string, JNumber 1 0)]))
  /\ parseJsonFromResponse objectA1 = Some (Fulfilled (JObject [("a"%string, JNumber 1 0)]))
  /\ parseJsonFromResponse "not json" = Some (Rejected (newError malformedMessage))
  /\ forall name message, handleApiError name message <> newError malformedMessage.
Proof.
  split; [reflexivity|]. split; [reflexivity|]. split; [reflexivity|].
  intros name message H.
  destruct (handleApiError_messages name message) as [E|[E|[E|[E|E]]]];
    rewrite E in H; discriminate H.
Qed.

(** In the callers the error of parseJsonFromResponse goes through
    handleApiError like any other, which answers with its generic message. *)
Remark malformed_error_handled_as_generic :
  handleApiError "Error" malformedMessage = newError genericErrorMessage.
Proof. reflexivity. Qed.

Lemma dropPrefix_startsWith (p s : string) :
  startsWith s p = false -> dropPrefix p s = None.
Proof.
  revert s. induction p as [|c p IH]; intros s; [destruct s; discriminate|].
  destruct s as [|d s]; cbn; [reflexivity|].
  destruct (Ascii.eqb c d); [apply IH|reflexivity].
Qed.

Lemma startsWith_app (s p : string) :
  startsWith s p = true -> exists rest, s = (p ++ rest)%string.
Proof.
  revert s. induction p as [|c p IH]; intros s H.
  - now exists s.
  - destruct s as [|d s]; [discriminate H|]. cbn in H.
    destruct (Ascii.eqb_spec c d) as [<-|]; [|discriminate H].
    destruct (IH s H) as (rest & ->). now exists rest.
Qed.

Lemma dropPrefix_app (p s : string) : dropPrefix p (p ++ s)%string = Some s.
Proof.
  induction p as [|c p IH]; cbn; [reflexivity|]. now rewrite Ascii.eqb_refl.
Qed.

Lemma replaceLeadingFence_other (s : string) :
  startsWith s "```json" = false -> replaceLeadingFence s = s.
Proof. intros H. unfold replaceLeadingFence. now rewrite dropPrefix_startsWith. Qed.

Lemma replaceLeadingFence_tagged (s : string) :
  replaceLeadingFence ("```json" ++ LF ++ s)%string = s
  /\ (startsWith s LF = false -> replaceLeadingFence ("```json" ++ s)%string = s).
Proof.
  unfold replaceLeadingFence. rewrite !dropPrefix_app. split; [reflexivity|].
  intros H. now rewrite dropPrefix_startsWith.
Qed.

Lemma replaceTrailingFence_other (s : string) :
  endsWith s "```" = false -> replaceTrailingFence s = s.
Proof.
  induction s as [|c s IH]; [reflexivity|]. cbn [endsWith replaceTrailingFence].
  destruct (String.eqb (String c s) "```"); [discriminate|].
  intros H. now rewrite IH.
Qed.

Lemma length_app_string (s t : string) :
  String.length (s ++ t)%string = (String.length s + String.length t)%nat.
Proof. induction s as [|c s IH]; cbn; [reflexivity|now rewrite IH]. Qed.

Lemma replaceTrailingFence_fence (s : string) :
  replaceTrailingFence (s ++ "```")%string = s.
Proof.
  induction s as [|c s IH]; [reflexivity|].
  change (String c s ++ "```")%string with (String c (s ++ "```")%string).
  cbn [replaceTrailingFence].
  destruct (String.eqb (String c (s ++ "```")%string) "```") eqn:E.
  - apply String.eqb_eq in E. apply (f_equal String.length) in E.
    cbn in E. rewrite length_app_string in E. cbn in E. lia.
  - now rewrite IH.
Qed.

(** A text that starts with a backquote, or is empty, is not JSON. *)
Lemma JSON_parse_backquote (s : string) :
  s = EmptyString \/ (exists s', s = String "`"%char s') -> JSON_parse s = SyntaxError.
Proof.
  intros [->|(s' & ->)]; [reflexivity|].
  unfold JSON_parse, fuelFor. cbn [String.length Nat.mul Nat.add].
  rewrite Nat.add_comm. reflexivity.
Qed.

(** C10: the leading fence is removed only with its tag [json] (and one line
    feed after it), the trailing fence only as the last three characters, on
    the trimmed text; a text whose trimmed form starts with a fence without
    that tag keeps it and is rejected as malformed, as is the object wrapped
    in two bare fences, although the object alone is decoded. *)
Theorem bare_leading_fence_is_not_unwrapped :
  (forall text, cleanText text = replaceTrailingFence (replaceLeadingFence (trim text)))
  /\ (forall s, startsWith s "```json" = false -> replaceLeadingFence s = s)
  /\ (forall s, replaceLeadingFence ("```json" ++ LF ++ s)%string = s
                /\ (startsWith s LF = false ->
                    replaceLeadingFence ("```json" ++ s)%string = s))
  /\ (forall s, endsWith s "```" = false -> replaceTrailingFence s = s)
  /\ (forall s, replaceTrailingFence (s ++ "```")%string = s)
  /\ (forall text,
        startsWith (trim text) "```" = true ->
        startsWith (trim text) "```json" = false ->
        parseJsonFromResponse text = Some (Rejected (newError malformedMessage)))
  /\ cleanText fencedBare = ("```" ++ LF ++ objectA1 ++ LF)%string
  /\ parseJsonFromResponse fencedBare = Some (Rejected (newError malformedMessage))
  /\ parseJsonFromResponse objectA1
     = Some (Fulfilled (JObject [("a"%string, JNumber 1 0)])).
Proof.
  split; [reflexivity|]. split; [exact replaceLeadingFence_other|].
  split; [exact replaceLeadingFence_tagged|]. split; [exact replaceTrailingFence_other|].
  split; [exact replaceTrailingFence_fence|].
  split; [|split; [reflexivity|split; reflexivity]].
  intros text Hfence Htag. unfold parseJsonFromResponse, cleanText.
  rewrite (replaceLeadingFence_other _ Htag).
  destruct (startsWith_app _ _ Hfence) as (rest & ->).
  rewrite JSON_parse_backquote; [reflexivity|].
  change ("```" ++ rest)%string with (String "`"%char ("``" ++ rest)%string).
  cbn [replaceTrailingFence].
  destruct (String.eqb _ "```"); [now left|right; eauto].
Qed.

Lemma bare_leading_fence_is_not_unwrapped_witness :
  parseJsonFromResponse ("  ```" ++ LF ++ "[1, 2]" ++ LF ++ "```" ++ LF)%string
  = Some (Rejected (newError malformedMessage)).
Proof.
  apply (proj1 (proj2 (proj2 (proj2 (proj2 (proj2
           bare_leading_fence_is_not_unwrapped)))))); reflexivity.
Defined.

(** *** The budget of JSON_parse is enough *)

Lemma skipWs_length (s : string) : (String.length (skipWs s) <= String.length s)%nat.
Proof.
  induction s as [|c s IH]; cbn; [lia|]. destruct (isJsonWs c); cbn; lia.
Qed.

Lemma takeDigits_length (s : string) :
  forall acc count v count' rest,
    takeDigits s acc count = (v, count', rest) ->
    (String.length rest + count' = String.length s + count)%nat.
Proof.
  induction s as [|c s IH]; intros acc count v count' rest H; cbn in H.
  - injection H as _ <- <-. reflexivity.
  - destruct (isDigit c).
    + apply IH in H. cbn. lia.
    + injection H as _ <- <-. reflexivity.
Qed.

Lemma parseInt_consumes (s : string) :
  consumes (parseInt s) s /\ parseInt s <> OutOfFuel.
Proof.
  unfold parseInt. destruct s as [|c s]; [split; [exact I|discriminate]|].
  destruct (code c =? 48)%N; [split; [cbn; lia|discriminate]|].
  destruct (takeDigits (String c s) 0 0) as [[v count] rest] eqn:E.
  apply takeDigits_length in E.
  destruct count; (split; [cbn in *; try lia; exact I|discriminate]).
Qed.

Lemma parseFrac_keeps (mantissa : Z) (s : string) :
  keeps (parseFrac mantissa s) s /\ parseFrac mantissa s <> OutOfFuel.
Proof.
  unfold parseFrac. destruct s as [|c s]; [split; [cbn; lia|discriminate]|].
  destruct (code c =? 46)%N; [|split; [cbn; lia|discriminate]].
  destruct (takeDigits s mantissa 0) as [[v count] rest] eqn:E.
  apply takeDigits_length in E.
  destruct count; (split; [cbn in *; try lia; exact I|discriminate]).
Qed.

Lemma parseExp_keeps (s : string) :
  keeps (parseExp s) s /\ parseExp s <> OutOfFuel.
Proof.
  unfold parseExp. destruct s as [|c s]; [split; [cbn; lia|discriminate]|].
  destruct ((code c =? 101) || (code c =? 69))%N; [|split; [cbn; lia|discriminate]].
  assert (Hsign : forall negative s'',
            match s with
            | String d t =>
                if (code d =? 45)%N then (true, t)
                else if (code d =? 43)%N then (false, t) else (false, s)
            | EmptyString => (false, s)
            end = (negative, s'') ->
            (String.length s'' <= String.length s)%nat).
  { intros negative s'' H. destruct s as [|d t]; [now injection H as _ <-|].
    destruct (code d =? 45)%N; [injection H as _ <-; cbn; lia|].
    destruct (code d =? 43)%N; injection H as _ <-; cbn; lia. }
  destruct (match s with
            | String d t =>
                if (code d =? 45)%N then (true, t)
                else if (code d =? 43)%N then (false, t) else (false, s)
            | EmptyString => (false, s)
            end) as [negative s''] eqn:Es.
  specialize (Hsign _ _ eq_refl).
  destruct (takeDigits s'' 0 0) as [[v count] rest] eqn:E.
  apply takeDigits_length in E.
  destruct count; (split; [cbn in *; try lia; exact I|discriminate]).
Qed.

Lemma parseNumber_consumes (s : string) :
  consumes (parseNumber s) s /\ parseNumber s <> OutOfFuel.
Proof.
  unfold parseNumber.
  assert (Hsign : forall negative s1,
            match s with
            | String c s' => if (code c =? 45)%N then (true, s') else (false, s)
            | EmptyString => (false, s)
            end = (negative, s1) ->
            (String.length s1 <= String.length s)%nat).
  { intros negative s1 H. destruct s as [|c s']; [now injection H as _ <-|].
    destruct (code c =? 45)%N; injection H as _ <-; cbn; lia. }
  destruct (match s with
            | String c s' => if (code c =? 45)%N then (true, s') else (false, s)
            | EmptyString => (false, s)
            end) as [negative s1] eqn:Es.
  specialize (Hsign _ _ eq_refl).
  destruct (parseInt_consumes s1) as [Hint Hint'].
  destruct (parseInt s1) as [n s2| |]; [|split; [exact I|discriminate]|congruence].
  destruct (parseFrac_keeps n s2) as [Hfrac Hfrac'].
  destruct (parseFrac n s2) as [[m count] s3| |]; [|split; [exact I|discriminate]|congruence].
  destruct (parseExp_keeps s3) as [Hexp Hexp'].
  destruct (parseExp s3) as [e s4| |]; [|split; [exact I|discriminate]|congruence].
  split; [cbn in *; lia|discriminate].
Qed.

Lemma prepend_consumes (bytes : string) (r : parsed string) (s s' : string) :
  (String.length s' < String.length s)%nat ->
  consumes r s' /\ r <> OutOfFuel ->
  consumes (prepend bytes r) s /\ prepend bytes r <> OutOfFuel.
Proof.
  intros Hlen [Hr Hr']. destruct r as [str rest| |]; cbn in *;
    (split; [try lia; exact I|congruence]).
Qed.

Lemma parseChars_consumes (n : nat) :
  forall s pending, (String.length s <= n)%nat ->
    consumes (parseChars s pending) s /\ parseChars s pending <> OutOfFuel.
Proof.
  induction n as [|n IH]; intros s pending Hn.
  - destruct s; [split; [exact I|discriminate]|cbn in Hn; lia].
  - destruct s as [|c s1]; [split; [exact I|discriminate]|].
    cbn [parseChars]. cbn [String.length] in Hn.
    destruct (code c =? 34)%N; [split; [cbn; lia|discriminate]|].
    destruct (code c =? 92)%N.
    + destruct s1 as [|e s2]; [split; [exact I|discriminate]|].
      cbn [String.length] in Hn.
      destruct (code e =? 117)%N.
      * destruct s2 as [|h1 [|h2 [|h3 [|h4 s6]]]]; try (split; [exact I|discriminate]).
        cbn [String.length] in Hn.
        destruct (hex4 h1 h2 h3 h4) as [cu|]; [|split; [exact I|discriminate]].
        destruct (unicodeEscape pending cu) as [bytes pending'].
        apply prepend_consumes with (s' := s6); [cbn; lia|]. apply IH. lia.
      * destruct (simpleEscape e); [|split; [exact I|discriminate]].
        apply prepend_consumes with (s' := s2); [cbn; lia|]. apply IH. lia.
    + destruct (code c <? 32)%N; [split; [exact I|discriminate]|].
      apply prepend_consumes with (s' := s1); [cbn; lia|]. apply IH. lia.
Qed.

Lemma dropPrefix_length (lit s rest : string) :
  dropPrefix lit s = Some rest ->
  (String.length rest + String.length lit = String.length s)%nat.
Proof.
  revert s. induction lit as [|c lit IH]; intros s H.
  - destruct s; injection H as <-; cbn; lia.
  - destruct s as [|d s]; [discriminate H|]. cbn in H.
    destruct (Ascii.eqb c d); [|discriminate H]. apply IH in H. cbn. lia.
Qed.

Lemma parseLiteral_consumes (lit : string) (v : json) (s : string) :
  (1 <= String.length lit)%nat ->
  consumes (parseLiteral lit v s) s /\ parseLiteral lit v s <> OutOfFuel.
Proof.
  intros Hlit. unfold parseLiteral. destruct (dropPrefix lit s) as [rest|] eqn:E.
  - apply dropPrefix_length in E. split; [cbn; lia|discriminate].
  - split; [exact I|discriminate].
Qed.

(** Closes the cases where a parse fails or inherits its length bound. *)
Ltac parse_done :=
  first [ exact I | discriminate | (cbn in *; lia) ].

Lemma parse_consumes (fuel : nat) :
  (forall s, consumes (parseValue fuel s) s)
  /\ (forall s acc, consumes (parseElements fuel s acc) s)
  /\ (forall s acc, consumes (parseMembers fuel s acc) s).
Proof.
  induction fuel as [|fuel (IHv & IHe & IHm)]; [repeat split; intros; exact I|].
  split; [|split].
  - intros s. cbn [parseValue]. pose proof (skipWs_length s) as Hs.
    destruct (skipWs s) as [|c rest]; [exact I|]. cbn [String.length] in Hs.
    destruct (code c =? 123)%N.
    { pose proof (skipWs_length rest) as Hr.
      destruct (skipWs rest) as [|c' rest']; [exact I|].
      destruct (code c' =? 125)%N; [parse_done|].
      specialize (IHm (String c' rest') []).
      destruct (parseMembers fuel (String c' rest') []); parse_done. }
    destruct (code c =? 91)%N.
    { pose proof (skipWs_length rest) as Hr.
      destruct (skipWs rest) as [|c' rest']; [exact I|].
      destruct (code c' =? 93)%N; [parse_done|].
      specialize (IHe (String c' rest') []).
      destruct (parseElements fuel (String c' rest') []); parse_done. }
    destruct (code c =? 34)%N.
    { destruct (parseChars_consumes (String.length rest) rest None (Nat.le_refl _))
        as [Hc _].
      destruct (parseChars rest None); parse_done. }
    destruct (code c =? 116)%N.
    { destruct (parseLiteral_consumes "true" (JBool true) (String c rest)) as [H _];
        [cbn; lia|].
      destruct (parseLiteral "true" (JBool true) (String c rest)); parse_done. }
    destruct (code c =? 102)%N.
    { destruct (parseLiteral_consumes "false" (JBool false) (String c rest)) as [H _];
        [cbn; lia|].
      destruct (parseLiteral "false" (JBool false) (String c rest)); parse_done. }
    destruct (code c =? 110)%N.
    { destruct (parseLiteral_consumes "null" JNull (String c rest)) as [H _];
        [cbn; lia|].
      destruct (parseLiteral "null" JNull (String c rest)); parse_done. }
    destruct ((code c =? 45)%N || isDigit c); [|exact I].
    destruct (parseNumber_consumes (String c rest)) as [H _].
    destruct (parseNumber (String c rest)); parse_done.
  - intros s acc. cbn [parseElements]. specialize (IHv s).
    destruct (parseValue fuel s) as [v rest| |]; try exact I.
    pose proof (skipWs_length rest) as Hr.
    destruct (skipWs rest) as [|c rest']; [exact I|].
    destruct (code c =? 44)%N.
    { specialize (IHe rest' (acc ++ [v])).
      destruct (parseElements fuel rest' (acc ++ [v])); parse_done. }
    destruct (code c =? 93)%N; parse_done.
  - intros s acc. cbn [parseMembers]. pose proof (skipWs_length s) as Hs.
    destruct (skipWs s) as [|q s1]; [exact I|].
    destruct (code q =? 34)%N; [|exact I].
    destruct (parseChars_consumes (String.length s1) s1 None (Nat.le_refl _)) as [Hc _].
    destruct (parseChars s1 None) as [key s2| |]; try exact I.
    pose proof (skipWs_length s2) as H2.
    destruct (skipWs s2) as [|colon s3]; [exact I|].
    destruct (code colon =? 58)%N; [|exact I].
    specialize (IHv s3).
    destruct (parseValue fuel s3) as [v s4| |]; try exact I.
    pose proof (skipWs_length s4) as H4.
    destruct (skipWs s4) as [|c s5]; [exact I|].
    destruct (code c =? 44)%N.
    { specialize (IHm s5 (setMember acc key v)).
      destruct (parseMembers fuel s5 (setMember acc key v)); parse_done. }
    destruct (code c =? 125)%N; parse_done.
Qed.

Lemma parse_fuel (fuel : nat) :
  (forall s, (2 * String.length s < fuel)%nat -> parseValue fuel s <> OutOfFuel)
  /\ (forall s acc, (2 * String.length s + 1 < fuel)%nat ->
        parseElements fuel s acc <> OutOfFuel)
  /\ (forall s acc, (2 * String.length s + 1 < fuel)%nat ->
        parseMembers fuel s acc <> OutOfFuel).
Proof.
  induction fuel as [|fuel (IHv & IHe & IHm)]; [repeat split; intros; lia|].
  split; [|split].
  - intros s Hfuel. cbn [parseValue]. pose proof (skipWs_length s) as Hs.
    destruct (skipWs s) as [|c rest]; [discriminate|]. cbn [String.length] in Hs.
    destruct (code c =? 123)%N.
    { pose proof (skipWs_length rest) as Hr.
      destruct (skipWs rest) as [|c' rest']; [discriminate|].
      destruct (code c' =? 125)%N; [discriminate|]. apply IHm. cbn in *. lia. }
    destruct (code c =? 91)%N.
    { pose proof (skipWs_length rest) as Hr.
      destruct (skipWs rest) as [|c' rest']; [discriminate|].
      destruct (code c' =? 93)%N; [discriminate|]. apply IHe. cbn in *. lia. }
    destruct (code c =? 34)%N.
    { destruct (parseChars_consumes (String.length rest) rest None (Nat.le_refl _))
        as [_ Hc].
      destruct (parseChars rest None); congruence. }
    destruct (code c =? 116)%N; [apply parseLiteral_consumes; cbn; lia|].
    destruct (code c =? 102)%N; [apply parseLiteral_consumes; cbn; lia|].
    destruct (code c =? 110)%N; [apply parseLiteral_consumes; cbn; lia|].
    destruct ((code c =? 45)%N || isDigit c); [|discriminate].
    apply parseNumber_consumes.
  - intros s acc Hfuel. cbn [parseElements].
    specialize (IHv s ltac:(lia)).
    pose proof (proj1 (parse_consumes fuel) s) as Hv.
    destruct (parseValue fuel s) as [v rest| |]; [|discriminate|congruence].
    pose proof (skipWs_length rest) as Hr.
    destruct (skipWs rest) as [|c rest']; [discriminate|].
    destruct (code c =? 44)%N; [apply IHe; cbn in *; lia|].
    destruct (code c =? 93)%N; discriminate.
  - intros s acc Hfuel. cbn [parseMembers]. pose proof (skipWs_length s) as Hs.
    destruct (skipWs s) as [|q s1]; [discriminate|].
    destruct (code q =? 34)%N; [|discriminate].
    destruct (parseChars_consumes (String.length s1) s1 None (Nat.le_refl _))
      as [Hc Hc'].
    destruct (parseChars s1 None) as [key s2| |]; [|discriminate|congruence].
    pose proof (skipWs_length s2) as H2.
    destruct (skipWs s2) as [|colon s3]; [discriminate|].
    destruct (code colon =? 58)%N; [|discriminate].
    specialize (IHv s3 ltac:(cbn in *; lia)).
    pose proof (proj1 (parse_consumes fuel) s3) as Hv.
    destruct (parseValue fuel s3) as [v s4| |]; [|discriminate|congruence].
    pose proof (skipWs_length s4) as H4.
    destruct (skipWs s4) as [|c s5]; [discriminate|].
    destruct (code c =? 44)%N; [apply IHm; cbn in *; lia|].
    destruct (code c =? 125)%N; discriminate.
Qed.

(** [JSON_parse] always comes to a value or to a syntax error. *)
Lemma JSON_parse_total (text : string) : JSON_parse text <> OutOfFuel.
Proof.
  unfold JSON_parse, fuelFor.
  pose proof (proj1 (parse_fuel (2 * String.length text + 1)) text ltac:(lia)) as H.
  destruct (parseValue (2 * String.length text + 1) text) as [v rest| |];
    [|discriminate|congruence].
  destruct (skipWs rest); discriminate.
Qed.

(** parseJsonFromResponse returns a value or throws, for every text. *)
Lemma parseJsonFromResponse_total (text : string) :
  exists outcome, parseJsonFromResponse text = Some outcome.
Proof.
  unfold parseJsonFromResponse. pose proof (JSON_parse_total (cleanText text)) as H.
  destruct (JSON_parse (cleanText text)) as [v rest| |]; [eauto|eauto|congruence].
Qed.

(** * Further properties *)

(** ** The retry loops *)



(** A run through transient failures ends at the first call that is
    answered with text. *)
Lemma run_ends_at_answer (api : nat -> ApiResult) (rnd : nat -> RandomNumber)
    (retries k : nat) (delay : Z) (response : GenerateContentResponse) :
  (k < retries)%nat ->
  (forall j, (j < k)%nat ->
     exists name message,
       api j = Throws name message /\ isTransient (toString name message) = true) ->
  api k = Resolves (Some response) ->
  noText (text response) = false ->
  generateContentWithRetry api rnd retries delay
  = (backoff delay rnd 0 k ++ [Call k], Fulfilled response).
Proof.
  intros Hk Hbefore Hapi Htext.
  assert (Htry : tryGenerateContent api k = inl response).
  { unfold tryGenerateContent. now rewrite Hapi, Htext. }
  destruct (generateContentWithRetry_shape api rnd retries delay)
    as (m & (Hm & Hev & Hretry & Hstop) & Hres); [lia|].
  assert (Hmk : m = k).
  { destruct (Nat.lt_trichotomy m k) as [Hlo|[Heq|Hhi]]; [exfalso|exact Heq|exfalso].
    - destruct Hstop as [->|Hstop]; [lia|]. apply Hstop.
      destruct (Hbefore m Hlo) as (name & message & Hthrow & Htr).
      exists name, message. split; [|exact Htr].
      apply (throws_caught api m name message Hthrow).
    - destruct (Hretry k) as (name & message & Hcaught & _); [lia|]. congruence. }
  subst m. unfold settledAt in Hres. rewrite Htry in Hres.
  rewrite (surjective_pairing (generateContentWithRetry api rnd retries delay)).
  now rewrite Hev, Hres.
Qed.

(** X2: an API that fails [k] times with transient errors and then answers
    with text is recovered from, when [k + 1] attempts are allowed:
    generateContentWithRetry returns that response after the calls 0, ..., k
    and the [k] waits between them. *)
Theorem transient_failures_are_recovered
    (api : nat -> ApiResult) (rnd : nat -> RandomNumber) (retries k : nat) (delay : Z)
    (response : GenerateContentResponse) :
  (k < retries)%nat ->
  (forall j, (j < k)%nat ->
     exists name message,
       api j = Throws name message /\ isTransient (toString name message) = true) ->
  api k = Resolves (Some response) ->
  noText (text response) = false ->
  generateContentWithRetry api rnd retries delay
  = (backoff delay rnd 0 k ++ [Call k], Fulfilled response)
  /\ calls (fst (generateContentWithRetry api rnd retries delay)) = seq 0 (S k)
  /\ length (waits (fst (generateContentWithRetry api rnd retries delay))) = k.
Proof.
  intros Hk Hbefore Hapi Htext.
  rewrite (run_ends_at_answer api rnd retries k delay response Hk Hbefore Hapi Htext).
  split; [reflexivity|]. cbn [fst].
  rewrite calls_app, waits_app, calls_backoff, waits_backoff.
  cbn [calls waits flat_map app]. rewrite app_nil_r, length_map, length_seq, Nat.sub_0_r.
  split; [|reflexivity]. replace (S k) with (k + 1)%nat by lia. now rewrite seq_app.
Qed.

Lemma transient_failures_are_recovered_witness :
  generateContentWithRetry overloadedTwice halfRandom 5 3000
  = ([Call 0; SetTimeout 3500; Call 1; SetTimeout 6500; Call 2], Fulfilled responseA1).
Proof.
  refine (proj1 (transient_failures_are_recovered
                   overloadedTwice halfRandom 5 2 3000 responseA1 _ _ _ _)).
  - lia.
  - intros j Hj. exists "ApiError"%string.
    exists "got status: 503 Service Unavailable. The model is overloaded."%string.
    split; [|reflexivity].
    unfold overloadedTwice. destruct j as [|[|j]]; [reflexivity|reflexivity|lia].
  - reflexivity.
  - reflexivity.
Defined.

(** X3: what the loops return is never empty: a response that
    generateContentWithRetry returns has a text that is not the empty string,
    and so has the string getSocraticResponse returns. *)
Theorem returned_text_is_never_empty (api : nat -> ApiResult) (rnd : nat -> RandomNumber) :
  (forall retries delay response,
     snd (generateContentWithRetry api rnd retries delay) = Fulfilled response ->
     exists c t, text response = Some (String c t))
  /\ (forall responseText,
        snd (getSocraticResponse api rnd) = Fulfilled responseText ->
        responseText <> EmptyString).
Proof.
  split.
  - intros retries delay response Hres. destruct retries as [|n]; [discriminate Hres|].
    destruct (generateContentWithRetry_shape api rnd (S n) delay)
      as (m & _ & Hset); [lia|].
    rewrite Hset in Hres. unfold settledAt, tryGenerateContent in Hres.
    destruct (api m) as [[r|]|name message]; try discriminate Hres.
    destruct (noText (text r)) eqn:Hno; [discriminate Hres|].
    injection Hres as <-. destruct (text r) as [[|c t]|]; try discriminate Hno.
    now exists c, t.
  - intros responseText Hres.
    destruct (getSocraticResponse_shape api rnd) as (m & _ & Hset).
    rewrite Hset in Hres. unfold settledSocratic, trySendMessage in Hres.
    destruct (api m) as [[r|]|name message]; try discriminate Hres.
    destruct (text r) as [t|]; [|discriminate Hres].
    destruct (noText (Some t)) eqn:Hno; [discriminate Hres|].
    injection Hres as <-. intros ->. discriminate Hno.
Qed.

Lemma returned_text_is_never_empty_witness :
  exists c t, text responseA1 = Some (String c t).
Proof.
  apply (proj1 (returned_text_is_never_empty overloadedTwice halfRandom) 5%nat 3000%Z).
  reflexivity.
Defined.

(** X4: the [throw lastError] after the loop of generateContentWithRetry,
    which throws [undefined], is reached exactly when no attempt is allowed:
    with [retries = 0] nothing is called, and with [retries >= 1] the run
    ends with a call and what is thrown is the error caught at that call. *)
Theorem fallthrough_only_without_attempts
    (api : nat -> ApiResult) (rnd : nat -> RandomNumber) (delay : Z) :
  generateContentWithRetry api rnd 0 delay = ([], Rejected Undefined)
  /\ forall retries e,
       (1 <= retries)%nat ->
       snd (generateContentWithRetry api rnd retries delay) = Rejected e ->
       exists m name message,
         calls (fst (generateContentWithRetry api rnd retries delay)) = seq 0 (S m)
         /\ tryGenerateContent api m = inr (name, message)
         /\ e = ErrorObj name message.
Proof.
  split; [reflexivity|]. intros retries e Hretries Hres.
  destruct (generateContentWithRetry_shape api rnd retries delay Hretries)
    as (m & (Hm & Hev & _ & _) & Hset).
  rewrite Hset in Hres. unfold settledAt in Hres.
  destruct (tryGenerateContent api m) as [r|[name message]] eqn:Htry;
    [discriminate Hres|].
  injection Hres as <-. exists m, name, message.
  split; [|split; [exact Htry|reflexivity]].
  rewrite Hev, calls_app, calls_backoff. cbn [calls flat_map app].
  rewrite Nat.sub_0_r. replace (S m) with (m + 1)%nat by lia. now rewrite seq_app.
Qed.

Lemma fallthrough_only_without_attempts_witness :
  exists m name message,
    calls (fst (generateContentWithRetry alwaysBadRequest halfRandom 5 3000)) = seq 0 (S m)
    /\ tryGenerateContent alwaysBadRequest m = inr (name, message)
    /\ ErrorObj "ApiError" "got status: 400 Bad Request." = ErrorObj name message.
Proof.
  apply (proj2 (fallthrough_only_without_attempts alwaysBadRequest halfRandom 3000)
           5%nat (ErrorObj "ApiError" "got status: 400 Bad Request.")).
  - lia.
  - reflexivity.
Defined.

Lemma backoff_wait_bound (delay : Z) (rnd : nat -> RandomNumber) (m : nat) :
  (0 <= delay)%Z ->
  (fold_right Z.add 0 (map (fun j => delay * 2 ^ Z.of_nat j + jitterOf (rnd j)) (seq 0 m))
   <= delay * (2 ^ Z.of_nat m - 1) + 999 * Z.of_nat m)%Z.
Proof.
  intros Hdelay. induction m as [|m IH]; [cbn; lia|].
  replace (S m) with (m + 1)%nat at 1 by lia.
  rewrite seq_app, map_app, fold_right_app. cbn [seq map fold_right Nat.add].
  assert (Hshift : forall (l : list Z) (a : Z),
            fold_right Z.add a l = (fold_right Z.add 0 l + a)%Z).
  { induction l as [|x l IHl]; intros a; cbn; [lia|]. rewrite IHl. lia. }
  rewrite Hshift.
  pose proof (jitterOf_range (rnd m)) as Hj.
  rewrite Nat2Z.inj_succ, Z.pow_succ_r by lia. lia.
Qed.

(** X5: the loops bound the time spent waiting: for a delay that is not
    negative and whatever [Math.random] draws from its range,
    generateContentWithRetry waits in all at most
    [delay * (2 ^ (retries - 1) - 1) + 999 * (retries - 1)] milliseconds, and
    getSocraticResponse at most 48996. *)
Theorem total_wait_is_bounded
    (api : nat -> ApiResult) (rnd : nat -> RandomNumber) (retries : nat) (delay : Z) :
  (1 <= retries)%nat ->
  (0 <= delay)%Z ->
  (totalWait (fst (generateContentWithRetry api rnd retries delay))
   <= delay * (2 ^ Z.of_nat (retries - 1) - 1) + 999 * Z.of_nat (retries - 1))%Z
  /\ (totalWait (fst (getSocraticResponse api rnd)) <= 48996)%Z.
Proof.
  intros Hretries Hdelay.
  assert (Hmono : forall d m n, (0 <= d)%Z -> (m <= n)%nat ->
            (d * (2 ^ Z.of_nat m - 1) + 999 * Z.of_nat m
             <= d * (2 ^ Z.of_nat n - 1) + 999 * Z.of_nat n)%Z).
  { intros d m n Hd Hmn.
    assert (2 ^ Z.of_nat m <= 2 ^ Z.of_nat n)%Z by (apply Z.pow_le_mono_r; lia).
    nia. }
  split.
  - destruct (generateContentWithRetry_shape api rnd retries delay Hretries)
      as (m & (Hm & Hev & _ & _) & _).
    unfold totalWait. rewrite Hev, waits_app, waits_backoff.
    cbn [waits flat_map app]. rewrite app_nil_r, Nat.sub_0_r.
    etransitivity; [apply backoff_wait_bound; assumption|]. apply Hmono; lia.
  - destruct (getSocraticResponse_shape api rnd) as (m & (Hm & Hev & _ & _) & _).
    unfold totalWait. rewrite Hev, waits_app, waits_backoff.
    cbn [waits flat_map app]. rewrite app_nil_r, Nat.sub_0_r.
    etransitivity; [apply backoff_wait_bound; lia|].
    etransitivity; [apply (Hmono 3000%Z m 4%nat); lia|]. cbn. lia.
Qed.

Lemma total_wait_is_bounded_witness :
  (totalWait (fst (generateContentWithRetry alwaysOverloaded halfRandom 5 3000))
   <= 3000 * (2 ^ Z.of_nat (5 - 1) - 1) + 999 * Z.of_nat (5 - 1))%Z.
Proof.
  apply (total_wait_is_bounded alwaysOverloaded halfRandom 5 3000).
  - lia.
  - lia.
Defined.

(** X6: getSocraticResponse throws nothing but the errors handleApiError
    makes; five responses without text in a row end, after the five calls,
    in its generic message. *)
Theorem getSocraticResponse_throws_handled_errors
    (api : nat -> ApiResult) (rnd : nat -> RandomNumber) :
  (forall e, snd (getSocraticResponse api rnd) = Rejected e -> userFacing e)
  /\ ((forall i, (i < 5)%nat ->
         exists r, api i = Resolves (Some r) /\ noText (text r) = true) ->
      calls (fst (getSocraticResponse api rnd)) = seq 0 5
      /\ snd (getSocraticResponse api rnd) = Rejected (newError genericErrorMessage)).
Proof.
  destruct (getSocraticResponse_shape api rnd) as (m & (Hm & Hev & Hretry & Hstop) & Hset).
  split.
  - intros e Hres. rewrite Hset in Hres. unfold settledSocratic in Hres.
    destruct (trySendMessage api m) as [t|[name message]]; [discriminate Hres|].
    injection Hres as <-. apply handleApiError_messages.
  - intros Hempty.
    assert (Hcaught : forall i, (i < 5)%nat ->
              trySendMessage api i = inr ("Error"%string, socraticEmptyMessage)).
    { intros i Hi. destruct (Hempty i Hi) as (r & Hr & Hno).
      apply (noText_caught api i r Hr Hno). }
    assert (Hlast : m = 4%nat).
    { destruct Hstop as [|Hstop]; [assumption|]. exfalso. apply Hstop.
      exists "Error"%string, socraticEmptyMessage.
      split; [apply Hcaught; lia|reflexivity]. }
    subst m. split.
    + rewrite Hev, calls_app, calls_backoff. reflexivity.
    + rewrite Hset. unfold settledSocratic. rewrite Hcaught by lia. reflexivity.
Qed.

Lemma getSocraticResponse_throws_handled_errors_witness :
  calls (fst (getSocraticResponse emptyResponses halfRandom)) = seq 0 5
  /\ snd (getSocraticResponse emptyResponses halfRandom)
     = Rejected (newError genericErrorMessage).
Proof.
  apply (getSocraticResponse_throws_handled_errors emptyResponses halfRandom).
  intros i _. exists {| text := None |}. split; reflexivity.
Defined.

(** ** The user-facing errors *)

(** X7: an error that the loops classify as transient is reported by
    handleApiError as a server error, as a rate limit, or, when its text
    also contains 400, as a bad request; never with the generic message or
    the message of the API key. *)
Theorem transient_errors_have_specific_messages (name message : string) :
  isTransient (toString name message) = true ->
  handleApiError name message = newError serverErrorMessage
  \/ (includes (toString name message) "400" = true
      /\ handleApiError name message = newError badRequestMessage)
  \/ (includes (toString name message) "400" = false
      /\ handleApiError name message = newError rateLimitMessage).
Proof.
  unfold isTransient, handleApiError. intros H.
  destruct (includes (toString name message) "500"); [now left|].
  destruct (includes (toString name message) "503"); [now left|].
  destruct (includes (toString name message) "Rpc failed"); [now left|].
  cbn [orb] in *. rewrite orb_false_r in H. rewrite H.
  destruct (includes (toString name message) "400"); [right; left|right; right]; now split.
Qed.

Lemma transient_errors_have_specific_messages_witness :
  handleApiError "ApiError" "got status: 429. Retry in 4000 ms."
  = newError badRequestMessage.
Proof.
  destruct (transient_errors_have_specific_messages
              "ApiError" "got status: 429. Retry in 4000 ms." eq_refl)
    as [H|[[_ H]|[H _]]]; [discriminate H|exact H|discriminate H].
Defined.

(** X8: generateTopicSummary and generatePracticeProblem throw nothing but
    the errors handleApiError makes; a first response whose text is not JSON
    is not retried, and it is reported with the generic message: the message
    of parseJsonFromResponse does not reach the caller. *)
Theorem structured_callers_throw_handled_errors
    (api : nat -> ApiResult) (rnd : nat -> RandomNumber) :
  (forall e, snd (generateTopicSummary api rnd) = Some (Rejected e) -> userFacing e)
  /\ (forall e, snd (generatePracticeProblem api rnd) = Some (Rejected e) -> userFacing e)
  /\ (forall response c t,
        api O = Resolves (Some response) ->
        text response = Some (String c t) ->
        JSON_parse (cleanText (String c t)) = SyntaxError ->
        generateTopicSummary api rnd
        = ([Call 0], Some (Rejected (newError genericErrorMessage)))
        /\ generatePracticeProblem api rnd
           = ([Call 0], Some (Rejected (newError genericErrorMessage)))).
Proof.
  assert (Hhandled : forall e,
            snd (generateStructured api rnd) = Some (Rejected e) -> userFacing e).
  { intros e. unfold generateStructured.
    destruct (generateContentWithRetry_shape api rnd default_retries default_delay)
      as (m & _ & Hset); [unfold default_retries; lia|].
    destruct (generateContentWithRetry api rnd default_retries default_delay)
      as [events settled].
    cbn [snd] in Hset. subst settled. unfold settledAt.
    destruct (tryGenerateContent api m) as [response|[name message]].
    - destruct (text response) as [responseText|].
      + unfold parseJsonFromResponse.
        destruct (JSON_parse (cleanText responseText)); cbn [snd]; intros H;
          [discriminate H| |discriminate H].
        injection H as <-. apply handleApiError_messages.
      + cbn. intros H. injection H as <-. apply handleApiError_messages.
    - cbn. intros H. injection H as <-. apply handleApiError_messages. }
  split; [exact Hhandled|]. split; [exact Hhandled|].
  intros response c t Hapi Htext Hparse.
  assert (Hrun : generateStructured api rnd
                 = ([Call 0], Some (Rejected (newError genericErrorMessage)))).
  { unfold generateStructured, generateContentWithRetry, default_retries.
    cbn [generateContentWithRetry_from]. unfold tryGenerateContent.
    rewrite Hapi, Htext. cbn [noText]. rewrite Htext.
    unfold parseJsonFromResponse. rewrite Hparse. reflexivity. }
  split; exact Hrun.
Qed.

Lemma structured_callers_throw_handled_errors_witness :
  generateTopicSummary answersProse halfRandom
  = ([Call 0], Some (Rejected (newError genericErrorMessage))).
Proof.
  apply (proj2 (proj2 (structured_callers_throw_handled_errors answersProse halfRandom))
           {| text := Some "Momentum is conserved." |} "M"%char "omentum is conserved.");
    reflexivity.
Defined.

(** ** Cleaning the text of a response *)

Lemma append_assoc (s t u : string) : ((s ++ t) ++ u = s ++ (t ++ u))%string.
Proof. induction s as [|c s IH]; cbn; [reflexivity|now rewrite IH]. Qed.

Lemma append_nil_r (s : string) : (s ++ EmptyString)%string = s.
Proof. induction s as [|c s IH]; cbn; [reflexivity|now rewrite IH]. Qed.

Lemma reverse_reverse (s a b : string) :
  reverse (reverse s a) b = reverse a (s ++ b)%string.
Proof.
  revert a b. induction s as [|c s IH]; intros a b; [reflexivity|].
  cbn [reverse]. now rewrite IH.
Qed.

Lemma reverse_append (s t acc : string) :
  reverse (s ++ t)%string acc = reverse t (reverse s acc).
Proof. revert acc. induction s as [|c s IH]; intros acc; cbn; [reflexivity|apply IH]. Qed.

(** A backquote is no white space, from either end. *)
Lemma stripWs_backquote (backwards : bool) (s : string) :
  stripWs backwards (String "`"%char s) = String "`"%char s.
Proof.
  cbn [stripWs]. change (isWs1 "`"%char) with false. cbv iota.
  destruct s as [|c2 [|c3 s]]; try reflexivity.
  - destruct backwards; [|reflexivity]. unfold isWs2.
    change (code "`"%char =? 160)%N with false. now rewrite andb_false_r.
  - assert (H2 : (if backwards then isWs2 c2 "`"%char else isWs2 "`"%char c2) = false).
    { destruct backwards; [|reflexivity]. unfold isWs2.
      change (code "`"%char =? 160)%N with false. now rewrite andb_false_r. }
    rewrite H2.
    assert (H3 : (if backwards then isWs3 c3 c2 "`"%char else isWs3 "`"%char c2 c3)
                 = false).
    { destruct backwards; [|reflexivity]. unfold isWs3.
      change (code "`"%char) with 96%N. cbn.
      repeat match goal with
             | |- context [(?a =? ?b)%N] => destruct (a =? b)%N
             end; reflexivity. }
    now rewrite H3.
Qed.

(** A text between two backquotes is left alone by [trim]. *)
Lemma trim_between_backquotes (s : string) :
  trim (String "`"%char (s ++ "`")%string) = String "`"%char (s ++ "`")%string.
Proof.
  unfold trim. rewrite stripWs_backquote.
  change (String "`"%char (s ++ "`")%string) with (("`" ++ s) ++ "`")%string at 1.
  rewrite reverse_append. cbn [reverse].
  rewrite stripWs_backquote. cbn [reverse].
  rewrite reverse_reverse. reflexivity.
Qed.

Lemma fenced_as_backquoted (tagged body : string) :
  (String "`"%char tagged ++ LF ++ body ++ LF ++ "```")%string
  = String "`"%char ((tagged ++ LF ++ body ++ LF ++ "``") ++ "`")%string.
Proof.
  unfold LF. repeat first [rewrite !append_assoc | progress cbn [append]]. reflexivity.
Qed.

Lemma fenced_payload (fence body : string) :
  (fence ++ LF ++ body ++ LF ++ "```")%string
  = (fence ++ LF ++ ((body ++ LF) ++ "```"))%string.
Proof. now rewrite append_assoc. Qed.

(** The payload of a fence tagged json is its content and the line feed
    before the closing fence. *)
Lemma cleanText_fenced (body : string) :
  cleanText ("```json" ++ LF ++ body ++ LF ++ "```")%string = (body ++ LF)%string.
Proof.
  unfold cleanText.
  rewrite (fenced_as_backquoted "``json" body), trim_between_backquotes.
  rewrite <- (fenced_as_backquoted "``json" body), (fenced_payload "```json" body).
  rewrite (proj1 (replaceLeadingFence_tagged _)).
  apply replaceTrailingFence_fence.
Qed.

Lemma cleanedResponse_fenced (body : string) :
  cleanedResponse ("```html" ++ LF ++ body ++ LF ++ "```")%string = (body ++ LF)%string.
Proof.
  unfold cleanedResponse.
  rewrite (fenced_as_backquoted "``html" body), trim_between_backquotes.
  rewrite <- (fenced_as_backquoted "``html" body), (fenced_payload "```html" body).
  unfold replaceLeadingHtmlFence. rewrite !dropPrefix_app.
  apply replaceTrailingFence_fence.
Qed.

(** X9: a text between a fence with its tag and a bare fence, each on a line
    of its own, is unwrapped by both cleaners to the text with the line feed
    that stood before the closing fence; and a text whose trimmed form has
    neither the tagged fence at its start nor three backquotes at its end is
    only trimmed. *)
Theorem fenced_text_is_unwrapped (body : string) :
  cleanedResponse ("```html" ++ LF ++ body ++ LF ++ "```")%string = (body ++ LF)%string
  /\ cleanText ("```json" ++ LF ++ body ++ LF ++ "```")%string = (body ++ LF)%string
  /\ (forall text,
        startsWith (trim text) "```html" = false ->
        endsWith (trim text) "```" = false ->
        cleanedResponse text = trim text)
  /\ (forall text,
        startsWith (trim text) "```json" = false ->
        endsWith (trim text) "```" = false ->
        cleanText text = trim text).
Proof.
  split; [apply cleanedResponse_fenced|]. split; [apply cleanText_fenced|]. split.
  - intros text Hstart Hend. unfold cleanedResponse, replaceLeadingHtmlFence.
    rewrite (dropPrefix_startsWith _ _ Hstart).
    now apply replaceTrailingFence_other.
  - intros text Hstart Hend. unfold cleanText.
    rewrite (replaceLeadingFence_other _ Hstart).
    now apply replaceTrailingFence_other.
Qed.

Lemma fenced_text_is_unwrapped_witness :
  cleanedResponse "  <p>F = ma</p>  " = "<p>F = ma</p>"%string.
Proof.
  rewrite (proj1 (proj2 (proj2 (fenced_text_is_unwrapped EmptyString)))); reflexivity.
Defined.

(** ** The inline image part *)

Lemma split_no_separator (sep : ascii) (s : string) :
  includes s (String sep EmptyString) = false -> split sep s = [s].
Proof.
  induction s as [|c s IH]; [reflexivity|]. cbn [includes startsWith split].
  rewrite Ascii.eqb_sym. destruct (Ascii.eqb c sep).
  - destruct s; discriminate.
  - intros H. now rewrite (IH H).
Qed.

Lemma split_at_separator (sep : ascii) (s t : string) :
  includes s (String sep EmptyString) = false ->
  split sep (s ++ String sep t)%string = s :: split sep t.
Proof.
  induction s as [|c s IH]; cbn [includes startsWith split append].
  - intros _. now rewrite Ascii.eqb_refl.
  - rewrite Ascii.eqb_sym. destruct (Ascii.eqb c sep).
    + destruct s; discriminate.
    + intros H. now rewrite (IH H).
Qed.

(** X10: fileToGenerativePart sends as [data] what follows the first comma
    of the data URL, when no comma follows it, as in a base64 payload; of a
    result without any comma the [data] is [undefined]. *)
Theorem inline_data_is_the_payload (header payload : string) :
  includes header "," = false ->
  includes payload "," = false ->
  inlineDataOf (header ++ "," ++ payload)%string = Some payload
  /\ inlineDataOf header = None.
Proof.
  intros Hheader Hpayload. unfold inlineDataOf. split.
  - change ("," ++ payload)%string with (String ","%char payload).
    rewrite (split_at_separator _ _ _ Hheader), (split_no_separator _ _ Hpayload).
    reflexivity.
  - now rewrite (split_no_separator _ _ Hheader).
Qed.

Lemma inline_data_is_the_payload_witness :
  inlineDataOf "data:image/png;base64,iVBORw0KGgo=" = Some "iVBORw0KGgo="%string.
Proof.
  apply (inline_data_is_the_payload "data:image/png;base64" "iVBORw0KGgo=");
    reflexivity.
Defined.

(** ** The pages of the export *)

Section ExportServicePages.

Import ExportService.

Variable pdfWidth pdfHeight : Q.

(** From a document whose current page is [page]: the pages added are all
    used, and there is at most one more page for each block. *)
Lemma renderBlocks_pages (contentBlocks : list Html2canvasResult) :
  forall page currentY,
    (page <= numberOfPages (fst (renderBlocks pdfWidth pdfHeight contentBlocks page currentY))
     <= page + length contentBlocks)%nat
    /\ (forall p,
          (page < p <= numberOfPages
                         (fst (renderBlocks pdfWidth pdfHeight contentBlocks page currentY)))%nat ->
          exists image,
            In image (images (fst (renderBlocks pdfWidth pdfHeight contentBlocks
                                     page currentY)))
            /\ ExportService.page image = p).
Proof.
  induction contentBlocks as [|block rest IH]; intros page currentY.
  - cbn. split; [lia|]. intros p Hp. lia.
  - destruct block as [canvas|e]; cbn [renderBlocks].
    + destruct (Qgtb currentY margin && _).
      * specialize (IH (S page) (margin + elementHeightMM pdfWidth canvas + 2)).
        destruct (renderBlocks pdfWidth pdfHeight rest (S page) _) as [pdf thrown].
        cbn [fst numberOfPages images length] in *. destruct IH as [Hn Hused].
        split; [lia|]. intros p Hp.
        destruct (Nat.eq_dec p (S page)) as [->|Hne].
        -- eexists. split; [left; reflexivity|reflexivity].
        -- destruct (Hused p) as (image & Hin & Hpage); [lia|].
           exists image. split; [now right|exact Hpage].
      * specialize (IH page (currentY + elementHeightMM pdfWidth canvas + 2)).
        destruct (renderBlocks pdfWidth pdfHeight rest page _) as [pdf thrown].
        cbn [fst numberOfPages images length] in *. destruct IH as [Hn Hused].
        split; [lia|]. intros p Hp.
        destruct (Hused p) as (image & Hin & Hpage); [lia|].
        exists image. split; [now right|exact Hpage].
    + cbn. split; [lia|]. intros p Hp. lia.
Qed.

End ExportServicePages.

(** X11: the saved document has no blank page and no more pages than
    blocks: whatever html2canvas answers, every page from 1 to the number of
    pages holds an image, and the first image is on page 1 at the top
    margin. *)
Theorem saved_document_has_no_blank_page
    (pdfWidth pdfHeight : Q) (found : list Html2canvasResult)
    (whole : Html2canvasResult) (filename saved : string) (pdf : ExportService.Pdf) :
  ExportService.exportToPdf pdfWidth pdfHeight found whole filename = Saved saved pdf ->
  (1 <= ExportService.numberOfPages pdf
   <= length (ExportService.contentBlocksOf found whole))%nat
  /\ (forall p, (1 <= p <= ExportService.numberOfPages pdf)%nat ->
        exists image,
          In image (ExportService.images pdf) /\ ExportService.page image = p)
  /\ (exists first,
        nth_error (ExportService.images pdf) 0 = Some first
        /\ ExportService.page first = 1%nat
        /\ ExportService.y first = ExportService.margin).
Proof.
  unfold ExportService.exportToPdf.
  assert (Hne : ExportService.contentBlocksOf found whole <> []).
  { unfold ExportService.contentBlocksOf. destruct found; discriminate. }
  destruct (ExportService.contentBlocksOf found whole) as [|block rest];
    [congruence|clear Hne].
  destruct block as [canvas|e]; cbn [ExportService.renderBlocks]; [|discriminate].
  replace (Qgtb ExportService.margin ExportService.margin) with false
    by (symmetry; apply Qgtb_false, Qle_refl).
  cbn [andb].
  pose proof (renderBlocks_pages pdfWidth pdfHeight rest 1
                (ExportService.margin + ExportService.elementHeightMM pdfWidth canvas + 2))
    as [Hn Hused].
  destruct (ExportService.renderBlocks pdfWidth pdfHeight rest 1 _)
    as [pdf' [thrown|]]; [discriminate|].
  intros H. injection H as _ <-.
  cbn [fst ExportService.numberOfPages ExportService.images length nth_error] in *.
  split; [lia|]. split.
  - intros p Hp. destruct (Nat.eq_dec p 1) as [->|Hne].
    + eexists. split; [left; reflexivity|reflexivity].
    + destruct (Hused p) as (image & Hin & Hpage); [lia|].
      exists image. split; [now right|exact Hpage].
  - eexists. split; [reflexivity|]. split; reflexivity.
Qed.

Lemma saved_document_has_no_blank_page_witness :
  ExportService.exportToPdf 210 297
    [Rendered canvas100; Rendered canvas300; Rendered canvas100]
    (Rendered canvas100) "notes" = Saved "notes.pdf" pdf100x300x100
  /\ (1 <= ExportService.numberOfPages pdf100x300x100 <= 3)%nat
  /\ (forall p, (1 <= p <= ExportService.numberOfPages pdf100x300x100)%nat ->
        exists image,
          In image (ExportService.images pdf100x300x100)
          /\ ExportService.page image = p)
  /\ (exists first,
        nth_error (ExportService.images pdf100x300x100) 0 = Some first
        /\ ExportService.page first = 1%nat
        /\ ExportService.y first = ExportService.margin).
Proof.
  split; [reflexivity|].
  apply (saved_document_has_no_blank_page 210 297
           [Rendered canvas100; Rendered canvas300; Rendered canvas100]
           (Rendered canvas100) "notes" "notes.pdf" pdf100x300x100).
  reflexivity.
Defined.

(** X12: when the selection finds no block, the whole container is the one
    block: if it is rendered, the document saved has one page with its image
    at (margin, margin), scaled to the usable width; if it is not, nothing is
    saved. *)
Theorem empty_selection_exports_the_container
    (pdfWidth pdfHeight : Q) (filename : string) :
  (forall canvas,
     ExportService.exportToPdf pdfWidth pdfHeight [] (Rendered canvas) filename
     = Saved (filename ++ ".pdf")%string
         {| ExportService.numberOfPages := 1;
            ExportService.images :=
              [ {| ExportService.imgData := canvas; ExportService.page := 1;
                   ExportService.x := ExportService.margin;
                   ExportService.y := ExportService.margin;
                   ExportService.w := ExportService.usableWidthMM pdfWidth;
                   ExportService.h := ExportService.elementHeightMM pdfWidth canvas |} ] |})
  /\ (forall e,
        ExportService.exportToPdf pdfWidth pdfHeight [] (RenderFails e) filename
        = Alerted exportFailedMessage).
Proof.
  split; [|reflexivity]. intros canvas.
  unfold ExportService.exportToPdf, ExportService.contentBlocksOf.
  cbn [ExportService.renderBlocks].
  replace (Qgtb ExportService.margin ExportService.margin) with false
    by (symmetry; apply Qgtb_false, Qle_refl).
  reflexivity.
Qed.

Section RuleOrder.

Variable margin limit : Q.

(** What is placed on the page the chain starts on lies at the cursor or
    below it. *)
Lemma chain_below_cursor (ps : list Placement) :
  forall page0 cursor, chain margin limit page0 cursor ps ->
  forall k q, nth_error ps k = Some q -> onPage q = page0 -> cursor <= top q.
Proof.
  induction ps as [|hd rest IH]; intros page0 cursor Hchain k q Hk Hpage.
  - destruct k; discriminate.
  - destruct Hchain as (Hf & Hres & Hadv & Hrest).
    destruct k as [|k]; cbn in Hk.
    + injection Hk as <-. destruct Hf as [(_ & Ht & _)|(Hp & _)]; [lra|lia].
    + pose proof (chain_pages_grow margin limit rest _ _ Hrest k q Hk) as Hgrow.
      destruct Hf as [(Hp & Ht & _)|(Hp & _)]; [|lia].
      assert (Hq : onPage q = onPage hd) by lia.
      specialize (IH _ _ Hrest k q Hk Hq). lra.
Qed.

(** Two placements on one page: the later one starts where the earlier one
    let the cursor, or below. *)
Lemma chain_same_page (ps : list Placement) :
  forall page0 cursor, chain margin limit page0 cursor ps ->
  forall j k p q, (j < k)%nat ->
    nth_error ps j = Some p -> nth_error ps k = Some q -> onPage p = onPage q ->
    top p + advance p <= top q.
Proof.
  induction ps as [|hd rest IH]; intros page0 cursor Hchain j k p q Hjk Hj Hk Hpage.
  - destruct j; discriminate.
  - destruct Hchain as (_ & _ & _ & Hrest).
    destruct k as [|k]; [lia|]. cbn in Hk.
    destruct j as [|j]; cbn in Hj.
    + injection Hj as <-.
      apply (chain_below_cursor rest _ _ Hrest k q Hk). now symmetry.
    + apply (IH _ _ Hrest j k p q); [lia|assumption..].
Qed.

(** When everything placed fits between the margins, everything lies
    between them. *)
Lemma chain_within (ps : list Placement) :
  forall page0 cursor, margin <= cursor -> chain margin limit page0 cursor ps ->
  forall k p, nth_error ps k = Some p -> margin + reserved p <= limit ->
    margin <= top p /\ top p + reserved p <= limit.
Proof.
  intros page0 cursor Hc Hchain k p Hk Hfits.
  destruct (chain_placement margin limit ps page0 cursor Hc Hchain k p Hk)
    as [(Ht & _)|(Ht & Hfit & _)]; split; lra.
Qed.

End RuleOrder.

(** X13: in both revisions, two placements on one page never overlap: what
    was placed later starts at least at the earlier top plus the earlier
    advance (the height and the gap of 2 mm for an image, 6 mm for a line). *)
Theorem placements_on_a_page_do_not_overlap (pdfWidth pdfHeight : Q) :
  30 <= pdfWidth ->
  (forall found whole filename saved pdf,
     Forall renders (ExportService.contentBlocksOf found whole) ->
     ExportService.exportToPdf pdfWidth pdfHeight found whole filename
     = Saved saved pdf ->
     forall j k earlier later, (j < k)%nat ->
       nth_error (ExportService.images pdf) j = Some earlier ->
       nth_error (ExportService.images pdf) k = Some later ->
       ExportService.page earlier = ExportService.page later ->
       ExportService.y earlier + ExportService.h earlier + 2 <= ExportService.y later)
  /\ (forall found wrapper filename saved pdf,
        Forall rendersBlock (ExportServiceHr.contentBlocksOf found wrapper) ->
        ExportServiceHr.exportToPdf pdfWidth pdfHeight found wrapper filename
        = Saved saved pdf ->
        forall j k earlier later, (j < k)%nat ->
          nth_error (map placementOfDrawn (ExportServiceHr.drawn pdf)) j = Some earlier ->
          nth_error (map placementOfDrawn (ExportServiceHr.drawn pdf)) k = Some later ->
          onPage earlier = onPage later ->
          top earlier + advance earlier <= top later).
Proof.
  intros Hwide. split.
  - intros found whole filename saved pdf Hall Hsaved j k earlier later Hjk Hj Hk Hpage.
    destruct (exportToPdf_saves pdfWidth pdfHeight found whole filename Hwide Hall)
      as (pdf' & Hsaved' & Hchain & _).
    rewrite Hsaved in Hsaved'. injection Hsaved' as _ <-.
    pose proof (chain_same_page _ _ _ _ _ Hchain j k
                  (placementOfImage earlier) (placementOfImage later) Hjk) as H.
    rewrite !nth_error_map, Hj, Hk in H. specialize (H eq_refl eq_refl Hpage).
    cbn in H. lra.
  - intros found wrapper filename saved pdf Hall Hsaved j k earlier later Hjk Hj Hk Hpage.
    destruct (exportToPdf_hr_saves pdfWidth pdfHeight found wrapper filename Hwide Hall)
      as (pdf' & Hsaved' & Hchain).
    rewrite Hsaved in Hsaved'. injection Hsaved' as _ <-.
    apply (chain_same_page _ _ _ _ _ Hchain j k earlier later Hjk Hj Hk Hpage).
Qed.

(** X14: in both revisions, a block that is not taller than the usable
    height of the page is placed between the top and the bottom margin (for
    a line, with the 10 mm it is checked against, when the usable height is
    at least 10 mm). *)
Theorem fitting_blocks_stay_within_the_margins (pdfWidth pdfHeight : Q) :
  30 <= pdfWidth ->
  (forall found whole filename saved pdf,
     Forall renders (ExportService.contentBlocksOf found whole) ->
     ExportService.exportToPdf pdfWidth pdfHeight found whole filename
     = Saved saved pdf ->
     forall k image,
       nth_error (ExportService.images pdf) k = Some image ->
       ExportService.h image <= ExportService.usableHeightMM pdfHeight ->
       ExportService.margin <= ExportService.y image
       /\ ExportService.y image + ExportService.h image
          <= pdfHeight - ExportService.margin)
  /\ (forall found wrapper filename saved pdf,
        Forall rendersBlock (ExportServiceHr.contentBlocksOf found wrapper) ->
        ExportServiceHr.exportToPdf pdfWidth pdfHeight found wrapper filename
        = Saved saved pdf ->
        forall k p,
          nth_error (map placementOfDrawn (ExportServiceHr.drawn pdf)) k = Some p ->
          reserved p <= ExportServiceHr.usableHeightMM pdfHeight ->
          ExportServiceHr.margin <= top p
          /\ top p + reserved p <= pdfHeight - ExportServiceHr.margin).
Proof.
  intros Hwide. split.
  - intros found whole filename saved pdf Hall Hsaved k image Hk Hfits.
    destruct (exportToPdf_saves pdfWidth pdfHeight found whole filename Hwide Hall)
      as (pdf' & Hsaved' & Hchain & _).
    rewrite Hsaved in Hsaved'. injection Hsaved' as _ <-.
    pose proof (chain_within _ _ _ _ _ (Qle_refl _) Hchain k (placementOfImage image)) as H.
    rewrite nth_error_map, Hk in H. specialize (H eq_refl). cbn in H.
    unfold ExportService.usableHeightMM, ExportService.margin in *. 
    destruct H as [H1 H2]; [lra|]. split; lra.
  - intros found wrapper filename saved pdf Hall Hsaved k p Hk Hfits.
    destruct (exportToPdf_hr_saves pdfWidth pdfHeight found wrapper filename Hwide Hall)
      as (pdf' & Hsaved' & Hchain).
    rewrite Hsaved in Hsaved'. injection Hsaved' as _ <-.
    pose proof (chain_within _ _ _ _ _ (Qle_refl _) Hchain k p Hk) as H.
    unfold ExportServiceHr.usableHeightMM, ExportServiceHr.margin in *.
    destruct H as [H1 H2]; [lra|]. split; lra.
Qed.

Lemma placements_on_a_page_do_not_overlap_witness :
  ExportService.y (image100 1 15) + ExportService.h (image100 1 15) + 2
  <= ExportService.y (image100 1 (15 + (180000 # 1800) + 2)).
Proof.
  destruct (placements_on_a_page_do_not_overlap 210 297) as [Himages _]; [discriminate|].
  apply (Himages [Rendered canvas100; Rendered canvas100; Rendered canvas100]
           (Rendered canvas100) "notes"%string "notes.pdf"%string pdf100x3)
    with (j := 0%nat) (k := 1%nat); try reflexivity.
  - repeat constructor; eexists; (split; [reflexivity|split; [reflexivity|discriminate]]).
  - lia.
Defined.

Lemma fitting_blocks_stay_within_the_margins_witness :
  ExportService.margin <= ExportService.y (image100 1 (15 + (180000 # 1800) + 2))
  /\ ExportService.y (image100 1 (15 + (180000 # 1800) + 2))
     + ExportService.h (image100 1 (15 + (180000 # 1800) + 2))
     <= 297 - ExportService.margin.
Proof.
  destruct (fitting_blocks_stay_within_the_margins 210 297) as [Himages _];
    [discriminate|].
  apply (Himages [Rendered canvas100; Rendered canvas100; Rendered canvas100]
           (Rendered canvas100) "notes"%string "notes.pdf"%string pdf100x3)
    with (k := 1%nat); try reflexivity.
  - repeat constructor; eexists; (split; [reflexivity|split; [reflexivity|discriminate]]).
  - discriminate.
Defined.

(** ** The practice problems *)

Lemma act_keeps_selection_under_solution (state : QuizState) (action : UserAction) :
  (forall i, showSolutions state i = true -> noText (selectedOptions state i) = false) ->
  forall i, showSolutions (act state action) i = true ->
            noText (selectedOptions (act state action) i) = false.
Proof.
  intros Hinv i. destruct action as [index key|index|topic]; cbn [act].
  - unfold handleOptionSelect. destruct (showSolutions state index) eqn:Hshown.
    + apply Hinv.
    + cbn. unfold setAt. destruct (Nat.eqb_spec i index) as [->|Hne].
      * congruence.
      * apply Hinv.
  - destruct (solutionButtonDisabled index state) eqn:Hdisabled; [apply Hinv|].
    unfold solutionButtonDisabled in Hdisabled. apply orb_false_iff in Hdisabled.
    cbn. unfold setAt. destruct (Nat.eqb_spec i index) as [->|Hne].
    + intros _. apply Hdisabled.
    + apply Hinv.
  - destruct (noText (Some (trim topic))); [apply Hinv|]. cbn. discriminate.
Qed.

(** X15: after any sequence of clicks and generations, a solution is shown
    only for a problem on which an option is selected; and once the solution
    of a problem is shown, a click on one of its options changes nothing. *)
Theorem solution_is_shown_only_after_a_selection (actions : list UserAction) :
  (forall i, showSolutions (play actions) i = true ->
     exists c key, selectedOptions (play actions) i = Some (String c key))
  /\ (forall i key, showSolutions (play actions) i = true ->
        act (play actions) (ClickOption i key) = play actions).
Proof.
  assert (Hinv : forall state,
            (forall i, showSolutions state i = true ->
                       noText (selectedOptions state i) = false) ->
            forall i, showSolutions (fold_left act actions state) i = true ->
                      noText (selectedOptions (fold_left act actions state) i) = false).
  { induction actions as [|action rest IH]; intros state Hstate; [exact Hstate|].
    cbn [fold_left]. apply IH. now apply act_keeps_selection_under_solution. }
  split.
  - intros i Hshown. unfold play in *.
    specialize (Hinv emptyQuiz ltac:(cbn; discriminate) i Hshown).
    destruct (selectedOptions (fold_left act actions emptyQuiz) i) as [[|c key]|];
      try discriminate Hinv.
    now exists c, key.
  - intros i key Hshown. cbn [act]. unfold handleOptionSelect. now rewrite Hshown.
Qed.

Lemma solution_is_shown_only_after_a_selection_witness :
  showSolutions (play [ClickShowSolution 0; ClickOption 0 "b"; ClickShowSolution 0;
                       ClickOption 0 "c"]) 0 = true
  /\ exists c key,
       selectedOptions (play [ClickShowSolution 0; ClickOption 0 "b";
                              ClickShowSolution 0; ClickOption 0 "c"]) 0
       = Some (String c key).
Proof.
  split; [reflexivity|].
  apply (proj1 (solution_is_shown_only_after_a_selection
                  [ClickShowSolution 0; ClickOption 0 "b"; ClickShowSolution 0;
                   ClickOption 0 "c"])).
  reflexivity.
Defined.

(** ** The later revision of the export *)

(** X16: in the later revision, when every element that is not an [<hr>] is
    rendered, the export is saved and draws one thing for each block, in
    order: for an [<hr>] a horizontal line from margin to margin, with no
    canvas made for it, and for another element its image at the left
    margin, scaled to the usable width. *)
Theorem hr_revision_draws_each_block_once
    (pdfWidth pdfHeight : Q) (found : list ExportServiceHr.Block)
    (wrapper : Html2canvasResult) (filename : string) :
  30 <= pdfWidth ->
  Forall rendersBlock (ExportServiceHr.contentBlocksOf found wrapper) ->
  exists pdf,
    ExportServiceHr.exportToPdf pdfWidth pdfHeight found wrapper filename
    = Saved (filename ++ ".pdf")%string pdf
    /\ Forall2 (drawnOf pdfWidth) (ExportServiceHr.contentBlocksOf found wrapper)
         (ExportServiceHr.drawn pdf).
Proof.
  intros Hwide Hall.
  destruct (exportToPdf_hr_saves pdfWidth pdfHeight found wrapper filename Hwide Hall)
    as (pdf & Hsaved & _).
  exists pdf. split; [exact Hsaved|].
  pose proof (renderBlocks_hr_drawn pdfWidth pdfHeight _ Hall 1%nat ExportServiceHr.margin)
    as Hdrawn.
  unfold ExportServiceHr.exportToPdf in Hsaved.
  destruct (ExportServiceHr.renderBlocks pdfWidth pdfHeight
              (ExportServiceHr.contentBlocksOf found wrapper) 1 ExportServiceHr.margin)
    as [pdf' [thrown|]]; [discriminate Hsaved|].
  injection Hsaved as <-. exact Hdrawn.
Qed.

Lemma hr_revision_draws_each_block_once_witness :
  exists pdf,
    ExportServiceHr.exportToPdf 210 297 headingRuleBlock (Rendered canvas100) "notes"
    = Saved "notes.pdf" pdf
    /\ Forall2 (drawnOf 210) headingRuleBlock (ExportServiceHr.drawn pdf).
Proof.
  apply (hr_revision_draws_each_block_once 210 297 headingRuleBlock
           (Rendered canvas100) "notes").
  - discriminate.
  - repeat constructor; eexists; (split; [reflexivity|split; [reflexivity|discriminate]]).
Defined.

(** ** Decoding a fenced payload *)

Lemma skipWs_suffix (s : string) (c : ascii) (r : string) :
  skipWs s = String c r -> skipWs (s ++ LF)%string = String c (r ++ LF)%string.
Proof.
  induction s as [|a s IH]; cbn [skipWs append]; [discriminate|].
  destruct (isJsonWs a) eqn:E; [exact IH|].
  intros H. injection H as <- <-. reflexivity.
Qed.

Lemma skipWs_suffix_blank (s : string) :
  skipWs s = EmptyString -> skipWs (s ++ LF)%string = EmptyString.
Proof.
  induction s as [|a s IH]; cbn [skipWs append]; [reflexivity|].
  destruct (isJsonWs a); [exact IH|discriminate].
Qed.

Lemma takeDigits_suffix (s : string) :
  forall acc count v count' rest,
    takeDigits s acc count = (v, count', rest) ->
    takeDigits (s ++ LF)%string acc count = (v, count', (rest ++ LF)%string).
Proof.
  induction s as [|a s IH]; intros acc count v count' rest; cbn [takeDigits append].
  - intros H. injection H as <- <- <-. reflexivity.
  - destruct (isDigit a) eqn:E; [apply IH|].
    intros H. injection H as <- <- <-. reflexivity.
Qed.

Lemma parseInt_suffix (s : string) (n : Z) (rest : string) :
  parseInt s = Ok n rest -> parseInt (s ++ LF)%string = Ok n (rest ++ LF)%string.
Proof.
  unfold parseInt. destruct s as [|c s]; [discriminate|]. cbn [append].
  destruct (code c =? 48)%N; [intros H; now injection H as <- <-|].
  destruct (takeDigits (String c s) 0 0) as [[v count] r] eqn:E.
  change (String c (s ++ LF)%string) with (String c s ++ LF)%string.
  rewrite (takeDigits_suffix _ _ _ _ _ _ E).
  destruct count; [discriminate|]. intros H. now injection H as <- <-.
Qed.

Lemma parseFrac_suffix (mantissa : Z) (s : string) (r : Z * nat) (rest : string) :
  parseFrac mantissa s = Ok r rest ->
  parseFrac mantissa (s ++ LF)%string = Ok r (rest ++ LF)%string.
Proof.
  unfold parseFrac. destruct s as [|c s]; cbn [append].
  - intros H. injection H as <- <-. reflexivity.
  - destruct (code c =? 46)%N.
    + destruct (takeDigits s mantissa 0) as [[v count] r'] eqn:E.
      rewrite (takeDigits_suffix _ _ _ _ _ _ E).
      destruct count; [discriminate|]. intros H. now injection H as <- <-.
    + intros H. now injection H as <- <-.
Qed.

Lemma parseExp_suffix (s : string) (e : Z) (rest : string) :
  parseExp s = Ok e rest -> parseExp (s ++ LF)%string = Ok e (rest ++ LF)%string.
Proof.
  unfold parseExp. destruct s as [|c s]; cbn [append].
  - intros H. injection H as <- <-. reflexivity.
  - destruct ((code c =? 101) || (code c =? 69))%N;
      [|intros H; now injection H as <- <-].
    destruct s as [|d t]; [discriminate|]. cbn [append].
    destruct (code d =? 45)%N;
      [|destruct (code d =? 43)%N];
      match goal with
      | |- match takeDigits ?x 0 0 with _ => _ end = _ -> _ =>
          destruct (takeDigits x 0 0) as [[v count] r'] eqn:E
      end;
      try change (String d (t ++ LF)%string) with (String d t ++ LF)%string;
      rewrite (takeDigits_suffix _ _ _ _ _ _ E);
      (destruct count; [discriminate|]); intros H; now injection H as <- <-.
Qed.

Lemma parseNumber_suffix (s : string) (v : json) (rest : string) :
  parseNumber s = Ok v rest -> parseNumber (s ++ LF)%string = Ok v (rest ++ LF)%string.
Proof.
  assert (Hbody : forall negative s1,
            match parseInt s1 with
            | Ok n s2 =>
                match parseFrac n s2 with
                | Ok (m, count) s3 =>
                    match parseExp s3 with
                    | Ok e s4 =>
                        Ok (JNumber (if negative : bool then (- m)%Z else m)
                              (e - Z.of_nat count)) s4
                    | SyntaxError => SyntaxError
                    | OutOfFuel => OutOfFuel
                    end
                | SyntaxError => SyntaxError
                | OutOfFuel => OutOfFuel
                end
            | SyntaxError => SyntaxError
            | OutOfFuel => OutOfFuel
            end = Ok v rest ->
            match parseInt (s1 ++ LF)%string with
            | Ok n s2 =>
                match parseFrac n s2 with
                | Ok (m, count) s3 =>
                    match parseExp s3 with
                    | Ok e s4 =>
                        Ok (JNumber (if negative : bool then (- m)%Z else m)
                              (e - Z.of_nat count)) s4
                    | SyntaxError => SyntaxError
                    | OutOfFuel => OutOfFuel
                    end
                | SyntaxError => SyntaxError
                | OutOfFuel => OutOfFuel
                end
            | SyntaxError => SyntaxError
            | OutOfFuel => OutOfFuel
            end = Ok v (rest ++ LF)%string).
  { intros negative s1.
    destruct (parseInt s1) as [n s2| |] eqn:E1; try discriminate.
    rewrite (parseInt_suffix _ _ _ E1).
    destruct (parseFrac n s2) as [[m count] s3| |] eqn:E2; try discriminate.
    rewrite (parseFrac_suffix _ _ _ _ E2).
    destruct (parseExp s3) as [e s4| |] eqn:E3; try discriminate.
    rewrite (parseExp_suffix _ _ _ E3).
    intros H. now injection H as <- <-. }
  unfold parseNumber. destruct s as [|c s]; [discriminate|]. cbn [append].
  destruct (code c =? 45)%N; [exact (Hbody true s)|].
  exact (Hbody false (String c s)).
Qed.

Lemma prepend_ok (bytes : string) (r : parsed string) (str rest : string) :
  prepend bytes r = Ok str rest ->
  exists str', r = Ok str' rest /\ str = (bytes ++ str')%string.
Proof.
  destruct r as [str' rest'| |]; cbn; try discriminate.
  intros H. injection H as <- <-. now exists str'.
Qed.

Lemma parseChars_suffix (n : nat) :
  forall s pending str rest,
    (String.length s <= n)%nat ->
    parseChars s pending = Ok str rest ->
    parseChars (s ++ LF)%string pending = Ok str (rest ++ LF)%string.
Proof.
  induction n as [|n IH]; intros s pending str rest Hn.
  - destruct s; [discriminate|cbn in Hn; lia].
  - destruct s as [|c s1]; [discriminate|].
    cbn [parseChars append]. cbn [String.length] in Hn.
    destruct (code c =? 34)%N; [intros H; now injection H as <- <-|].
    destruct (code c =? 92)%N.
    + destruct s1 as [|e s2]; [discriminate|]. cbn [append].
      cbn [String.length] in Hn.
      destruct (code e =? 117)%N.
      * destruct s2 as [|h1 [|h2 [|h3 [|h4 s6]]]]; try discriminate.
        cbn [append]. cbn [String.length] in Hn.
        destruct (hex4 h1 h2 h3 h4) as [cu|]; [|discriminate].
        destruct (unicodeEscape pending cu) as [bytes pending'].
        intros H. apply prepend_ok in H. destruct H as (str' & H & ->).
        rewrite (IH s6 pending' str' rest); [reflexivity|lia|exact H].
      * destruct (simpleEscape e); [|discriminate].
        intros H. apply prepend_ok in H. destruct H as (str' & H & ->).
        rewrite (IH s2 None str' rest); [reflexivity|lia|exact H].
    + destruct (code c <? 32)%N; [discriminate|].
      intros H. apply prepend_ok in H. destruct H as (str' & H & ->).
      rewrite (IH s1 None str' rest); [reflexivity|lia|exact H].
Qed.

Lemma dropPrefix_suffix (lit s rest x : string) :
  dropPrefix lit s = Some rest -> dropPrefix lit (s ++ x)%string = Some (rest ++ x)%string.
Proof.
  revert s. induction lit as [|c lit IH]; intros s H.
  - destruct s; injection H as <-; reflexivity.
  - destruct s as [|d s]; [discriminate H|]. cbn in *.
    destruct (Ascii.eqb c d); [now apply IH|discriminate H].
Qed.

Lemma parseLiteral_suffix (lit : string) (v v' : json) (s rest : string) :
  parseLiteral lit v s = Ok v' rest ->
  parseLiteral lit v (s ++ LF)%string = Ok v' (rest ++ LF)%string.
Proof.
  unfold parseLiteral. destruct (dropPrefix lit s) as [r|] eqn:E; [|discriminate].
  rewrite (dropPrefix_suffix _ _ _ LF E). intros H. now injection H as <- <-.
Qed.

(** A line feed after the text changes nothing to a parse that succeeds,
    but the input left. *)
Lemma parse_suffix (fuel : nat) :
  (forall s v rest,
     parseValue fuel s = Ok v rest ->
     parseValue fuel (s ++ LF)%string = Ok v (rest ++ LF)%string)
  /\ (forall s acc v rest,
        parseElements fuel s acc = Ok v rest ->
        parseElements fuel (s ++ LF)%string acc = Ok v (rest ++ LF)%string)
  /\ (forall s acc v rest,
        parseMembers fuel s acc = Ok v rest ->
        parseMembers fuel (s ++ LF)%string acc = Ok v (rest ++ LF)%string).
Proof.
  induction fuel as [|fuel (IHv & IHe & IHm)]; [repeat split; intros; discriminate|].
  split; [|split].
  - intros s v rest. cbn [parseValue].
    destruct (skipWs s) as [|c r] eqn:Es; [discriminate|].
    rewrite (skipWs_suffix _ _ _ Es).
    destruct (code c =? 123)%N.
    { destruct (skipWs r) as [|c' r'] eqn:Er; [discriminate|].
      rewrite (skipWs_suffix _ _ _ Er).
      destruct (code c' =? 125)%N; [intros H; now injection H as <- <-|].
      apply (IHm (String c' r')). }
    destruct (code c =? 91)%N.
    { destruct (skipWs r) as [|c' r'] eqn:Er; [discriminate|].
      rewrite (skipWs_suffix _ _ _ Er).
      destruct (code c' =? 93)%N; [intros H; now injection H as <- <-|].
      apply (IHe (String c' r')). }
    destruct (code c =? 34)%N.
    { destruct (parseChars r None) as [str r'| |] eqn:Ec; try discriminate.
      rewrite (parseChars_suffix _ _ _ _ _ (Nat.le_refl _) Ec).
      intros H. now injection H as <- <-. }
    destruct (code c =? 116)%N; [apply (parseLiteral_suffix _ _ _ (String c r))|].
    destruct (code c =? 102)%N; [apply (parseLiteral_suffix _ _ _ (String c r))|].
    destruct (code c =? 110)%N; [apply (parseLiteral_suffix _ _ _ (String c r))|].
    destruct ((code c =? 45)%N || isDigit c); [|discriminate].
    apply (parseNumber_suffix (String c r)).
  - intros s acc v rest. cbn [parseElements].
    destruct (parseValue fuel s) as [v' r| |] eqn:Ev; try discriminate.
    rewrite (IHv _ _ _ Ev).
    destruct (skipWs r) as [|c r'] eqn:Er; [discriminate|].
    rewrite (skipWs_suffix _ _ _ Er).
    destruct (code c =? 44)%N; [apply IHe|].
    destruct (code c =? 93)%N; [|discriminate]. intros H. now injection H as <- <-.
  - intros s acc v rest. cbn [parseMembers].
    destruct (skipWs s) as [|q s1] eqn:Es; [discriminate|].
    rewrite (skipWs_suffix _ _ _ Es).
    destruct (code q =? 34)%N; [|discriminate].
    destruct (parseChars s1 None) as [key s2| |] eqn:Ec; try discriminate.
    rewrite (parseChars_suffix _ _ _ _ _ (Nat.le_refl _) Ec).
    destruct (skipWs s2) as [|colon s3] eqn:E2; [discriminate|].
    rewrite (skipWs_suffix _ _ _ E2).
    destruct (code colon =? 58)%N; [|discriminate].
    destruct (parseValue fuel s3) as [v' s4| |] eqn:Ev; try discriminate.
    rewrite (IHv _ _ _ Ev).
    destruct (skipWs s4) as [|c s5] eqn:E4; [discriminate|].
    rewrite (skipWs_suffix _ _ _ E4).
    destruct (code c =? 44)%N; [apply IHm|].
    destruct (code c =? 125)%N; [|discriminate]. intros H. now injection H as <- <-.
Qed.

(** A parse that succeeds does so with any larger budget. *)
Lemma parse_more_fuel (fuel : nat) :
  (forall s v rest,
     parseValue fuel s = Ok v rest -> parseValue (S fuel) s = Ok v rest)
  /\ (forall s acc v rest,
        parseElements fuel s acc = Ok v rest -> parseElements (S fuel) s acc = Ok v rest)
  /\ (forall s acc v rest,
        parseMembers fuel s acc = Ok v rest -> parseMembers (S fuel) s acc = Ok v rest).
Proof.
  induction fuel as [|fuel (IHv & IHe & IHm)]; [repeat split; intros; discriminate|].
  split; [|split].
  - intros s v rest. cbn [parseValue].
    destruct (skipWs s) as [|c r]; [discriminate|].
    destruct (code c =? 123)%N.
    { destruct (skipWs r) as [|c' r']; [discriminate|].
      destruct (code c' =? 125)%N; [trivial|]. apply IHm. }
    destruct (code c =? 91)%N.
    { destruct (skipWs r) as [|c' r']; [discriminate|].
      destruct (code c' =? 93)%N; [trivial|]. apply IHe. }
    trivial.
  - intros s acc v rest. cbn [parseElements].
    destruct (parseValue fuel s) as [v' r| |] eqn:Ev; try discriminate.
    rewrite (IHv _ _ _ Ev).
    destruct (skipWs r) as [|c r']; [discriminate|].
    destruct (code c =? 44)%N; [apply IHe|trivial].
  - intros s acc v rest. cbn [parseMembers].
    destruct (skipWs s) as [|q s1]; [discriminate|].
    destruct (code q =? 34)%N; [|discriminate].
    destruct (parseChars s1 None) as [key s2| |]; try discriminate.
    destruct (skipWs s2) as [|colon s3]; [discriminate|].
    destruct (code colon =? 58)%N; [|discriminate].
    destruct (parseValue fuel s3) as [v' s4| |] eqn:Ev; try discriminate.
    rewrite (IHv _ _ _ Ev).
    destruct (skipWs s4) as [|c s5]; [discriminate|].
    destruct (code c =? 44)%N; [apply IHm|trivial].
Qed.

Lemma parseValue_more_fuel (extra fuel : nat) (s : string) (v : json) (rest : string) :
  parseValue fuel s = Ok v rest -> parseValue (extra + fuel) s = Ok v rest.
Proof.
  intros H. induction extra as [|extra IH]; [exact H|].
  cbn [Nat.add]. now apply parse_more_fuel.
Qed.

(** What [JSON.parse] accepts, it accepts with a line feed after it, to the
    same value. *)
Lemma JSON_parse_suffix (text : string) (v : json) (rest : string) :
  JSON_parse text = Ok v rest -> JSON_parse (text ++ LF)%string = Ok v EmptyString.
Proof.
  unfold JSON_parse.
  destruct (parseValue (fuelFor text) text) as [v' r| |] eqn:Ev; try discriminate.
  destruct (skipWs r) eqn:Er; [|discriminate]. intros H. injection H as <- _.
  assert (Hfuel : fuelFor (text ++ LF)%string = (2 + fuelFor text)%nat).
  { unfold fuelFor. rewrite length_app_string. cbn. lia. }
  rewrite Hfuel, (parseValue_more_fuel 2 _ _ _ _ (proj1 (parse_suffix _) _ _ _ Ev)).
  now rewrite (skipWs_suffix_blank _ Er).
Qed.

Lemma stripWs_blank (backwards : bool) (pre s : string) :
  blank pre = true -> stripWs backwards (pre ++ s)%string = stripWs backwards s.
Proof.
  induction pre as [|c pre IH]; [reflexivity|]. cbn [blank append stripWs].
  intros H. apply andb_true_iff in H. destruct H as [Hc Hpre].
  rewrite Hc. now apply IH.
Qed.

Lemma reverse_blank (s acc : string) :
  blank s = true -> blank acc = true -> blank (reverse s acc) = true.
Proof.
  revert acc. induction s as [|c s IH]; intros acc Hs Hacc; [exact Hacc|].
  cbn [blank] in Hs. apply andb_true_iff in Hs. destruct Hs as [Hc Hs].
  cbn [reverse]. apply IH; [exact Hs|]. cbn [blank]. now rewrite Hc.
Qed.

Lemma reverse_acc (s acc : string) :
  reverse s acc = (reverse s EmptyString ++ acc)%string.
Proof.
  revert acc. induction s as [|c s IH]; intros acc; [reflexivity|].
  cbn [reverse]. rewrite (IH (String c acc)), (IH (String c EmptyString)).
  now rewrite append_assoc.
Qed.

(** White space of one byte around a text between two backquotes is what
    [trim] removes. *)
Lemma trim_blank_around (pre s post : string) :
  blank pre = true -> blank post = true ->
  trim (pre ++ String "`"%char (s ++ "`") ++ post)%string
  = String "`"%char (s ++ "`")%string.
Proof.
  intros Hpre Hpost. unfold trim.
  rewrite (stripWs_blank false pre _ Hpre).
  change (String "`"%char (s ++ "`") ++ post)%string
    with (String "`"%char ((s ++ "`") ++ post)%string).
  rewrite stripWs_backquote.
  change (String "`"%char ((s ++ "`") ++ post)%string)
    with (String "`"%char (s ++ "`") ++ post)%string.
  rewrite reverse_append, (reverse_acc post).
  rewrite (stripWs_blank true _ _ (reverse_blank post EmptyString Hpost eq_refl)).
  change (String "`"%char (s ++ "`")%string) with (("`" ++ s) ++ "`")%string at 1.
  rewrite reverse_append. cbn [reverse]. rewrite stripWs_backquote. cbn [reverse].
  rewrite reverse_reverse. reflexivity.
Qed.

(** X17: whatever text [JSON.parse] accepts, parseJsonFromResponse decodes
    the same text between a fence tagged json and a bare fence, each on a
    line of its own, to the same value, with or without spaces, tabs and
    line breaks around the fences. *)
Theorem fenced_payload_decodes_like_its_content
    (pre text post : string) (v : json) (rest : string) :
  JSON_parse text = Ok v rest ->
  blank pre = true ->
  blank post = true ->
  parseJsonFromResponse (pre ++ ("```json" ++ LF ++ text ++ LF ++ "```") ++ post)%string
  = Some (Fulfilled v).
Proof.
  intros H Hpre Hpost. unfold parseJsonFromResponse.
  assert (Hclean : cleanText (pre ++ ("```json" ++ LF ++ text ++ LF ++ "```") ++ post)%string
                   = cleanText ("```json" ++ LF ++ text ++ LF ++ "```")%string).
  { unfold cleanText. rewrite (fenced_as_backquoted "``json" text).
    now rewrite trim_blank_around, trim_between_backquotes. }
  rewrite Hclean, cleanText_fenced. now rewrite (JSON_parse_suffix _ _ _ H).
Qed.

Lemma fenced_payload_decodes_like_its_content_witness :
  parseJsonFromResponse
    (" " ++ LF ++ ("```json" ++ LF ++ "[1, [true, null]]" ++ LF ++ "```") ++ LF)%string
  = Some (Fulfilled (JArray [JNumber 1 0; JArray [JBool true; JNull]])).
Proof.
  apply (fenced_payload_decodes_like_its_content
           (" " ++ LF)%string "[1, [true, null]]" LF _ EmptyString); reflexivity.
Defined.

(** ** From the API to the decoded value *)

(** X18: generateTopicSummary and generatePracticeProblem, on an API that
    fails fewer than five times with transient errors and then answers with
    a text that is JSON once cleaned, return the decoded value after the
    calls and waits of the retries. *)
Theorem structured_callers_retry_and_decode
    (api : nat -> ApiResult) (rnd : nat -> RandomNumber) (k : nat)
    (response : GenerateContentResponse) (c : ascii) (t : string)
    (v : json) (rest : string) :
  (k < 5)%nat ->
  (forall j, (j < k)%nat ->
     exists name message,
       api j = Throws name message /\ isTransient (toString name message) = true) ->
  api k = Resolves (Some response) ->
  text response = Some (String c t) ->
  JSON_parse (cleanText (String c t)) = Ok v rest ->
  generateTopicSummary api rnd = (backoff 3000 rnd 0 k ++ [Call k], Some (Fulfilled v))
  /\ generatePracticeProblem api rnd
     = (backoff 3000 rnd 0 k ++ [Call k], Some (Fulfilled v)).
Proof.
  intros Hk Hbefore Hapi Htext Hparse.
  assert (Hrun : generateStructured api rnd
                 = (backoff 3000 rnd 0 k ++ [Call k], Some (Fulfilled v))).
  { unfold generateStructured, default_retries, default_delay.
    rewrite (run_ends_at_answer api rnd 5 k 3000 response Hk Hbefore Hapi)
      by now rewrite Htext.
    rewrite Htext. unfold parseJsonFromResponse. now rewrite Hparse. }
  split; exact Hrun.
Qed.

Lemma structured_callers_retry_and_decode_witness :
  generateTopicSummary overloadedThenFenced halfRandom
  = ([Call 0; SetTimeout 3500; Call 1; SetTimeout 6500; Call 2],
     Some (Fulfilled (JObject [("a"%string, JNumber 1 0)]))).
Proof.
  refine (proj1 (structured_callers_retry_and_decode overloadedThenFenced halfRandom 2
                   {| text := Some fencedJson |} "`"%char
                   ("``json" ++ LF ++ objectA1 ++ LF ++ "```")%string
                   (JObject [("a"%string, JNumber 1 0)]) EmptyString _ _ _ _ _)).
  - lia.
  - intros j Hj. exists "ApiError"%string.
    exists "got status: 503 Service Unavailable. The model is overloaded."%string.
    split; [|reflexivity].
    unfold overloadedThenFenced. destruct j as [|[|j]]; [reflexivity|reflexivity|lia].
  - reflexivity.
  - reflexivity.
  - reflexivity.
Defined.

(** ** The conversation *)

Lemma userFacing_text (e : JsValue) :
  userFacing e ->
  exists c message, SocraticTutor.errorText e = Some (String c message).
Proof.
  intros [-> | [-> | [-> | [-> | ->]]]]; cbn; eexists; eexists; reflexivity.
Qed.

(** The call of the earlier getSocraticResponse settles with the text of the
    response, whatever it is, or with an error whose message is shown: in
    both cases the component appends one message of the model. *)
Lemma settle_appends_one (sendMessage : ApiResult) (state : SocraticTutor.State)
    (others : nat) :
  SocraticTutor.inFlight state = S others ->
  exists t,
    SocraticTutor.settle (GeminiService.getSocraticResponse sendMessage) state
    = {| SocraticTutor.messages :=
           SocraticTutor.messages state
           ++ [{| SocraticTutor.role := SocraticTutor.model; SocraticTutor.text := t |}];
         SocraticTutor.input := SocraticTutor.input state;
         SocraticTutor.isLoading := false;
         SocraticTutor.inFlight := others |}
    /\ forall result, sendMessage = Resolves (Some result) -> t = text result.
Proof.
  intros Hn. unfold SocraticTutor.settle. rewrite Hn.
  destruct sendMessage as [[result|]|name message]; cbn [GeminiService.getSocraticResponse].
  - exists (text result). split; [reflexivity|]. now intros r [= <-].
  - destruct (typeErrorOfUndefined "text") as [name message].
    destruct (userFacing_text _ (handleApiError_messages name message)) as (c & t & ->).
    eexists. split; [reflexivity|]. discriminate.
  - destruct (userFacing_text _ (handleApiError_messages name message)) as (c & t & ->).
    eexists. split; [reflexivity|]. discriminate.
Qed.

Lemma chat_appends (l : list SocraticTutor.ChatMessage) (m : SocraticTutor.ChatMessage) :
  hd_error l = Some SocraticTutor.initialMessage ->
  rev (map SocraticTutor.role (l ++ [m]))
  = SocraticTutor.role m :: rev (map SocraticTutor.role l)
  /\ hd_error (l ++ [m]) = Some SocraticTutor.initialMessage.
Proof.
  intros Hhd. rewrite map_app, rev_app_distr. split; [reflexivity|].
  destruct l; [discriminate Hhd|exact Hhd].
Qed.

Lemma act_keeps_chatInvariant (state : SocraticTutor.State) (action : SocraticTutor.Action) :
  chatInvariant state ->
  (action = SocraticTutor.ClearChat -> SocraticTutor.isLoading state = false) ->
  chatInvariant (SocraticTutor.act state action).
Proof.
  intros Hinv Hcalm. pose proof Hinv as (Hturns & Hfirst & Htexts & Hflight & Hlast).
  destruct action as [value| |sendMessage|]; cbn [SocraticTutor.act].
  - exact Hinv.
  - unfold SocraticTutor.handleSubmit.
    destruct (noText (Some (trim (SocraticTutor.input state)))) eqn:Hblank;
      [exact Hinv|].
    destruct (SocraticTutor.isLoading state) eqn:Hloading; [exact Hinv|].
    cbn [orb]. unfold chatInvariant. cbn [SocraticTutor.messages SocraticTutor.isLoading
                                           SocraticTutor.inFlight].
    destruct (chat_appends (SocraticTutor.messages state)
                {| SocraticTutor.role := SocraticTutor.user;
                   SocraticTutor.text := Some (trim (SocraticTutor.input state)) |} Hfirst)
      as [Hrev Hhd].
    rewrite Hrev, Hhd. cbn [SocraticTutor.role].
    destruct (rev (map SocraticTutor.role (SocraticTutor.messages state)))
      as [|latest earlier]; [discriminate Hlast|].
    injection Hlast as ->.
    split; [split; [discriminate|exact Hturns]|]. split; [reflexivity|].
    split; [|split; [now rewrite Hflight|reflexivity]].
    apply Forall_app. split; [exact Htexts|]. constructor; [|constructor].
    cbn. intros _. destruct (trim (SocraticTutor.input state)) as [|c t];
      [discriminate Hblank|]. now exists c, t.
  - destruct (SocraticTutor.inFlight state) as [|others] eqn:Hn.
    { unfold SocraticTutor.settle. rewrite Hn. exact Hinv. }
    destruct (SocraticTutor.isLoading state) eqn:Hloading; [|discriminate Hflight].
    injection Hflight as ->.
    destruct (settle_appends_one sendMessage state 0 Hn) as (t & -> & _).
    unfold chatInvariant. cbn [SocraticTutor.messages SocraticTutor.isLoading
                                 SocraticTutor.inFlight].
    destruct (chat_appends (SocraticTutor.messages state)
                {| SocraticTutor.role := SocraticTutor.model;
                   SocraticTutor.text := t |} Hfirst) as [Hrev Hhd].
    rewrite Hrev, Hhd. cbn [SocraticTutor.role].
    destruct (rev (map SocraticTutor.role (SocraticTutor.messages state)))
      as [|latest earlier]; [discriminate Hlast|].
    injection Hlast as ->.
    split; [split; [discriminate|exact Hturns]|]. split; [reflexivity|].
    split; [|split; reflexivity].
    apply Forall_app. split; [exact Htexts|]. constructor; [discriminate|constructor].
  - specialize (Hcalm eq_refl). rewrite Hcalm in Hflight.
    unfold chatInvariant. cbn. rewrite Hflight.
    repeat split. constructor; [discriminate|constructor].
Qed.

(** X19: as long as the conversation is not cleared while a response is
    awaited, whatever the user types and submits and whatever the API
    answers: the messages of the user and of the model take turns after the
    greeting, no message of the user is empty, at most one call of
    getSocraticResponse is in flight, and one is exactly while the last
    message is the user's.  A message of the model has the text that
    getSocraticResponse returned: a response that settles the awaited call is
    appended with its text as it is, even [undefined]. *)
Theorem conversation_takes_turns (actions : list SocraticTutor.Action) :
  SocraticTutor.calm SocraticTutor.initialState actions ->
  chatInvariant (fold_left SocraticTutor.act actions SocraticTutor.initialState)
  /\ forall result,
       SocraticTutor.isLoading
         (fold_left SocraticTutor.act actions SocraticTutor.initialState) = true ->
       SocraticTutor.messages
         (SocraticTutor.act
            (fold_left SocraticTutor.act actions SocraticTutor.initialState)
            (SocraticTutor.Settle (Resolves (Some result))))
       = SocraticTutor.messages
           (fold_left SocraticTutor.act actions SocraticTutor.initialState)
         ++ [{| SocraticTutor.role := SocraticTutor.model;
                SocraticTutor.text := text result |}].
Proof.
  assert (Hgen : forall state,
            chatInvariant state -> SocraticTutor.calm state actions ->
            chatInvariant (fold_left SocraticTutor.act actions state)).
  { induction actions as [|action rest IH]; intros state Hinv Hcalm; [exact Hinv|].
    destruct Hcalm as [Hclear Hrest]. cbn [fold_left].
    apply IH; [now apply act_keeps_chatInvariant|exact Hrest]. }
  intros Hcalm.
  assert (Hinv : chatInvariant
                   (fold_left SocraticTutor.act actions SocraticTutor.initialState)).
  { apply Hgen; [|exact Hcalm]. unfold chatInvariant. cbn.
    repeat split. constructor; [discriminate|constructor]. }
  split; [exact Hinv|]. intros result Hloading.
  destruct Hinv as (_ & _ & _ & Hflight & _). rewrite Hloading in Hflight.
  cbn [SocraticTutor.act].
  destruct (settle_appends_one (Resolves (Some result)) _ 0 Hflight) as (t & -> & Ht).
  cbn [SocraticTutor.messages]. now rewrite (Ht result eq_refl).
Qed.

Lemma conversation_takes_turns_witness :
  map SocraticTutor.text
    (SocraticTutor.messages
       (fold_left SocraticTutor.act (removelast questionWithoutAnswer)
          SocraticTutor.initialState))
  = [SocraticTutor.text SocraticTutor.initialMessage;
     Some "Why does it slow down?"; None]
  /\ chatInvariant
       (fold_left SocraticTutor.act questionWithoutAnswer SocraticTutor.initialState).
Proof.
  split; [reflexivity|].
  apply (conversation_takes_turns questionWithoutAnswer). cbn.
  repeat split; intros H; try reflexivity; discriminate H.
Defined.

(** ** The callers that return text *)

(** X20: analyzeDiagram and generateSimulationCode throw nothing but the
    errors handleApiError makes; the text analyzeDiagram returns is not
    empty; and generateSimulationCode returns the text of the response
    cleaned of its fences, which may leave nothing: a response that is only
    an html fence and a closing fence gives the empty string. *)
Theorem text_callers_outcomes (api : nat -> ApiResult) (rnd : nat -> RandomNumber) :
  (forall e, snd (analyzeDiagram api rnd) = Rejected e -> userFacing e)
  /\ (forall e, snd (generateSimulationCode api rnd) = Rejected e -> userFacing e)
  /\ (forall t, snd (analyzeDiagram api rnd) = Fulfilled t ->
        exists c s, t = Some (String c s))
  /\ (forall html, snd (generateSimulationCode api rnd) = Fulfilled html ->
        exists m response c s,
          api m = Resolves (Some response)
          /\ text response = Some (String c s)
          /\ html = cleanedResponse (String c s))
  /\ cleanedResponse ("```html" ++ LF ++ "```")%string = EmptyString.
Proof.
  destruct (generateContentWithRetry_shape api rnd default_retries default_delay)
    as (m & _ & Hset); [unfold default_retries; lia|].
  unfold analyzeDiagram, generateSimulationCode.
  destruct (generateContentWithRetry api rnd default_retries default_delay)
    as [events settled].
  cbn [snd] in Hset. subst settled. unfold settledAt, tryGenerateContent.
  destruct (api m) as [[r|]|name message] eqn:Hapi.
  - destruct (noText (text r)) eqn:Hno.
    + repeat split; cbn; try discriminate;
        intros e H; injection H as <-; apply handleApiError_messages.
    + destruct (text r) as [[|c s]|] eqn:Htext; try discriminate Hno.
      repeat split; cbn; try discriminate.
      * intros t H. injection H as <-. now exists c, s.
      * intros html H. injection H as <-. exists m, r, c, s. now repeat split.
  - repeat split; cbn; try discriminate;
      intros e H; injection H as <-; apply handleApiError_messages.
  - repeat split; cbn; try discriminate;
      intros e H; injection H as <-; apply handleApiError_messages.
Qed.

Lemma text_callers_outcomes_witness :
  exists c s, Some objectA1 = Some (String c s).
Proof.
  apply (proj1 (proj2 (proj2 (text_callers_outcomes overloadedTwice halfRandom)))).
  reflexivity.
Defined.
